(** * Merge-insertion sort (Ford-Johnson): a shallow embedding of
    [merge_insertion/__init__.py] and the properties of its specification.

    Python integers are [Z]; sequences are [list]; the asynchronous
    comparator is an oracle that the program queries, so a program is a
    decision tree ([prog]) whose inner nodes are the awaited comparisons. *)

From Stdlib Require Import ZArith Lia String.
From Stdlib Require OrderedTypeEx.
From stdpp Require Import list sorting.


(** ** Python sequences *)

Definition py_len {A} (l : list A) : Z := Z.of_nat (length l).

(** Normalisation of a slice bound: negative bounds count from the end and
    everything is clamped to [0, len]. *)
Definition py_norm (n i : Z) : Z :=
  if (i <? 0)%Z then Z.max 0 (i + n) else Z.min i n.

(** [l[lo:hi]] *)
Definition py_slice {A} (l : list A) (lo hi : Z) : list A :=
  let a := py_norm (py_len l) lo in
  let b := py_norm (py_len l) hi in
  take (Z.to_nat (b - a)) (drop (Z.to_nat a) l).

(** [l[i]]: negative indices count from the end; [None] is an [IndexError]. *)
Definition py_index {A} (l : list A) (i : Z) : option A :=
  if (i <? 0)%Z
  then (if (i + py_len l <? 0)%Z then None else l !! Z.to_nat (i + py_len l))
  else l !! Z.to_nat i.

(** [list(enumerate(l))] *)
Definition enumerate {A} (l : list A) : list (nat * A) := imap pair l.

(** ** The group-size generator [_group_sizes] *)

(** The generator's local variables [prev] and [i]. *)
Record gen_state := GenState { gen_prev : Z; gen_i : Z }.

(** Calling [_group_sizes()] creates a generator in its initial state. *)
Definition group_sizes : gen_state := GenState 0 1.

(** [next(gen)]: one turn of the [while True] loop up to the [yield]. *)
Definition gen_next (g : gen_state) : Z * gen_state :=
  let cur := (2 ^ gen_i g - gen_prev g)%Z in
  (cur, GenState cur (gen_i g + 1)).

(** [list(islice(gen, n))] *)
Fixpoint islice (g : gen_state) (n : nat) : list Z :=
  match n with
  | O => []
  | S n' => let '(cur, g') := gen_next g in cur :: islice g' n'
  end.

(** The [k]-th emitted value, counted from 1 ([0] for [k = 0]). *)
Definition emitted (k : nat) : Z := nth (k - 1) (islice group_sizes k) 0%Z.

(** The sequence of the specification: a(0) = 0, a(n) = 2^n - a(n-1). *)
Fixpoint A014113 (n : nat) : Z :=
  match n with
  | O => 0%Z
  | S m => (2 ^ Z.of_nat n - A014113 m)%Z
  end.

(** ** The group partitioner [_make_groups] *)

(** The [while True] loop of [_make_groups]; [None] when the fuel runs out. *)
Fixpoint make_groups_loop {A} (fuel : nat) (items : list (nat * A))
    (gen : gen_state) (i : Z) (rv : list (nat * A)) : option (list (nat * A)) :=
  match fuel with
  | O => None
  | S fuel' =>
      let '(size, gen') := gen_next gen in
      let group := py_slice items i (i + size) in
      let rv' := rv ++ reverse group in
      if (py_len group <? size)%Z then Some rv'
      else make_groups_loop fuel' items gen' (i + size)%Z rv'
  end.

Definition make_groups {A} (array : list A) : option (list (nat * A)) :=
  make_groups_loop (S (length array)) (enumerate array) group_sizes 0%Z [].

(** Start position of group [j] (groups counted from 0): the sum of the
    sizes of the groups before it. *)
Fixpoint group_start (j : nat) : Z :=
  match j with
  | O => 0%Z
  | S j' => (group_start j' + A014113 j)%Z
  end.

(** Group [j] of a sequence: the slice between two consecutive group starts. *)
Definition group_of {A} (j : nat) (l : list A) : list A :=
  py_slice l (group_start j) (group_start (S j)).

(** The state of the generator after [n] values have been drawn. *)
Definition gen_after (n : nat) : gen_state :=
  GenState (A014113 n) (Z.of_nat (S n)).

(** [l.insert(i, x)]: the index is normalised like a slice bound. *)
Definition py_insert {A} (l : list A) (i : Z) (x : A) : list A :=
  let k := Z.to_nat (py_norm (py_len l) i) in
  take k l ++ x :: drop k l.

(** [list(range(start, stop, step))] for a positive [step]. *)
Definition py_range (start stop step : Z) : list Z :=
  map (λ k : nat, (start + Z.of_nat k * step)%Z)
      (seq 0 (Z.to_nat ((stop - start + step - 1) / step))).

(** ** Errors and the comparison oracle *)

Inductive error :=
| DuplicateItems      (* ValueError: array may not contain duplicate items *)
| ItemInTarget        (* ValueError: item is already in target array *)
| IdentNotFound       (* IndexError raised by _ident_find *)
| IndexError          (* subscript or pop out of range *)
| KeyError            (* missing dictionary key *)
| AssertionError      (* a failed assert statement *)
| NegativeArgument    (* ValueError: must specify zero or more items *)
| OutOfFuel.          (* the fuel of a modelled loop or recursion ran out *)

Global Instance error_eq_dec : EqDecision error.
Proof. solve_decision. Defined.

Inductive outcome (A : Type) : Type :=
| Ok (a : A)
| Err (e : error).
Global Arguments Ok {A} a.
Global Arguments Err {A} e.

(** ** The maximum-comparisons bound *)

(** [ceil(log2(p/q))] for [p/q > 1/2]: the least [k >= 0] with [p <= q * 2^k]. *)
Definition ceil_log2_ratio (p q : Z) : Z := Z.log2_up ((p + q - 1) / q).

(** [merge_insertion_max_comparisons]; the logarithms are the exact
    real-valued ones, [floor(log2(x))] being [Z.log2 x]. *)
Definition merge_insertion_max_comparisons (n : Z) : outcome Z :=
  if (n <? 0)%Z then Err NegativeArgument
  else if (n =? 0)%Z then Ok 0%Z
  else Ok (n * ceil_log2_ratio (3 * n) 4
           - 2 ^ Z.log2 (6 * n) / 3
           + Z.log2 (6 * n) / 2)%Z.

(** The bound as a number ([0] where the function raises). *)
Definition max_comparisons (n : nat) : nat :=
  match merge_insertion_max_comparisons (Z.of_nat n) with
  | Ok c => Z.to_nat c
  | Err _ => 0
  end.

(** The number of comparisons that inserting the [n]-th item may cost:
    ceil(log2(3n/4)). *)
Definition step_cost (n : Z) : Z := ceil_log2_ratio (3 * n) 4.

(** The sum of the insertion costs of the first [n] items. *)
Fixpoint sum_cost (n : nat) : Z :=
  match n with
  | O => 0%Z
  | S m => (sum_cost m + step_cost (Z.of_nat n))%Z
  end.

(** The insertion costs of the first [p] queue positions. *)
Fixpoint queue_bound (p : nat) : Z :=
  match p with
  | O => 0%Z
  | S p' => (queue_bound p' + step_cost (2 * Z.of_nat p' + 3))%Z
  end.

Section Program.

Context {T : Type} `{EqDecision T}.

(** ** Programs that await the comparator

    [Await x y k] submits the tuple [(x, y)] to the comparator and resumes
    with [k r], where [r] tells whether the comparator returned 1 (the second
    item ranks higher). *)
Inductive prog (A : Type) : Type :=
| Ret (a : A)
| Raise (e : error)
| Await (x y : T) (k : bool → prog A).
Global Arguments Ret {A} a.
Global Arguments Raise {A} e.
Global Arguments Await {A} x y k.

Fixpoint bind {A B} (m : prog A) (f : A → prog B) : prog B :=
  match m with
  | Ret a => f a
  | Raise e => Raise e
  | Await x y k => Await x y (λ r, bind (k r) f)
  end.

Notation "x <- m ;; f" := (bind m (λ x, f))
  (at level 20, m at level 99, f at level 200, only parsing).
Notation "' pat <- m ;; f" := (bind m (λ x, match x with pat => f end))
  (at level 20, pat pattern, m at level 99, f at level 200, only parsing).

(** An optional value whose absence raises [e]. *)
Definition lift_opt {A} (e : error) (o : option A) : prog A :=
  match o with Some a => Ret a | None => Raise e end.

(** [assert b] *)
Definition py_assert (b : bool) : prog unit :=
  if b then Ret tt else Raise AssertionError.

(** One comparator call: the two submitted items and the answer. *)
Definition query : Type := T * T * bool.

(** [runs m log o]: some sequence of comparator answers drives [m] through
    the comparisons [log] to the outcome [o]. *)
Inductive runs {A} : prog A → list query → outcome A → Prop :=
| runs_ret a : runs (Ret a) [] (Ok a)
| runs_raise e : runs (Raise e) [] (Err e)
| runs_await x y k r log o :
    runs (k r) log o → runs (Await x y k) ((x, y, r) :: log) o.

(** Running a program against a comparator that is a function of the pair. *)
Fixpoint run {A} (comp : T → T → bool) (m : prog A) : outcome A * list query :=
  match m with
  | Ret a => (Ok a, [])
  | Raise e => (Err e, [])
  | Await x y k =>
      let r := comp x y in
      let '(o, log) := run comp (k r) in (o, (x, y, r) :: log)
  end.

(** The largest number of comparator calls over all answer sequences. *)
Fixpoint depth {A} (m : prog A) : nat :=
  match m with
  | Ret _ | Raise _ => 0
  | Await _ _ k => S (depth (k true) `max` depth (k false))
  end.

(** ** Binary insertion search [_bin_insert_index] *)

(** The [while left <= right] loop. *)
Fixpoint bin_search_loop (fuel : nat) (array : list T) (item : T)
    (left right : Z) : prog Z :=
  if (left <=? right)%Z then
    match fuel with
    | O => Raise OutOfFuel
    | S fuel' =>
        let mid := (left + (right - left) / 2)%Z in
        x <- lift_opt IndexError (py_index array mid) ;;
        Await item x (λ r,
          if r then bin_search_loop fuel' array item left (mid - 1)%Z
          else bin_search_loop fuel' array item (mid + 1)%Z right)
    end
  else Ret left.

Definition bin_insert_index (array : list T) (item : T) : prog Z :=
  match array with
  | [] => Ret 0%Z
  | _ =>
      if decide (item ∈ array) then Raise ItemInTarget
      else if (py_len array =? 1)%Z then
        x <- lift_opt IndexError (py_index array 0) ;;
        Await item x (λ r, Ret (if r then 0 else 1)%Z)
      else bin_search_loop (length array) array item 0 (py_len array - 1)
  end.

(** ** The dictionary [pairs] (insertion-ordered, keyed by value equality) *)

Fixpoint dict_set (d : list (T * T)) (k v : T) : list (T * T) :=
  match d with
  | [] => [(k, v)]
  | (k', v') :: d' =>
      if decide (k' = k) then (k', v) :: d' else (k', v') :: dict_set d' k v
  end.

Fixpoint dict_get (d : list (T * T)) (k : T) : option T :=
  match d with
  | [] => None
  | (k', v') :: d' => if decide (k' = k) then Some v' else dict_get d' k
  end.

(** [list(d)]: the keys in insertion order. *)
Definition dict_keys (d : list (T * T)) : list T := map fst d.

(** ** The main chain

    The slots of the main chain are mutable list objects that the insertion
    queue shares with the chain: [heap] holds the slot objects created by one
    invocation, addressed by their position, and [chain] is the list
    [main_chain] of references to them. *)
Record main_chain := MainChain { heap : list (list T); chain : list nat }.

(** [_ident_find(array, item)]: the position of the first reference that is
    the object [item]. *)
Definition ident_find (array : list nat) (item : nat) : prog nat :=
  match list_find (λ e, e = item) array with
  | Some (i, _) => Ret i
  | None => Raise IdentNotFound
  end.

(** [[ i[0] for i in refs ]] *)
Fixpoint firsts (h : list (list T)) (refs : list nat) : prog (list T) :=
  match refs with
  | [] => Ret []
  | r :: refs' =>
      slot <- lift_opt IndexError (h !! r) ;;
      x <- lift_opt IndexError (py_index slot 0) ;;
      xs <- firsts h refs' ;;
      Ret (x :: xs)
  end.

(** [[ [la, pairs[la]] for la in larger ]] *)
Fixpoint paired_slots (pairs : list (T * T)) (larger : list T)
    : prog (list (list T)) :=
  match larger with
  | [] => Ret []
  | la :: larger' =>
      sm <- lift_opt KeyError (dict_get pairs la) ;;
      rest <- paired_slots pairs larger' ;;
      Ret ([la; sm] :: rest)
  end.

(** The construction of [main_chain]; its slot objects are the first ones
    of the invocation. *)
Definition build_main_chain (pairs : list (T * T)) (larger : list T)
    : prog main_chain :=
  la0 <- lift_opt IndexError (py_index larger 0) ;;
  sm0 <- lift_opt KeyError (dict_get pairs la0) ;;
  rest <- paired_slots pairs (py_slice larger 1 (py_len larger)) ;;
  let slots := [sm0] :: [la0] :: rest in
  Ret (MainChain slots (seq 0 (length slots))).

(** [all(len(i) == n for i in refs)] *)
Definition all_len (h : list (list T)) (n : Z) (refs : list nat) : bool :=
  forallb (λ r, match h !! r with
                | Some slot => (py_len slot =? n)%Z
                | None => false
                end) refs.

(** The body of the insertion loop for the queued slot object [pair],
    given by its reference. *)
Definition insert_queued (pair_ref : nat) (st : main_chain) : prog main_chain :=
  slot <- lift_opt IndexError (heap st !! pair_ref) ;;
  if (py_len slot =? 1)%Z then
    item <- lift_opt IndexError (py_index slot 0) ;;
    targets <- firsts (heap st) (chain st) ;;
    idx <- bin_insert_index targets item ;;
    Ret (MainChain (heap st ++ [[item]])
                   (py_insert (chain st) idx (length (heap st))))
  else
    _ <- py_assert (py_len slot =? 2)%Z ;;
    pair_idx <- ident_find (chain st) pair_ref ;;
    item <- lift_opt IndexError (last slot) ;;
    let h := <[pair_ref := removelast slot]> (heap st) in
    targets <- firsts h (py_slice (chain st) 0 (Z.of_nat pair_idx)) ;;
    idx <- bin_insert_index targets item ;;
    Ret (MainChain (h ++ [[item]]) (py_insert (chain st) idx (length h))).

(** The [for _, pair in ...] loop over the insertion queue. *)
Fixpoint insert_all (queue : list (nat * nat)) (st : main_chain)
    : prog main_chain :=
  match queue with
  | [] => Ret st
  | (_, pair_ref) :: queue' =>
      st' <- insert_queued pair_ref st ;;
      insert_all queue' st'
  end.

(** ** The driver [merge_insertion_sort] *)

(** The pairing loop [for i in range(0, len(array)-1, 2)]. *)
Fixpoint pair_up_loop (idxs : list Z) (array : list T) (pairs : list (T * T))
    : prog (list (T * T)) :=
  match idxs with
  | [] => Ret pairs
  | i :: idxs' =>
      a <- lift_opt IndexError (py_index array i) ;;
      b <- lift_opt IndexError (py_index array (i + 1)) ;;
      Await a b (λ r,
        pair_up_loop idxs' array
          (if r then dict_set pairs b a else dict_set pairs a b))
  end.

Definition pair_up (array : list T) : prog (list (T * T)) :=
  pair_up_loop (py_range 0 (py_len array - 1) 2) array [].

(** The insertion queue: the slots from the third one on, then the slot of
    the leftover item of an odd-length input, reordered by [_make_groups]. *)
Definition insertion_queue (array : list T) (st : main_chain)
    : prog (list (nat * nat) * main_chain) :=
  if (py_len array mod 2 =? 0)%Z then
    queue <- lift_opt OutOfFuel
               (make_groups (py_slice (chain st) 2 (py_len (chain st)))) ;;
    Ret (queue, st)
  else
    lo <- lift_opt IndexError (py_index array (-1)) ;;
    queue <- lift_opt OutOfFuel
               (make_groups (py_slice (chain st) 2 (py_len (chain st))
                             ++ [length (heap st)])) ;;
    Ret (queue, MainChain (heap st ++ [[lo]]) (chain st)).

(** The part of the driver after the recursive call. *)
Definition merge_phase (array : list T) (pairs : list (T * T))
    (larger : list T) : prog (list T) :=
  st <- build_main_chain pairs larger ;;
  _ <- py_assert (all_len (heap st) 2 (py_slice (chain st) 2 (py_len (chain st)))) ;;
  '(queue, st) <- insertion_queue array st ;;
  st <- insert_all queue st ;;
  _ <- py_assert (all_len (heap st) 1 (chain st)) ;;
  firsts (heap st) (chain st).

(** The recursion of the driver, bounded by [fuel]. *)
Fixpoint sort_rec (fuel : nat) (array : list T) : prog (list T) :=
  if (py_len array <? 1)%Z then Ret []
  else if (py_len array =? 1)%Z then Ret array
  else if negb (py_len array =? py_len (remove_dups array))%Z
       then Raise DuplicateItems
  else if (py_len array =? 2)%Z then
    a <- lift_opt IndexError (py_index array 0) ;;
    b <- lift_opt IndexError (py_index array 1) ;;
    Await a b (λ r, Ret (if r then array else [b; a]))
  else
    match fuel with
    | O => Raise OutOfFuel
    | S fuel' =>
        pairs <- pair_up array ;;
        larger <- sort_rec fuel' (dict_keys pairs) ;;
        merge_phase array pairs larger
    end.

Definition merge_insertion_sort (array : list T) : prog (list T) :=
  sort_rec (length array) array.

End Program.

Notation "x <- m ;; f" := (bind m (λ x, f))
  (at level 20, m at level 99, f at level 200, only parsing).
Notation "' pat <- m ;; f" := (bind m (λ x, match x with pat => f end))
  (at level 20, pat pattern, m at level 99, f at level 200, only parsing).

(** ** Comparators and orders *)

Section Orders.

Context {T : Type} `{EqDecision T}.

(** The comparator [comp] gives the answers recorded in [log]. *)
Definition answers (comp : T → T → bool) (log : list (@query T)) : Prop :=
  Forall (λ q : query, q.2 = comp q.1.1 q.1.2) log.

(** [comp] is consistent with a strict total order on the items [D]: on
    pairs of distinct items of [D] it is total, asymmetric and transitive.
    Nothing is asked of [comp x x], which a valid run never submits. *)
Record consistent (comp : T → T → bool) (D : list T) : Prop := Consistent {
  consistent_asym x y :
    x ∈ D → y ∈ D → x ≠ y → comp x y = negb (comp y x);
  consistent_trans x y z :
    x ∈ D → y ∈ D → z ∈ D → x ≠ y → y ≠ z →
    comp x y = true → comp y z = true → comp x z = true
}.

(** [x] ranks strictly below [y] among the items [D]. *)
Definition below (comp : T → T → bool) (D : list T) (x y : T) : Prop :=
  x ∈ D ∧ y ∈ D ∧ x ≠ y ∧ comp x y = true.

(** Strictly ascending under the comparator: every item is distinct from and
    ranked below every later one. *)
Definition ascending (comp : T → T → bool) (l : list T) : Prop :=
  StronglySorted (λ x y, x ≠ y ∧ comp x y = true) l.

(** Two comparator calls submit the same unordered pair. *)
Definition same_pair (p q : @query T) : Prop :=
  (p.1.1 = q.1.1 ∧ p.1.2 = q.1.2) ∨ (p.1.1 = q.1.2 ∧ p.1.2 = q.1.1).

(** No unordered pair is submitted twice. *)
Definition no_repeat (log : list (@query T)) : Prop :=
  ForallOrdPairs (λ p q, ¬ same_pair p q) log.

(** The ordered pairs submitted in [log], each with its mirror image. *)
Definition both (log : list (@query T)) : list (T * T) :=
  flat_map (λ q : query, [(q.1.1, q.1.2); (q.1.2, q.1.1)]) log.

(** The items submitted by the comparator calls, in order. *)
Definition submitted (log : list (@query T)) : list T :=
  flat_map (λ q : query, [q.1.1; q.1.2]) log.

(** The dictionary entries [new] record the answers [log]: key the item
    ranked higher, value the other one. *)
Definition paired (new : list (T * T)) (log : list (@query T)) : Prop :=
  Forall2 (λ (kv : T * T) (q : query),
             q = (kv.2, kv.1, true) ∨ q = (kv.1, kv.2, false)) new log.

End Orders.

(** The placed (first) item of the slot object at [r]. *)
Definition slot_head {T} (h : list (list T)) (r : nat) : option T :=
  h !! r ≫= (λ slot, slot !! 0).

(** ** The invariant of the insertion loop *)

Section Invariant.

Context {T : Type} `{EqDecision T}.

(** What the queue entry [e] (original position and slot reference) stands
    for after [k] insertions, for the item [y] it will insert: either its
    slot is the two-item slot [[x; y]] of a pair, found in the chain no
    further than [k] places after its original position, or it is the
    one-item slot of the leftover item, which is not in the chain. *)
Definition queued (pairs : list (T * T)) (leftover : option T)
    (st : @main_chain T) (k : nat) (e : nat * nat) (y : T) : Prop :=
  (∃ x idx, heap st !! e.2 = Some [x; y] ∧ chain st !! idx = Some e.2
            ∧ idx ≤ e.1 + 2 + k ∧ (x, y) ∈ pairs)
  ∨ (heap st !! e.2 = Some [y] ∧ (e.2 ∉ chain st)
     ∧ length (chain st) ≤ e.1 + 2 + k ∧ leftover = Some y).

(** The state [st] with placed items [P], items [Y] still to insert through
    the entries [queue], after [k] insertions. *)
Record chain_inv (pairs : list (T * T)) (leftover : option T) (items : list T)
    (st : @main_chain T) (P Y : list T) (queue : list (nat * nat)) (k : nat)
    : Prop := ChainInv {
  ci_heads : Forall2 (λ r x, slot_head (heap st) r = Some x) (chain st) P;
  ci_nodup : NoDup (chain st);
  ci_queue : Forall2 (queued pairs leftover st k) queue Y;
  ci_queue_nodup : NoDup (map snd queue);
  ci_single r : r ∈ chain st → r ∉ map snd queue → ∃ x, heap st !! r = Some [x];
  ci_items : P ++ Y ≡ₚ items
}.

End Invariant.

(** The bound on the comparisons of the insertions of [queue], the first of
    which is made after [k] earlier ones: an entry of original position [q]
    is searched among at most [q + 2 + k] placed items. *)
Fixpoint queue_cost (k : nat) (queue : list (nat * nat)) : Z :=
  match queue with
  | [] => 0%Z
  | (q, _) :: queue' =>
      (Z.log2_up (Z.of_nat q + Z.of_nat k + 3) + queue_cost (S k) queue')%Z
  end.

(** No pair is compared twice, neither among the pairs [E] compared before
    the insertions nor among the comparisons [IL] of the insertions, and the
    insertions compared placed items only. *)
Definition log_inv {T} (E : list (T * T)) (P : list T)
    (IL : list (@query T)) : Prop :=
  NoDup (E ++ both IL) ∧ ∀ a b, (a, b) ∈ both IL → a ∈ P ∧ b ∈ P.

(** ** The comparators of the tests

    [_test_comp(comp, max_calls, log)] wraps a comparator in a closure that
    counts its calls and remembers the submitted pairs; it fails a test
    assertion on a tuple of two equal items, on a pair that was submitted
    before in either order, and on a call beyond [max_calls]. *)

(** The assertion of the closure that failed. *)
Inductive check_failure :=
| ItemsEqual            (* assertNotEqual: a and b may not be equal *)
| DuplicateComparison   (* assertFalse: duplicate comparison *)
| TooManyCalls.         (* assertLessEqual: too many Comparator calls *)

Section TestComp.

Context {T : Type} `{EqDecision T}.

(** The variables the closure captures: [call_count], the
    [defaultdict(set)] [pair_map] as an association list from the keys to
    the members of their sets, and the optional list [log]. *)
Record checker := Checker {
  call_count : Z;
  pair_map : list (T * list T);
  comp_log : option (list (T * T))
}.

(** [a in pair_map and b in pair_map[a]] *)
Fixpoint pair_map_has (pm : list (T * list T)) (a b : T) : bool :=
  match pm with
  | [] => false
  | (k, s) :: pm' =>
      if decide (k = a) then bool_decide (b ∈ s) else pair_map_has pm' a b
  end.

(** [pair_map[a].add(b)]: a missing key is first given the empty set. *)
Fixpoint pair_map_add (pm : list (T * list T)) (a b : T) : list (T * list T) :=
  match pm with
  | [] => [(a, [b])]
  | (k, s) :: pm' =>
      if decide (k = a)
      then (k, if bool_decide (b ∈ s) then s else s ++ [b]) :: pm'
      else (k, s) :: pair_map_add pm' a b
  end.

(** The closure [c] returned by [_test_comp(comp, max_calls, log)], as a
    function of the captured variables: the new values of the variables,
    and the failed assertion or the answer of [comp]. *)
Definition test_comp (comp : T → T → bool) (max_calls : Z)
    (st : checker) (a b : T) : checker * (check_failure + bool) :=
  if decide (a = b) then (st, inl ItemsEqual)
  else if pair_map_has (pair_map st) a b || pair_map_has (pair_map st) b a
  then (st, inl DuplicateComparison)
  else
    let pm := pair_map_add (pair_map st) a b in
    let n := (call_count st + 1)%Z in
    if (n <=? max_calls)%Z
    then (Checker n pm ((λ l, l ++ [(a, b)]) <$> comp_log st), inr (comp a b))
    else (Checker n pm (comp_log st), inl TooManyCalls).

(** The captured variables stand for the earlier calls [L]: the pairs of
    [pair_map] are the tuples submitted by [L], and [call_count] is their
    number. *)
Definition records (st : checker) (L : list query) : Prop :=
  (∀ a b, pair_map_has (pair_map st) a b = true ↔ ∃ r, (a, b, r) ∈ L)
  ∧ call_count st = Z.of_nat (length L).

(** The variables when the closure is created. *)
Definition new_checker (log : option (list (T * T))) : checker :=
  Checker 0 [] log.

(** Running a program against a comparator that keeps a state [St] and may
    fail with [F]; a failure ends the program, which catches nothing. *)
Fixpoint run_checked {St F A} (c : St → T → T → St * (F + bool))
    (m : prog A) (s : St) : St * (F + outcome A) :=
  match m with
  | Ret a => (s, inr (Ok a))
  | Raise e => (s, inr (Err e))
  | Await x y k =>
      match c s x y with
      | (s', inr r) => run_checked c (k r) s'
      | (s', inl f) => (s', inl f)
      end
  end.

End TestComp.

Global Instance string_eq_decision : EqDecision string := string_dec.

(** [_comp]: 0 if the first string is greater than the second, else 1. *)
Definition _comp (a b : string) : bool :=
  if String.ltb b a then false else true.

(** ** Example values *)

Definition example_targets : list nat := [2; 4; 6; 8; 10].
Definition example_log : list (@query nat) := [(7, 6, false); (7, 8, true)].
Definition example_array : list nat := [4; 1; 5; 2; 3; 7; 6].

(** * Facts *)

(** ** Facts about the group sizes *)

Lemma A014113_bounds n : (0 <= A014113 n <= 2 ^ Z.of_nat n)%Z.
Proof.
  induction n as [|n IH]; [simpl; lia|].
  change (A014113 (S n)) with (2 ^ Z.of_nat (S n) - A014113 n)%Z.
  rewrite Nat2Z.inj_succ, Z.pow_succ_r by lia. lia.
Qed.

Lemma A014113_pos n : (0 < A014113 (S n))%Z.
Proof.
  change (A014113 (S n)) with (2 ^ Z.of_nat (S n) - A014113 n)%Z.
  pose proof (A014113_bounds n) as Hb.
  rewrite Nat2Z.inj_succ, Z.pow_succ_r by lia. lia.
Qed.

Lemma A014113_adjacent n : (A014113 n + A014113 (S n) = 2 ^ Z.of_nat (S n))%Z.
Proof. change (A014113 (S n)) with (2 ^ Z.of_nat (S n) - A014113 n)%Z. lia. Qed.

Lemma gen_next_after n : gen_next (gen_after n) = (A014113 (S n), gen_after (S n)).
Proof.
  unfold gen_next, gen_after; cbn [gen_prev gen_i].
  change (A014113 (S n)) with (2 ^ Z.of_nat (S n) - A014113 n)%Z.
  do 2 f_equal. lia.
Qed.

Lemma islice_after n m :
  islice (gen_after n) m = map A014113 (seq (S n) m).
Proof.
  revert n; induction m as [|m IH]; intros n; [done|].
  cbn [islice]. rewrite gen_next_after, IH. done.
Qed.

Lemma islice_group_sizes m : islice group_sizes m = map A014113 (seq 1 m).
Proof. apply (islice_after 0 m). Qed.

Lemma emitted_A014113 k : 1 ≤ k → emitted k = A014113 k.
Proof.
  intros Hk. unfold emitted. rewrite islice_group_sizes.
  rewrite (nth_indep _ 0%Z (A014113 0)) by (rewrite length_map, length_seq; lia).
  rewrite map_nth, seq_nth by lia. f_equal; lia.
Qed.

Lemma group_start_mono j : (group_start j < group_start (S j))%Z.
Proof. cbn [group_start]. pose proof (A014113_pos j). lia. Qed.

Lemma group_start_nonneg j : (0 <= group_start j)%Z.
Proof.
  induction j as [|j IH]; [simpl; lia|]. pose proof (group_start_mono j). lia.
Qed.

Lemma group_start_ge j : (Z.of_nat j <= group_start j)%Z.
Proof.
  induction j as [|j IH]; [simpl; lia|]. pose proof (group_start_mono j). lia.
Qed.

(** ** Facts about Python slices and [_make_groups] *)

Lemma py_slice_nat {A} (l : list A) (lo hi : Z) :
  (0 <= lo <= hi)%Z →
  py_slice l lo hi = take (Z.to_nat hi - Z.to_nat lo) (drop (Z.to_nat lo) l).
Proof.
  intros Hlh. unfold py_slice, py_norm, py_len.
  destruct (Z.ltb_spec lo 0) as [?|_]; [lia|].
  destruct (Z.ltb_spec hi 0) as [?|_]; [lia|].
  destruct (Z.le_gt_cases (Z.of_nat (length l)) lo) as [Hge|Hlt].
  - rewrite !drop_ge by lia. by rewrite !take_nil.
  - rewrite (Z.min_l lo) by lia.
    destruct (Z.le_gt_cases (Z.of_nat (length l)) hi) as [Hge'|Hlt'].
    + rewrite Z.min_r by lia.
      rewrite !take_ge; [done| |]; rewrite length_drop; lia.
    + rewrite Z.min_l by lia. f_equal. lia.
Qed.

Lemma group_start_le j j' : j ≤ j' → (group_start j <= group_start j')%Z.
Proof.
  induction 1 as [|j' _ IH]; [lia|]. pose proof (group_start_mono j'). lia.
Qed.

Lemma group_of_nat {A} j (l : list A) :
  group_of j l =
  take (Z.to_nat (A014113 (S j))) (drop (Z.to_nat (group_start j)) l).
Proof.
  unfold group_of. pose proof (group_start_nonneg j). pose proof (A014113_pos j).
  rewrite py_slice_nat by (cbn [group_start]; lia).
  f_equal. cbn [group_start]. lia.
Qed.

Lemma make_groups_loop_spec {A} fuel j (items rv : list (nat * A)) :
  (group_start j <= py_len items)%Z →
  length items - Z.to_nat (group_start j) < fuel →
  ∃ out,
    make_groups_loop fuel items (gen_after j) (group_start j) rv = Some (rv ++ out)
    ∧ out ≡ₚ drop (Z.to_nat (group_start j)) items
    ∧ ∀ j', j ≤ j' →
        take (Z.to_nat (A014113 (S j')))
             (drop (Z.to_nat (group_start j') - Z.to_nat (group_start j)) out)
        = reverse (group_of j' items).
Proof.
  revert j rv. induction fuel as [|fuel IH]; intros j rv Hle Hfuel; [lia|].
  cbn [make_groups_loop]. rewrite gen_next_after.
  pose proof (group_start_nonneg j) as Hnn. pose proof (A014113_pos j) as Hpos.
  change (group_start j + A014113 (S j))%Z with (group_start (S j)).
  fold (group_of j items). unfold py_len in *.
  set (sj := Z.to_nat (group_start j)) in *.
  set (gj := Z.to_nat (A014113 (S j))) in *.
  assert (Hg : group_of j items = take gj (drop sj items)) by apply group_of_nat.
  assert (Hlen : length (group_of j items) = gj `min` (length items - sj)).
  { rewrite Hg, length_take, length_drop. done. }
  destruct (Z.ltb_spec (Z.of_nat (length (group_of j items))) (A014113 (S j)))
    as [Hshort|Hfull].
  - (* the partial group is the last one *)
    assert (Hrest : group_of j items = drop sj items).
    { rewrite Hg. apply take_ge. rewrite length_drop. lia. }
    exists (reverse (group_of j items)). split; [done|]. split.
    { rewrite Hrest. apply reverse_Permutation. }
    intros j' Hj'. destruct (decide (j' = j)) as [->|Hne].
    + fold sj gj. rewrite Nat.sub_diag. cbn [drop]. apply take_ge.
      rewrite length_reverse. lia.
    + assert (j < j') as Hlt by lia.
      pose proof (group_start_le (S j) j' Hlt) as Hm.
      cbn [group_start] in Hm.
      rewrite drop_ge by (rewrite length_reverse; lia). rewrite take_nil.
      rewrite group_of_nat, drop_ge by lia. by rewrite take_nil.
  - (* a full group: the loop goes on *)
    assert (Hlen' : length (group_of j items) = gj) by lia.
    assert (Hs : Z.to_nat (group_start (S j)) = sj + gj).
    { cbn [group_start]. lia. }
    destruct (IH (S j) (rv ++ reverse (group_of j items))) as (out & Heq & Hperm & Hgrp).
    { cbn [group_start]. lia. }
    { lia. }
    exists (reverse (group_of j items) ++ out). split.
    { rewrite Heq. by rewrite <-(assoc_L (++)). }
    split.
    { rewrite Hperm, Hs, reverse_Permutation, Hg, <-drop_drop.
      by rewrite take_drop. }
    intros j' Hj'. destruct (decide (j' = j)) as [->|Hne].
    + fold sj gj. rewrite Nat.sub_diag. cbn [drop].
      apply take_app_length'. by rewrite length_reverse.
    + assert (j < j') as Hlt by lia.
      pose proof (group_start_le (S j) j' Hlt) as Hm.
      rewrite <-(Hgrp j') by lia. f_equal.
      rewrite drop_app_ge by (rewrite length_reverse; lia).
      f_equal. rewrite length_reverse. lia.
Qed.

Lemma make_groups_loop_mono {A} fuel fuel' (items : list (nat * A)) gen i rv out :
  fuel ≤ fuel' →
  make_groups_loop fuel items gen i rv = Some out →
  make_groups_loop fuel' items gen i rv = Some out.
Proof.
  revert fuel' gen i rv. induction fuel as [|fuel IH]; intros fuel' gen i rv Hle; [done|].
  destruct fuel' as [|fuel']; [lia|]. cbn [make_groups_loop].
  destruct (gen_next gen) as [size gen']. case_match; [done|].
  apply IH. lia.
Qed.

Lemma enumerate_length {A} (l : list A) : length (enumerate l) = length l.
Proof. apply length_imap. Qed.

Lemma make_groups_spec {A} (array : list A) :
  ∃ out, make_groups array = Some out
    ∧ out ≡ₚ enumerate array
    ∧ ∀ j, group_of j out = reverse (group_of j (enumerate array)).
Proof.
  destruct (make_groups_loop_spec (S (length array)) 0 (enumerate array) [])
    as (out & Heq & Hperm & Hgrp).
  { cbn. unfold py_len. lia. }
  { rewrite enumerate_length. cbn. lia. }
  exists out. split; [exact Heq|]. split; [exact Hperm|].
  intros j. rewrite <-(Hgrp j) by lia. rewrite group_of_nat.
  cbn [group_start]. by rewrite Nat.sub_0_r.
Qed.

(** ** Reasoning about programs *)

Section ProgramFacts.

Context {T : Type} `{EqDecision T}.
Implicit Types (x y item : T) (log : list (@query T)).

Lemma runs_ret_inv {A} (a : A) log o :
  runs (T:=T) (Ret a) log o → log = [] ∧ o = Ok a.
Proof. by inversion 1. Qed.

Lemma runs_raise_inv {A} e log (o : outcome A) :
  runs (T:=T) (Raise e) log o → log = [] ∧ o = Err e.
Proof. by inversion 1. Qed.

Lemma runs_await_inv {A} x y (k : bool → prog A) log o :
  runs (Await x y k) log o →
  ∃ r log', log = (x, y, r) :: log' ∧ runs (k r) log' o.
Proof. inversion 1; subst. eauto. Qed.

Lemma runs_bind_inv {A B} (m : prog (T:=T) A) (f : A → prog B) log o :
  runs (bind m f) log o →
  (∃ a l1 l2, runs m l1 (Ok a) ∧ runs (f a) l2 o ∧ log = l1 ++ l2)
  ∨ (∃ e, runs m log (Err e) ∧ o = Err e).
Proof.
  revert log. induction m as [a|e|x y k IH]; intros log Hr; cbn [bind] in Hr.
  - left. exists a, [], log. split; [constructor|done].
  - apply runs_raise_inv in Hr as [-> ->]. right. exists e. split; [constructor|done].
  - apply runs_await_inv in Hr as (r & log' & -> & Hr).
    destruct (IH r _ Hr) as [(a & l1 & l2 & H1 & H2 & ->)|(e & H1 & ->)].
    + left. exists a, ((x, y, r) :: l1), l2. split; [by constructor|done].
    + right. exists e. split; [by constructor|done].
Qed.

Lemma runs_bind {A B} (m : prog (T:=T) A) (f : A → prog B) a l1 l2 o :
  runs m l1 (Ok a) → runs (f a) l2 o → runs (bind m f) (l1 ++ l2) o.
Proof.
  revert l1. induction m as [a'|e|x y k IH]; intros l1 H1 H2; cbn [bind].
  - apply runs_ret_inv in H1 as [-> [= ->]]. done.
  - by apply runs_raise_inv in H1 as [_ ?].
  - apply runs_await_inv in H1 as (r & log' & -> & H1).
    cbn [app]. constructor. by apply IH.
Qed.

Lemma run_runs {A} comp (m : prog (T:=T) A) :
  runs m (run comp m).2 (run comp m).1.
Proof.
  induction m as [a|e|x y k IH]; cbn [run]; [constructor..|].
  specialize (IH (comp x y)). destruct (run comp (k (comp x y))) as [o log].
  by constructor.
Qed.

Lemma run_answers {A} (comp : T → T → bool) (m : prog (T:=T) A) :
  answers comp (run comp m).2.
Proof.
  induction m as [a|e|x y k IH]; cbn [run]; [constructor..|].
  specialize (IH (comp x y)). destruct (run comp (k (comp x y))) as [o log].
  by constructor.
Qed.

Lemma runs_answers_run {A} (comp : T → T → bool) (m : prog (T:=T) A) log o :
  runs m log o → answers comp log → run comp m = (o, log).
Proof.
  induction 1 as [a|e|x y k r log o _ IH]; intros Hans; [done..|].
  apply Forall_cons in Hans as [Hr Hans]. cbn in Hr. subst r.
  cbn [run]. by rewrite (IH Hans).
Qed.

Lemma runs_depth {A} (m : prog (T:=T) A) log o :
  runs m log o → length log ≤ depth m.
Proof.
  induction 1 as [a|e|x y k r log o _ IH]; cbn [depth length]; [lia..|].
  destruct r; lia.
Qed.

Lemma answers_app (comp : T → T → bool) l1 l2 :
  answers comp (l1 ++ l2) ↔ answers comp l1 ∧ answers comp l2.
Proof. apply Forall_app. Qed.

End ProgramFacts.

(** Inversion of a run of a sequence of statements. *)
Ltac runs_inv H :=
  first
    [ apply runs_ret_inv in H as [-> ->]
    | apply runs_ret_inv in H as [-> [= <-]]
    | apply runs_raise_inv in H as [-> ->] ].

(** ** Binary insertion search *)

Lemma log2_up_half (s s' : Z) :
  (0 <= s')%Z → (1 <= s)%Z → (2 * s' <= s)%Z →
  (Z.log2_up (s' + 1) + 1 <= Z.log2_up (s + 1))%Z.
Proof.
  intros Hs' Hs Hhalf.
  pose proof (Z.log2_up_spec (s + 1) ltac:(lia)) as [Hlo Hhi].
  pose proof (Z.log2_up_pos (s + 1) ltac:(lia)) as Hpos.
  set (k := Z.log2_up (s + 1)) in *.
  assert (Hk : (2 ^ k = 2 * 2 ^ (k - 1))%Z).
  { rewrite <-Z.pow_succ_r by lia. f_equal. lia. }
  assert (s' + 1 <= 2 ^ (k - 1))%Z as Hle by lia.
  apply Z.log2_up_le_pow2 in Hle; lia.
Qed.

Lemma py_index_nonneg {A} (l : list A) (i : Z) :
  (0 <= i)%Z → py_index l i = l !! Z.to_nat i.
Proof. intros Hi. unfold py_index. by destruct (Z.ltb_spec i 0); [lia|]. Qed.

Section BinarySearch.

Context {T : Type} `{EqDecision T}.
Implicit Types (x y item : T) (array : list T) (log : list (@query T)).

Lemma bin_search_loop_runs fuel array item left right log o :
  (0 <= left)%Z → (left <= right + 1)%Z → (right < py_len array)%Z →
  (right - left + 1 <= Z.of_nat fuel)%Z →
  runs (bin_search_loop fuel array item left right) log o →
  ∃ i, o = Ok i ∧ (left <= i <= right + 1)%Z
    ∧ (Z.of_nat (length log) <= Z.log2_up (right - left + 2))%Z
    ∧ Forall (λ q : query, q.1.1 = item ∧
                ∃ k, (left <= k <= right)%Z ∧ array !! Z.to_nat k = Some q.1.2) log
    ∧ (NoDup array → NoDup (map (λ q : query, q.1.2) log))
    ∧ (i = left ∨ ∃ x, array !! Z.to_nat (i - 1) = Some x ∧ (item, x, false) ∈ log)
    ∧ (i = (right + 1)%Z ∨ ∃ x, array !! Z.to_nat i = Some x ∧ (item, x, true) ∈ log).
Proof.
  revert left right log.
  induction fuel as [|fuel IH]; intros left right log Hl Hlr Hr Hfuel Hruns.
  - cbn [bin_search_loop] in Hruns.
    destruct (Z.leb_spec left right) as [?|Hgt]; [lia|].
    runs_inv Hruns. exists left. replace (right - left + 2)%Z with 1%Z by lia.
    split; [done|]. split; [lia|]. split; [done|]. split; [constructor|].
    split; [intros _; constructor|]. split; left; lia.
  - cbn [bin_search_loop] in Hruns.
    destruct (Z.leb_spec left right) as [Hle|Hgt].
    2:{ runs_inv Hruns. exists left. replace (right - left + 2)%Z with 1%Z by lia.
        split; [done|]. split; [lia|]. split; [done|]. split; [constructor|].
        split; [intros _; constructor|]. split; left; lia. }
    set (mid := (left + (right - left) / 2)%Z) in *.
    assert (left <= mid <= right)%Z as Hmid.
    { unfold mid. pose proof (Z.div_pos (right - left) 2 ltac:(lia) ltac:(lia)).
      pose proof (Z.mul_div_le (right - left) 2 ltac:(lia)). lia. }
    assert (2 * (mid - left) <= right - left + 1)%Z as Hleft.
    { unfold mid. pose proof (Z.mul_div_le (right - left) 2 ltac:(lia)). lia. }
    assert (2 * (right - mid) <= right - left + 1)%Z as Hright.
    { unfold mid. pose proof (Z.mul_succ_div_gt (right - left) 2 ltac:(lia)). lia. }
    rewrite py_index_nonneg in Hruns by lia.
    destruct (array !! Z.to_nat mid) as [x|] eqn:Hx.
    2:{ apply lookup_ge_None in Hx. unfold py_len in Hr. lia. }
    cbn [lift_opt bind] in Hruns.
    apply runs_await_inv in Hruns as (r & log' & -> & Hruns).
    destruct r.
    + apply IH in Hruns as (i & -> & Hi & Hcost & Hq & Hnd & Hlo & Hhi); [|lia..].
      exists i. split; [done|]. split; [lia|]. split.
      { cbn [length]. rewrite Nat2Z.inj_succ.
        pose proof (log2_up_half (right - left + 1) (mid - 1 - left + 1)
                      ltac:(lia) ltac:(lia) ltac:(lia)) as Hh.
        replace (mid - 1 - left + 2)%Z with (mid - 1 - left + 1 + 1)%Z in Hcost by lia.
        replace (right - left + 2)%Z with (right - left + 1 + 1)%Z by lia. lia. }
      split.
      { constructor; [split; [done|exists mid; split; [lia|done]]|].
        eapply Forall_impl; [exact Hq|]. intros q (? & k & ? & ?).
        split; [done|]. exists k. split; [lia|done]. }
      split.
      { intros Hnodup. cbn [map]. constructor; [|by apply Hnd].
        intros Hin. apply list_elem_of_fmap in Hin as (q & Hqx & Hin).
        rewrite Forall_forall in Hq. destruct (Hq q Hin) as (_ & k & Hk & Hlook).
        cbn in Hqx. rewrite <-Hqx in Hlook.
        pose proof (NoDup_lookup _ _ _ _ Hnodup Hx Hlook). lia. }
      split.
      { destruct Hlo as [->|(x' & ? & ?)]; [by left|].
        right. exists x'. split; [done|]. by apply list_elem_of_further. }
      { destruct Hhi as [->|(x' & ? & ?)].
        - right. exists x. replace (mid - 1 + 1)%Z with mid by lia.
          split; [done|]. apply list_elem_of_here.
        - right. exists x'. split; [done|]. by apply list_elem_of_further. }
    + apply IH in Hruns as (i & -> & Hi & Hcost & Hq & Hnd & Hlo & Hhi); [|lia..].
      exists i. split; [done|]. split; [lia|]. split.
      { cbn [length]. rewrite Nat2Z.inj_succ.
        pose proof (log2_up_half (right - left + 1) (right - (mid + 1) + 1)
                      ltac:(lia) ltac:(lia) ltac:(lia)) as Hh.
        replace (right - (mid + 1) + 2)%Z with (right - (mid + 1) + 1 + 1)%Z in Hcost by lia.
        replace (right - left + 2)%Z with (right - left + 1 + 1)%Z by lia. lia. }
      split.
      { constructor; [split; [done|exists mid; split; [lia|done]]|].
        eapply Forall_impl; [exact Hq|]. intros q (? & k & ? & ?).
        split; [done|]. exists k. split; [lia|done]. }
      split.
      { intros Hnodup. cbn [map]. constructor; [|by apply Hnd].
        intros Hin. apply list_elem_of_fmap in Hin as (q & Hqx & Hin).
        rewrite Forall_forall in Hq. destruct (Hq q Hin) as (_ & k & Hk & Hlook).
        cbn in Hqx. rewrite <-Hqx in Hlook.
        pose proof (NoDup_lookup _ _ _ _ Hnodup Hx Hlook). lia. }
      split.
      { destruct Hlo as [->|(x' & ? & ?)].
        - right. exists x. replace (mid + 1 - 1)%Z with mid by lia.
          split; [done|]. apply list_elem_of_here.
        - right. exists x'. split; [done|]. by apply list_elem_of_further. }
      { destruct Hhi as [->|(x' & ? & ?)]; [by left|].
        right. exists x'. split; [done|]. by apply list_elem_of_further. }
Qed.

End BinarySearch.

(** ** Orders *)

Section OrderFacts.

Context {T : Type} `{EqDecision T}.
Implicit Types (x y z item : T) (D array : list T) (log : list (@query T)).

Lemma consistent_subseteq comp D D' :
  D' ⊆ D → consistent comp D → consistent comp D'.
Proof.
  intros Hsub [Hasym Htrans]. split.
  - intros x y ???. apply Hasym; auto.
  - intros x y z ???. apply Htrans; auto.
Qed.

Lemma consistent_perm comp D D' :
  D ≡ₚ D' → consistent comp D → consistent comp D'.
Proof.
  intros Hp. apply consistent_subseteq. intros x. by rewrite Hp.
Qed.

Section Below.

Variables (comp : T → T → bool) (D : list T).
Hypothesis Hcons : consistent comp D.

Lemma below_trans x y z : below comp D x y → below comp D y z → below comp D x z.
Proof using Hcons.
  intros (Hx & Hy & Hxy & Hc1) (_ & Hz & Hyz & Hc2).
  assert (comp x z = true) as Hc by (by apply (consistent_trans _ _ Hcons x y z)).
  repeat split; [done..| |done].
  intros ->. rewrite (consistent_asym _ _ Hcons z y) in Hc1 by done.
  by rewrite Hc2 in Hc1.
Qed.

Lemma below_asym x y : below comp D x y → below comp D y x → False.
Proof using Hcons.
  intros (Hx & Hy & Hxy & Hc1) (_ & _ & _ & Hc2).
  rewrite (consistent_asym _ _ Hcons x y) in Hc1 by done.
  by rewrite Hc2 in Hc1.
Qed.

Lemma below_of_true x y :
  x ∈ D → y ∈ D → x ≠ y → comp x y = true → below comp D x y.
Proof. by intros; repeat split. Qed.

Lemma below_of_false x y :
  x ∈ D → y ∈ D → x ≠ y → comp x y = false → below comp D y x.
Proof using Hcons.
  intros Hx Hy Hxy Hc. repeat split; [done..| |].
  - by intros ->.
  - rewrite (consistent_asym _ _ Hcons y x) by done. by rewrite Hc.
Qed.

Lemma below_ascending array :
  StronglySorted (below comp D) array → ascending comp array.
Proof.
  unfold ascending. induction 1 as [|x l _ IH Hall]; constructor; [done|].
  eapply Forall_impl; [exact Hall|]. by intros y (_ & _ & ? & ?).
Qed.

Lemma ascending_below array :
  array ⊆ D → ascending comp array → StronglySorted (below comp D) array.
Proof.
  unfold ascending. intros Hsub Hs.
  induction Hs as [|x l _ IH Hall]; constructor.
  - apply IH. intros y Hy. apply Hsub. by right.
  - apply Forall_forall. intros y Hy. rewrite Forall_forall in Hall.
    destruct (Hall y Hy). repeat split; [apply Hsub; by left|apply Hsub; by right|done..].
Qed.

End Below.

Lemma StronglySorted_lookup {A} (R : relation A) (l : list A) i j u v :
  StronglySorted R l → l !! i = Some u → l !! j = Some v → i < j → R u v.
Proof.
  intros Hs Hi Hj Hij.
  rewrite <-(take_drop j l) in Hs.
  eapply StronglySorted_app_1_elem_of; [exact Hs| |].
  - apply list_elem_of_lookup. exists i. by rewrite lookup_take_lt.
  - apply list_elem_of_lookup. exists 0. by rewrite lookup_drop, Nat.add_0_r.
Qed.

Lemma StronglySorted_insert {A} (R : relation A) (l : list A) i a :
  StronglySorted R l →
  Forall (λ u, R u a) (take i l) → Forall (R a) (drop i l) →
  StronglySorted R (take i l ++ a :: drop i l).
Proof.
  intros Hs Hbefore Hafter.
  rewrite <-(take_drop i l) in Hs. apply StronglySorted_app in Hs as (Hx & Hl & Hr).
  apply StronglySorted_app. split; [|split; [done|by constructor]].
  intros u v Hu Hv. apply elem_of_cons in Hv as [->|Hv]; [|by apply Hx].
  rewrite Forall_forall in Hbefore. by apply Hbefore.
Qed.

Lemma StronglySorted_insert_inv {A} (R : relation A) (l : list A) i a :
  StronglySorted R (take i l ++ a :: drop i l) →
  Forall (λ u, R u a) (take i l) ∧ Forall (R a) (drop i l).
Proof.
  intros Hs. apply StronglySorted_app in Hs as (Hx & _ & Hr).
  apply StronglySorted_cons in Hr as [Hr _]. split; [|done].
  apply Forall_forall. intros u Hu. apply Hx; [done|]. by left.
Qed.

(** What the answers of a binary search say about where the item belongs. *)
Lemma insertion_point comp D array item log (i : nat) :
  consistent comp D → array ⊆ D → item ∈ D → item ∉ array →
  StronglySorted (below comp D) array →
  answers comp log →
  (i = 0 ∨ ∃ x, array !! (i - 1) = Some x ∧ (item, x, false) ∈ log) →
  (i = length array ∨ ∃ x, array !! i = Some x ∧ (item, x, true) ∈ log) →
  Forall (λ u, below comp D u item) (take i array)
  ∧ Forall (below comp D item) (drop i array).
Proof.
  intros Hcons Hsub HiD Hnotin Hs Hans Hlo Hhi.
  unfold answers in Hans. rewrite Forall_forall in Hans. split.
  - destruct Hlo as [->|(x & Hx & Hin)]; [by rewrite take_0|].
    destruct (decide (i = 0)) as [->|Hi0]; [by rewrite take_0|].
    apply Hans in Hin. cbn in Hin.
    assert (x ∈ array) as Hxin by (by eapply list_elem_of_lookup_2).
    assert (below comp D x item) as Hxi.
    { apply below_of_false; auto. by intros ->. }
    apply Forall_forall. intros u Hu.
    apply list_elem_of_lookup in Hu as (k & Hk).
    apply lookup_take_Some in Hk as [Hk Hki].
    destruct (decide (k = i - 1)) as [->|Hne]; [congruence|].
    eapply below_trans; [done| |exact Hxi].
    eapply (StronglySorted_lookup _ array k (i - 1)); [done..|lia].
  - destruct Hhi as [->|(x & Hx & Hin)]; [by rewrite drop_all|].
    apply Hans in Hin. cbn in Hin.
    assert (x ∈ array) as Hxin by (by eapply list_elem_of_lookup_2).
    assert (below comp D item x) as Hix.
    { apply below_of_true; auto. by intros ->. }
    apply Forall_forall. intros u Hu.
    apply list_elem_of_lookup in Hu as (k & Hk).
    rewrite lookup_drop in Hk.
    destruct (decide (k = 0)) as [->|Hne].
    { rewrite Nat.add_0_r in Hk. congruence. }
    eapply below_trans; [done|exact Hix|].
    eapply (StronglySorted_lookup _ array i (i + k)); [done..|lia].
Qed.

End OrderFacts.

Section BinaryInsert.

Context {T : Type} `{EqDecision T}.
Implicit Types (x y item : T) (array : list T) (log : list (@query T)).

Lemma bin_insert_index_runs array item log o :
  item ∉ array →
  runs (bin_insert_index array item) log o →
  ∃ i : nat, o = Ok (Z.of_nat i) ∧ i ≤ length array
    ∧ (Z.of_nat (length log) <= Z.log2_up (py_len array + 1))%Z
    ∧ (length array = 1 → length log = 1)
    ∧ Forall (λ q : query, q.1.1 = item ∧ q.1.2 ∈ array) log
    ∧ (NoDup array → NoDup (map (λ q : query, q.1.2) log))
    ∧ (i = 0 ∨ ∃ x, array !! (i - 1) = Some x ∧ (item, x, false) ∈ log)
    ∧ (i = length array ∨ ∃ x, array !! i = Some x ∧ (item, x, true) ∈ log).
Proof.
  intros Hnotin Hruns. unfold bin_insert_index in Hruns.
  destruct array as [|x0 array'] eqn:Harr.
  { runs_inv Hruns. exists 0. cbn. split; [done|]. split; [lia|]. split; [done|].
    split; [done|]. split; [constructor|]. split; [intros _; constructor|].
    split; by left. }
  rewrite <-Harr in *. clear Harr.
  destruct (decide (item ∈ array)) as [?|_]; [done|].
  destruct (Z.eqb_spec (py_len array) 1) as [Hone|Hmore].
  - destruct array as [|x [|??]]; unfold py_len in Hone; cbn in Hone; try lia.
    cbn in Hruns. apply runs_await_inv in Hruns as (r & log' & -> & Hruns).
    runs_inv Hruns. destruct r.
    + exists 0. cbn. split; [done|]. split; [lia|]. split; [done|]. split; [done|].
      split; [repeat constructor|]. split; [intros _; apply NoDup_singleton|].
      split; [by left|]. right. exists x. split; [done|]. by left.
    + exists 1. cbn. split; [done|]. split; [lia|]. split; [done|]. split; [done|].
      split; [repeat constructor|]. split; [intros _; apply NoDup_singleton|].
      split; [|by left]. right. exists x. split; [done|]. by left.
  - unfold py_len in *.
    apply bin_search_loop_runs in Hruns
      as (i & -> & Hi & Hcost & Hq & Hnd & Hlo & Hhi); unfold py_len; try lia.
    exists (Z.to_nat i). rewrite Z2Nat.id by lia.
    split; [done|]. split; [lia|]. split.
    { replace (Z.of_nat (length array) - 1 - 0 + 2)%Z
        with (Z.of_nat (length array) + 1)%Z in Hcost by lia. done. }
    split; [intros ?; lia|]. split.
    { eapply Forall_impl; [exact Hq|]. intros q (? & k & _ & Hk).
      split; [done|]. by eapply list_elem_of_lookup_2. }
    split; [done|]. split.
    + destruct Hlo as [->|(x & Hx & ?)]; [by left|]. right. exists x.
      split; [|done]. rewrite <-Hx. f_equal. lia.
    + destruct Hhi as [->|(x & Hx & ?)]; [left; lia|]. right. by exists x.
Qed.

End BinaryInsert.

Section BinaryInsertClaims.

Context {T : Type} `{EqDecision T}.
Implicit Types (x y item : T) (array : list T) (log : list (@query T)).

Lemma py_insert_nat {A} (l : list A) (i : nat) (a : A) :
  i ≤ length l → py_insert l (Z.of_nat i) a = take i l ++ a :: drop i l.
Proof.
  intros Hi. unfold py_insert, py_norm, py_len.
  destruct (Z.ltb_spec (Z.of_nat i) 0); [lia|].
  by rewrite Z.min_l, Nat2Z.id by lia.
Qed.

Lemma bin_insert_index_sorted comp D array item log o :
  consistent comp D → array ⊆ D → item ∈ D → item ∉ array →
  StronglySorted (below comp D) array →
  runs (bin_insert_index array item) log o → answers comp log →
  ∃ i : nat, o = Ok (Z.of_nat i) ∧ i ≤ length array
    ∧ Forall (λ u, below comp D u item) (take i array)
    ∧ Forall (below comp D item) (drop i array).
Proof.
  intros Hcons Hsub HiD Hnotin Hs Hruns Hans.
  apply bin_insert_index_runs in Hruns
    as (i & -> & Hi & _ & _ & _ & _ & Hlo & Hhi); [|done].
  exists i. split; [done|]. split; [done|].
  by eapply insertion_point.
Qed.

End BinaryInsertClaims.

(** ** Duplicate detection *)

Section Dups.

Context {T : Type} `{EqDecision T}.

Lemma remove_dups_length_le (l : list T) : length (remove_dups l) ≤ length l.
Proof.
  induction l as [|x l IH]; [done|]. cbn. case_decide; cbn; lia.
Qed.

Lemma remove_dups_length_NoDup (l : list T) :
  length (remove_dups l) = length l ↔ NoDup l.
Proof.
  induction l as [|x l IH]; [by split; [constructor|]|].
  cbn. pose proof (remove_dups_length_le l). case_decide as Hin; cbn.
  - split; [lia|]. intros Hnd. by apply NoDup_cons in Hnd as [? _].
  - rewrite NoDup_cons. split.
    + intros Hlen. split; [done|]. apply IH. lia.
    + intros [_ Hnd]. apply IH in Hnd. lia.
Qed.

End Dups.

(** ** The dictionary and the pairing loop *)

Section Pairing.

Context {T : Type} `{EqDecision T}.
Implicit Types (x y k v : T) (array : list T) (log : list (@query T))
  (d pairs : list (T * T)).

Lemma dict_set_fresh d k v : k ∉ dict_keys d → dict_set d k v = d ++ [(k, v)].
Proof.
  unfold dict_keys. induction d as [|[k' v'] d IH]; intros Hk; [done|].
  cbn in *. apply not_elem_of_cons in Hk as [Hne Hk].
  destruct (decide (k' = k)) as [->|_]; [done|]. by rewrite IH.
Qed.

Lemma dict_get_Some d k v :
  NoDup (dict_keys d) → (k, v) ∈ d → dict_get d k = Some v.
Proof.
  unfold dict_keys. induction d as [|[k' v'] d IH]; intros Hnd Hin.
  { by apply elem_of_nil in Hin. }
  cbn in *. apply NoDup_cons in Hnd as [Hk' Hnd].
  apply elem_of_cons in Hin as [[= -> ->]|Hin].
  - by destruct (decide (k' = k')).
  - destruct (decide (k' = k)) as [->|_]; [|by apply IH].
    exfalso. apply Hk'. apply list_elem_of_fmap. by exists (k, v).
Qed.

Lemma dict_get_elem_of d k v : dict_get d k = Some v → (k, v) ∈ d.
Proof.
  induction d as [|[k' v'] d IH]; [done|]. cbn.
  destruct (decide (k' = k)) as [->|_].
  - intros [= ->]. by left.
  - intros Hg. right. by apply IH.
Qed.

Lemma pair_up_loop_runs n j array pairs log o :
  NoDup array → 2 * (j + n) ≤ length array →
  (∀ k, k ∈ dict_keys pairs → k ∈ take (2 * j) array) →
  runs (pair_up_loop (map (λ k : nat, (0 + Z.of_nat k * 2)%Z) (seq j n)) array pairs)
       log o →
  ∃ new, o = Ok (pairs ++ new) ∧ paired new log
    ∧ submitted log = take (2 * n) (drop (2 * j) array).
Proof.
  intros Hnd. revert j pairs log.
  induction n as [|n IH]; intros j pairs log Hlen Hkeys Hruns.
  { cbn in Hruns. runs_inv Hruns. exists []. rewrite app_nil_r.
    split; [done|]. split; [constructor|done]. }
  cbn [seq map pair_up_loop] in Hruns.
  rewrite !py_index_nonneg in Hruns by lia.
  replace (Z.to_nat (0 + Z.of_nat j * 2)) with (2 * j) in Hruns by lia.
  replace (Z.to_nat (0 + Z.of_nat j * 2 + 1)) with (S (2 * j)) in Hruns by lia.
  destruct (lookup_lt_is_Some_2 array (2 * j)) as [a Ha]; [lia|].
  destruct (lookup_lt_is_Some_2 array (S (2 * j))) as [b Hb]; [lia|].
  rewrite Ha, Hb in Hruns. cbn [lift_opt bind] in Hruns.
  apply runs_await_inv in Hruns as (r & log' & -> & Hruns).
  assert (Hdrop : drop (2 * j) array = a :: b :: drop (2 * S j) array).
  { rewrite (drop_S _ a) by done. rewrite (drop_S _ b) by done.
    do 3 f_equal. lia. }
  assert (Hfresh : ∀ x i, array !! i = Some x → 2 * j ≤ i → x ∉ dict_keys pairs).
  { intros x i Hx Hi Hin. apply Hkeys in Hin.
    apply list_elem_of_lookup in Hin as (i' & Hi').
    apply lookup_take_Some in Hi' as [Hi' ?].
    pose proof (NoDup_lookup _ _ _ _ Hnd Hx Hi'). lia. }
  assert (Htake : ∀ x, x ∈ [a; b] → x ∈ take (2 * S j) array).
  { intros x Hx. apply list_elem_of_lookup.
    apply elem_of_cons in Hx as [->|Hx]; [|apply list_elem_of_singleton in Hx as ->].
    - exists (2 * j). rewrite lookup_take_lt by lia. done.
    - exists (S (2 * j)). rewrite lookup_take_lt by lia. done. }
  assert (Hkeys' : ∀ k v, (k = a ∨ k = b) →
            ∀ k', k' ∈ dict_keys (pairs ++ [(k, v)]) → k' ∈ take (2 * S j) array).
  { intros k v Hk k'. unfold dict_keys. rewrite map_app, elem_of_app.
    intros [Hin|Hin].
    - apply Hkeys in Hin. apply list_elem_of_lookup in Hin as (i & Hi).
      apply lookup_take_Some in Hi as [Hi ?].
      apply list_elem_of_lookup. exists i. rewrite lookup_take_lt by lia. done.
    - cbn in Hin. apply list_elem_of_singleton in Hin as ->.
      apply Htake. destruct Hk as [->| ->]; [by left|by right; left]. }
  destruct r.
  - rewrite dict_set_fresh in Hruns by (by eapply Hfresh; [exact Hb|lia]).
    replace (seq (S j) n) with (seq (S j) n) in Hruns by done.
    apply (IH (S j)) in Hruns as (new & -> & Hpaired & Hsub); [|lia|by apply Hkeys'; right].
    exists ((b, a) :: new). split; [by rewrite <-(assoc_L (++))|].
    split; [constructor; [by left|done]|].
    cbn [submitted flat_map fst snd app]. fold (submitted log'). rewrite Hsub, Hdrop.
    replace (2 * S n) with (S (S (2 * n))) by lia. done.
  - rewrite dict_set_fresh in Hruns by (by eapply Hfresh; [exact Ha|lia]).
    apply (IH (S j)) in Hruns as (new & -> & Hpaired & Hsub); [|lia|by apply Hkeys'; left].
    exists ((a, b) :: new). split; [by rewrite <-(assoc_L (++))|].
    split; [constructor; [by right|done]|].
    cbn [submitted flat_map fst snd app]. fold (submitted log'). rewrite Hsub, Hdrop.
    replace (2 * S n) with (S (S (2 * n))) by lia. done.
Qed.

Lemma pair_up_runs array log o :
  NoDup array →
  runs (pair_up array) log o →
  ∃ pairs, o = Ok pairs ∧ paired pairs log
    ∧ submitted log = take (2 * (length array / 2)) array.
Proof.
  intros Hnd Hruns. unfold pair_up, py_range, py_len in Hruns.
  replace (Z.to_nat ((Z.of_nat (length array) - 1 - 0 + 2 - 1) / 2))
    with (length array / 2) in Hruns.
  2:{ replace (Z.of_nat (length array) - 1 - 0 + 2 - 1)%Z
        with (Z.of_nat (length array)) by lia.
      change 2%Z with (Z.of_nat 2). rewrite <-Nat2Z.inj_div. lia. }
  apply (pair_up_loop_runs _ 0) in Hruns as (new & -> & Hp & Hs); [|done| |].
  - exists new. split; [done|]. split; [done|]. by rewrite Hs.
  - pose proof (Nat.Div0.mul_div_le (length array) 2). lia.
  - intros k Hk. by apply elem_of_nil in Hk.
Qed.

End Pairing.

(** ** Arithmetic of the comparison bound *)

(** Linear arithmetic with division and remainder by constants. *)
Ltac zlia := Z.to_euclidean_division_equations; lia.

(** Powers of two with a sum in the exponent, split into products. *)
Ltac pow2_split :=
  rewrite ?Z.pow_add_r in * by lia;
  change (2 ^ 1)%Z with 2%Z in *; change (2 ^ 2)%Z with 4%Z in *.

Lemma pow2_mod3 (m : Z) :
  (0 <= m)%Z →
  (m mod 2 = 0 ∧ 2 ^ m mod 3 = 1)%Z ∨ (m mod 2 = 1 ∧ 2 ^ m mod 3 = 2)%Z.
Proof.
  revert m. apply natlike_ind.
  - left. split; reflexivity.
  - intros m Hm IH. rewrite Z.pow_succ_r by done.
    set (P := (2 ^ m)%Z) in *. clearbody P.
    destruct IH as [[Hp Hq]|[Hp Hq]]; [right|left]; split; zlia.
Qed.

Lemma pow2_succ (m : Z) : (0 <= m)%Z → (2 ^ (m + 1) = 2 * 2 ^ m)%Z.
Proof. intros. by rewrite <-Z.pow_succ_r. Qed.

(** Closed forms of the group sizes and group starts. *)
Lemma group_closed_form (j : nat) :
  ∃ e : Z, ((e = 1 ∧ Z.of_nat j mod 2 = 0) ∨ (e = -1 ∧ Z.of_nat j mod 2 = 1))%Z
    ∧ (3 * A014113 j = 2 ^ (Z.of_nat j + 1) - 2 * e)%Z
    ∧ (3 * group_start j = 2 ^ (Z.of_nat j + 2) - 3 - e)%Z.
Proof.
  induction j as [|j (e & Hpar & Ha & Hs)].
  - exists 1%Z. split; [by left|]. split; reflexivity.
  - exists (- e)%Z. split; [zlia|].
    cbn [group_start]. change (A014113 (S j)) with (2 ^ Z.of_nat (S j) - A014113 j)%Z.
    rewrite !Nat2Z.inj_succ.
    replace (Z.succ (Z.of_nat j) + 1)%Z with (Z.of_nat j + 1 + 1)%Z by lia.
    replace (Z.succ (Z.of_nat j) + 2)%Z with (Z.of_nat j + 1 + 1 + 1)%Z by lia.
    replace (Z.of_nat j + 2)%Z with (Z.of_nat j + 1 + 1)%Z in Hs by lia.
    replace (Z.succ (Z.of_nat j)) with (Z.of_nat j + 1)%Z by lia.
    rewrite !(pow2_succ (Z.of_nat j + 1 + 1)), !(pow2_succ (Z.of_nat j + 1)) in * by lia.
    lia.
Qed.

Lemma group_start_sum (j : nat) :
  (group_start j + group_start (S j) + 2 = 2 ^ (Z.of_nat j + 2))%Z.
Proof.
  destruct (group_closed_form j) as (e & He & _ & Hs).
  destruct (group_closed_form (S j)) as (e' & He' & Ha & _).
  cbn [group_start].
  replace (Z.of_nat (S j) + 1)%Z with (Z.of_nat j + 2)%Z in Ha by lia.
  rewrite Nat2Z.inj_succ in He'.
  set (P := (2 ^ (Z.of_nat j + 2))%Z) in *. clearbody P. zlia.
Qed.

Lemma group_exists (i : nat) :
  ∃ j, (group_start j <= Z.of_nat i < group_start (S j))%Z.
Proof.
  induction i as [|i (j & Hlo & Hhi)].
  - exists 0. cbn. lia.
  - destruct (decide (Z.of_nat (S i) < group_start (S j))%Z).
    + exists j. lia.
    + exists (S j). pose proof (group_start_mono (S j)). lia.
Qed.

Lemma step_cost_spec (n : Z) :
  (1 <= n)%Z →
  (0 <= step_cost n)%Z
  ∧ (2 ^ (step_cost n + 1) < 3 * n < 2 ^ (step_cost n + 2))%Z.
Proof.
  intros Hn. unfold step_cost, ceil_log2_ratio.
  set (a := ((3 * n + 4 - 1) / 4)%Z).
  destruct (decide (n = 1%Z)) as [->|Hne].
  { subst a. change (Z.log2_up ((3 * 1 + 4 - 1) / 4)) with 0%Z.
    change (2 ^ (0 + 1))%Z with 2%Z. change (2 ^ (0 + 2))%Z with 4%Z. lia. }
  assert (1 < a)%Z as Ha by (subst a; zlia).
  pose proof (Z.log2_up_spec a Ha) as [Hlo Hhi].
  pose proof (Z.log2_up_pos a Ha) as Hpos.
  set (k := Z.log2_up a) in *. split; [lia|].
  replace (k + 1)%Z with (Z.pred k + 1 + 1)%Z by lia.
  replace (k + 2)%Z with (Z.pred k + 1 + 1 + 1)%Z by lia.
  replace k with (Z.pred k + 1)%Z in Hhi by lia.
  rewrite !pow2_succ in * by lia.
  destruct (pow2_mod3 (Z.pred k) ltac:(lia)) as [[_ Hm]|[_ Hm]]; subst a;
    set (P := (2 ^ Z.pred k)%Z) in *; clearbody P; zlia.
Qed.

Lemma step_cost_unique (n k : Z) :
  (0 <= k)%Z → (2 ^ (k + 1) < 3 * n <= 2 ^ (k + 2))%Z → step_cost n = k.
Proof.
  intros Hk [Hlo Hhi].
  assert (1 <= n)%Z as Hn.
  { pose proof (Z.pow_pos_nonneg 2 (k + 1) ltac:(lia) ltac:(lia)). lia. }
  destruct (step_cost_spec n Hn) as (Hc & Hclo & Hchi).
  set (c := step_cost n) in *.
  destruct (Z.lt_trichotomy c k) as [Hlt|[?|Hgt]]; [|done|].
  - pose proof (Z.pow_le_mono_r 2 (c + 2) (k + 1) ltac:(lia) ltac:(lia)). lia.
  - pose proof (Z.pow_le_mono_r 2 (k + 2) (c + 1) ltac:(lia) ltac:(lia)). lia.
Qed.

Lemma step_cost_double (h : Z) :
  (1 <= h)%Z → step_cost (2 * h) = (1 + step_cost h)%Z.
Proof.
  intros Hh. destruct (step_cost_spec h Hh) as (Hc & Hlo & Hhi).
  apply step_cost_unique; [lia|].
  set (k := step_cost h) in *. clearbody k.
  replace (1 + k + 1)%Z with (k + 1 + 1)%Z by lia.
  replace (1 + k + 2)%Z with (k + 2 + 1)%Z by lia.
  pow2_split. lia.
Qed.

(** The cost of an insertion made at queue position [i] of group [j]. *)
Lemma step_cost_group (i j : nat) :
  (group_start j <= Z.of_nat i < group_start (S j))%Z →
  step_cost (2 * Z.of_nat i + 3) = (Z.of_nat j + 2)%Z.
Proof.
  intros [Hlo Hhi].
  destruct (group_closed_form j) as (e & He & _ & Hs).
  destruct (group_closed_form (S j)) as (e' & He' & _ & Hs').
  apply step_cost_unique; [lia|].
  rewrite Nat2Z.inj_succ in *.
  replace (Z.succ (Z.of_nat j) + 2)%Z with (Z.of_nat j + 2 + 1)%Z in Hs' by lia.
  pow2_split. set (P := (2 ^ Z.of_nat j)%Z) in *. clearbody P. zlia.
Qed.

Lemma queue_position_cost (i q : nat) j :
  (group_start j <= Z.of_nat i < group_start (S j))%Z →
  (Z.of_nat q + Z.of_nat i + 1 <= group_start j + group_start (S j))%Z →
  (Z.log2_up (Z.of_nat q + Z.of_nat i + 3) <= step_cost (2 * Z.of_nat i + 3))%Z.
Proof.
  intros Hi Hq. rewrite (step_cost_group i j Hi).
  pose proof (group_start_sum j) as Hsum.
  rewrite <-(Z.log2_up_pow2 (Z.of_nat j + 2)) by lia.
  apply Z.log2_up_le_mono. lia.
Qed.

Lemma sum_cost_nonneg n : (0 <= sum_cost n)%Z.
Proof.
  induction n as [|n IH]; [done|]. cbn [sum_cost].
  pose proof (step_cost_spec (Z.of_nat (S n)) ltac:(lia)). lia.
Qed.

Lemma sum_cost_S m : sum_cost (S m) = (sum_cost m + step_cost (Z.of_nat (S m)))%Z.
Proof. reflexivity. Qed.

Lemma queue_bound_S p :
  queue_bound (S p) = (queue_bound p + step_cost (2 * Z.of_nat p + 3))%Z.
Proof. reflexivity. Qed.

Lemma sum_cost_halves (h : nat) :
  1 ≤ h →
  (sum_cost (2 * h) = Z.of_nat h + sum_cost h + queue_bound (h - 1))%Z
  ∧ (sum_cost (2 * h + 1) = Z.of_nat h + sum_cost h + queue_bound h)%Z.
Proof.
  induction 1 as [|h Hh [IHe IHo]].
  - split; reflexivity.
  - assert (Heven : (sum_cost (2 * S h)
                     = Z.of_nat (S h) + sum_cost (S h) + queue_bound (S h - 1))%Z).
    { replace (2 * S h) with (S (2 * h + 1)) by lia.
      rewrite (sum_cost_S (2 * h + 1)), IHo, (sum_cost_S h).
      replace (S h - 1) with h by lia.
      replace (Z.of_nat (S (2 * h + 1))) with (2 * Z.of_nat (S h))%Z by lia.
      rewrite step_cost_double by lia. lia. }
    split; [exact Heven|].
    replace (2 * S h + 1) with (S (2 * S h)) by lia.
    rewrite (sum_cost_S (2 * S h)), Heven, (queue_bound_S h).
    replace (S h - 1) with h by lia.
    replace (Z.of_nat (S (2 * S h))) with (2 * Z.of_nat h + 3)%Z by lia. lia.
Qed.

(** The recurrence of the worst case: pairing, recursion, insertions. *)
Lemma sum_cost_recurrence (n : nat) :
  2 ≤ n →
  (sum_cost n
   = Z.of_nat (n / 2) + sum_cost (n / 2) + queue_bound ((n + 1) / 2 - 1))%Z.
Proof.
  intros Hn. destruct (Nat.Even_or_Odd n) as [[h ->]|[h ->]].
  - replace (2 * h / 2) with h by (apply (Nat.div_unique _ 2 h 0); lia).
    replace ((2 * h + 1) / 2) with h by (apply (Nat.div_unique _ 2 h 1); lia).
    apply sum_cost_halves. lia.
  - replace ((2 * h + 1) / 2) with h by (apply (Nat.div_unique _ 2 h 1); lia).
    replace ((2 * h + 1 + 1) / 2) with (S h)
      by (apply (Nat.div_unique _ 2 (S h) 0); lia).
    replace (S h - 1) with h by lia.
    apply sum_cost_halves. lia.
Qed.

(** The closed form of [merge_insertion_max_comparisons] is the sum. *)
Lemma max_comparisons_closed_form (n : Z) :
  (1 <= n)%Z →
  merge_insertion_max_comparisons n
  = Ok (n * step_cost n - 2 ^ (step_cost n + 2) / 3 + (step_cost n + 2) / 2)%Z.
Proof.
  intros Hn. unfold merge_insertion_max_comparisons.
  destruct (Z.ltb_spec n 0); [lia|]. destruct (Z.eqb_spec n 0); [lia|].
  destruct (step_cost_spec n Hn) as (Hc & Hlo & Hhi).
  assert (Z.log2 (6 * n) = step_cost n + 2)%Z as ->; [|done].
  apply Z.log2_unique; [lia|].
  replace (Z.succ (step_cost n + 2)) with (step_cost n + 2 + 1)%Z by lia.
  set (k := step_cost n) in *. clearbody k. pow2_split. lia.
Qed.

Lemma closed_form_succ (m : Z) :
  (1 <= m)%Z →
  ((m + 1) * step_cost (m + 1) - 2 ^ (step_cost (m + 1) + 2) / 3
     + (step_cost (m + 1) + 2) / 2
   = m * step_cost m - 2 ^ (step_cost m + 2) / 3 + (step_cost m + 2) / 2
     + step_cost (m + 1))%Z.
Proof.
  intros Hm.
  destruct (step_cost_spec m ltac:(lia)) as (Hc & Hlo & Hhi).
  destruct (step_cost_spec (m + 1) ltac:(lia)) as (Hc' & Hlo' & Hhi').
  set (k := step_cost m) in *. set (k' := step_cost (m + 1)) in *.
  clearbody k k'.
  destruct (decide (3 * (m + 1) < 2 ^ (k + 2))%Z) as [Hsame|Hcross].
  - assert (k' = k) as ->.
    { destruct (Z.lt_trichotomy k' k) as [Hlt|[?|Hgt]]; [|done|].
      - pose proof (Z.pow_le_mono_r 2 (k' + 2) (k + 1) ltac:(lia) ltac:(lia)). lia.
      - pose proof (Z.pow_le_mono_r 2 (k + 2) (k' + 1) ltac:(lia) ltac:(lia)). lia. }
    lia.
  - assert (k' = k + 1)%Z as ->.
    { destruct (Z.lt_trichotomy k' (k + 1)) as [Hlt|[?|Hgt]]; [|done|].
      - pose proof (Z.pow_le_mono_r 2 (k' + 2) (k + 2) ltac:(lia) ltac:(lia)). lia.
      - pose proof (Z.pow_le_mono_r 2 (k + 1 + 2) (k' + 1) ltac:(lia) ltac:(lia)) as Hp.
        replace (k + 1 + 2)%Z with (k + 2 + 1)%Z in Hp by lia.
        rewrite (Z.pow_add_r 2 (k + 2) 1) in Hp by lia. lia. }
    clear Hlo' Hhi'.
    replace (k + 1 + 2)%Z with (k + 2 + 1)%Z by lia.
    rewrite (Z.pow_add_r 2 (k + 2) 1) by lia. change (2 ^ 1)%Z with 2%Z.
    destruct (pow2_mod3 (k + 2) ltac:(lia)) as [[Hp Hq]|[Hp Hq]];
      set (P := (2 ^ (k + 2))%Z) in *; clearbody P;
      Z.to_euclidean_division_equations; nia.
Qed.

Lemma max_comparisons_sum (n : nat) :
  merge_insertion_max_comparisons (Z.of_nat n) = Ok (sum_cost n).
Proof.
  destruct n as [|n]; [done|].
  rewrite max_comparisons_closed_form by lia. f_equal.
  induction n as [|n IH]; [done|].
  rewrite (sum_cost_S (S n)), <-IH.
  replace (Z.of_nat (S (S n))) with (Z.of_nat (S n) + 1)%Z by lia.
  apply closed_form_succ. lia.
Qed.

(** ** Queue positions of [_make_groups] *)

Lemma enumerate_lookup {A} (l : list A) i q x :
  enumerate l !! i = Some (q, x) ↔ q = i ∧ l !! i = Some x.
Proof.
  unfold enumerate. rewrite list_lookup_imap.
  destruct (l !! i) as [y|]; cbn.
  - split; [by intros [= <- <-]|by intros [-> [= ->]]].
  - split; [done|by intros [_ ?]].
Qed.

Lemma make_groups_lookup {A} (array : list A) out i q x :
  make_groups array = Some out →
  out !! i = Some (q, x) →
  array !! q = Some x
  ∧ ∃ j, (group_start j <= Z.of_nat i < group_start (S j))%Z
      ∧ (Z.of_nat q + Z.of_nat i + 1 <= group_start j + group_start (S j))%Z.
Proof.
  intros Hout Hi. destruct (make_groups_spec array) as (out' & Hout' & _ & Hgrp).
  rewrite Hout in Hout'. injection Hout' as <-.
  destruct (group_exists i) as (j & Hlo & Hhi).
  specialize (Hgrp j). rewrite !group_of_nat in Hgrp.
  pose proof (group_start_nonneg j) as Hnn. pose proof (A014113_pos j) as Hpos.
  cbn [group_start] in Hhi.
  remember (Z.to_nat (group_start j)) as s eqn:Hs.
  remember (Z.to_nat (A014113 (S j))) as g eqn:Hg'.
  set (G := take g (drop s (enumerate array))) in *.
  assert (s ≤ i < s + g) as Hrange by lia.
  assert (Hl : (take g (drop s out)) !! (i - s) = Some (q, x)).
  { rewrite lookup_take_lt by lia. rewrite lookup_drop. rewrite <-Hi. f_equal. lia. }
  rewrite Hgrp in Hl.
  assert (i - s < length G) as HlenG.
  { apply lookup_lt_Some in Hl. by rewrite length_reverse in Hl. }
  rewrite reverse_lookup in Hl by done.
  assert (length G ≤ g) as Hg by (subst G; rewrite length_take; lia).
  unfold G in Hl. apply lookup_take_Some in Hl as [Hl _].
  rewrite lookup_drop in Hl. apply enumerate_lookup in Hl as [-> Hx].
  split; [done|]. exists j. cbn [group_start]. split; [lia|]. unfold G in *. lia.
Qed.

(** ** The main chain *)

Section MainChain.

Context {T : Type} `{EqDecision T}.
Implicit Types (x y item : T) (P Y : list T) (log : list (@query T))
  (h : list (list T)) (c : list nat) (st : @main_chain T).

Lemma firsts_heads h c P :
  Forall2 (λ r x, slot_head h r = Some x) c P → firsts h c = Ret P.
Proof.
  induction 1 as [|r x c P Hr _ IH]; [done|].
  cbn [firsts]. unfold slot_head in Hr.
  destruct (h !! r) as [slot|]; [|done]. cbn in Hr.
  cbn [lift_opt bind]. rewrite py_index_nonneg by lia.
  change (Z.to_nat 0) with 0. rewrite Hr. cbn [lift_opt bind]. rewrite IH. done.
Qed.

Lemma slot_head_app_l h h' r :
  r < length h → slot_head (h ++ h') r = slot_head h r.
Proof. intros Hr. unfold slot_head. by rewrite lookup_app_l. Qed.

Lemma ident_find_lookup c r i :
  NoDup c → c !! i = Some r → ident_find c r = Ret (T:=T) i.
Proof.
  intros Hnd Hi. unfold ident_find.
  destruct (list_find (λ e, e = r) c) as [[i' r']|] eqn:Hf.
  - apply list_find_Some in Hf as (Hi' & -> & _).
    by rewrite (NoDup_lookup _ _ _ _ Hnd Hi Hi').
  - apply list_find_None in Hf. rewrite Forall_forall in Hf.
    exfalso. eapply Hf; [|done]. by eapply list_elem_of_lookup_2.
Qed.

End MainChain.

(** ** One insertion into the main chain *)

Section InsertStep.

Context {T : Type} `{EqDecision T}.
Implicit Types (x y item : T) (P Y : list T) (log : list (@query T))
  (h : list (list T)) (c : list nat) (st : @main_chain T)
  (queue : list (nat * nat)).

Variables (pairs : list (T * T)) (leftover : option T) (items : list T).

Lemma Forall2_impl_strong {A B} (R Q : A → B → Prop) (l : list A) (k : list B) :
  Forall2 R l k → (∀ a b, a ∈ l → b ∈ k → R a b → Q a b) → Forall2 Q l k.
Proof.
  induction 1 as [|a b l k Hab _ IH]; intros Himp; constructor.
  - apply Himp; [by left..|done].
  - apply IH. intros a' b' Ha' Hb'. apply Himp; by right.
Qed.

Lemma elem_of_take_1 {A} (l : list A) n a : a ∈ take n l → a ∈ l.
Proof. intros Hin. rewrite <-(take_drop n l). apply elem_of_app. by left. Qed.

Lemma elem_of_drop_1 {A} (l : list A) n a : a ∈ drop n l → a ∈ l.
Proof. intros Hin. rewrite <-(take_drop n l). apply elem_of_app. by right. Qed.

Lemma insert_middle_perm {A} (l : list A) i a :
  take i l ++ a :: drop i l ≡ₚ a :: l.
Proof. by rewrite <-Permutation_middle, take_drop. Qed.

Lemma lookup_insert_middle {A} (l : list A) i j a b :
  i ≤ length l → l !! j = Some b →
  (take i l ++ a :: drop i l) !! (if decide (j < i) then j else S j) = Some b.
Proof.
  intros Hi Hj. case_decide as Hji.
  - rewrite lookup_app_l by (rewrite length_take; lia).
    by rewrite lookup_take_lt.
  - rewrite lookup_app_r by (rewrite length_take; lia).
    rewrite length_take, Nat.min_l by lia.
    replace (S j - i) with (S (j - i)) by lia.
    change ((a :: drop i l) !! S (j - i)) with (drop i l !! (j - i)).
    rewrite lookup_drop. rewrite <-Hj. f_equal. lia.
Qed.

Lemma chain_heads_bound st P r :
  Forall2 (λ r x, slot_head (heap st) r = Some x) (chain st) P →
  r ∈ chain st → r < length (heap st).
Proof.
  intros Hh Hr. apply list_elem_of_lookup in Hr as (i & Hi).
  destruct (Forall2_lookup_l _ _ _ _ _ Hh Hi) as (x & _ & Hx).
  unfold slot_head in Hx. destruct (heap st !! r) eqn:Hl; [|done].
  by apply lookup_lt_Some in Hl.
Qed.

(** The invariant after the slot [[y]] is spliced into the chain at [idx]. *)
Lemma chain_inv_insert st h1 P Y q r y queue k idx :
  chain_inv pairs leftover items st P (y :: Y) ((q, r) :: queue) k →
  length h1 = length (heap st) →
  (∀ r', r' ≠ r → h1 !! r' = heap st !! r') →
  (r ∈ chain st → ∃ x, h1 !! r = Some [x] ∧ slot_head (heap st) r = Some x) →
  idx ≤ length P →
  chain_inv pairs leftover items
    (MainChain (h1 ++ [[y]])
               (take idx (chain st) ++ length (heap st) :: drop idx (chain st)))
    (take idx P ++ y :: drop idx P) Y queue (S k).
Proof.
  intros [Hheads Hnd Hqueue Hqnd Hsingle Hitems] Hlen Hother Hself Hidx.
  apply Forall2_cons_1 in Hqueue as [Hq Hqueue].
  cbn [map snd] in Hqnd. apply NoDup_cons in Hqnd as [Hrq Hqnd].
  pose proof (Forall2_length _ _ _ Hheads) as Hclen.
  assert (Hbound : ∀ r', r' ∈ chain st → r' < length (heap st)).
  { intros r'. by apply chain_heads_bound with P. }
  assert (Hfresh : length (heap st) ∉ chain st).
  { intros Hin. apply Hbound in Hin. lia. }
  assert (Hhead : ∀ r', r' ∈ chain st →
            slot_head (h1 ++ [[y]]) r' = slot_head (heap st) r').
  { intros r' Hr'. rewrite slot_head_app_l by (rewrite Hlen; by apply Hbound).
    destruct (decide (r' = r)) as [->|Hne].
    - destruct (Hself Hr') as (x & Hx & Hsx). unfold slot_head at 1.
      by rewrite Hx, Hsx.
    - unfold slot_head. by rewrite Hother. }
  assert (Hqbound : ∀ e y', queued pairs leftover st k e y' →
            e.2 < length (heap st)).
  { intros e y' [(x & i & Hl & _)|(Hl & _)]; by apply lookup_lt_Some in Hl. }
  split; cbn [heap chain].
  - (* heads *)
    apply Forall2_app.
    + apply Forall2_take. eapply Forall2_impl_strong; [exact Hheads|].
      intros r' x Hr' _ Hx. by rewrite Hhead.
    + constructor.
      * unfold slot_head. rewrite lookup_app_r by lia.
        by rewrite Hlen, Nat.sub_diag.
      * apply Forall2_drop. eapply Forall2_impl_strong; [exact Hheads|].
        intros r' x Hr' _ Hx. by rewrite Hhead.
  - (* the references of the chain are distinct *)
    rewrite insert_middle_perm. by constructor.
  - (* the rest of the queue *)
    eapply Forall2_impl_strong; [exact Hqueue|].
    intros e y' He _ Hqe.
    assert (e.2 ≠ r) as Hne.
    { intros <-. apply Hrq. apply list_elem_of_fmap. by exists e. }
    pose proof (Hqbound _ _ Hqe) as Heb.
    assert (Hsame : (h1 ++ [[y]]) !! e.2 = heap st !! e.2).
    { rewrite lookup_app_l by lia. by apply Hother. }
    destruct Hqe as [(x & i & Hl & Hi & Hik & Hp)|(Hl & Hnot & Hk & Hlo)].
    + left. exists x, (if decide (i < idx) then i else S i).
      cbn [heap chain]. split; [by rewrite Hsame|]. split.
      { apply lookup_insert_middle; [lia|done]. }
      split; [case_decide; lia|done].
    + right. cbn [heap chain]. split; [by rewrite Hsame|]. split.
      { rewrite insert_middle_perm. apply not_elem_of_cons. split; [lia|done]. }
      split; [|done].
      rewrite length_app, length_take. cbn [length]. rewrite length_drop. lia.
  - done.
  - (* slots that are not queued hold one item *)
    intros r'. rewrite insert_middle_perm. intros Hr' Hnq.
    apply elem_of_cons in Hr' as [->|Hr'].
    { exists y. rewrite lookup_app_r by lia. by rewrite Hlen, Nat.sub_diag. }
    pose proof (Hbound _ Hr') as Hb. rewrite lookup_app_l by lia.
    destruct (decide (r' = r)) as [->|Hne].
    + destruct (Hself Hr') as (x & Hx & _). by exists x.
    + rewrite Hother by done. apply Hsingle; [done|].
      cbn [map snd]. apply not_elem_of_cons. by split.
  - rewrite insert_middle_perm, <-Hitems. cbn [app].
    apply Permutation_middle.
Qed.

Hypothesis Hitems_nodup : NoDup items.
Hypothesis Hpairs_nodup : NoDup (map fst pairs ++ map snd pairs).
Hypothesis Hleftover :
  ∀ z, leftover = Some z → (z ∉ map fst pairs) ∧ (z ∉ map snd pairs).

Lemma pairs_partner x x' y : (x, y) ∈ pairs → (x', y) ∈ pairs → x = x'.
Proof using Hpairs_nodup.
  pose proof Hpairs_nodup as Hn. apply NoDup_app in Hn as (_ & _ & Hv).
  intros H1 H2.
  apply list_elem_of_lookup in H1 as (i & Hi), H2 as (j & Hj).
  assert (i = j) as ->; [|congruence].
  eapply (NoDup_lookup _ _ _ y Hv); rewrite list_lookup_fmap.
  - by rewrite Hi.
  - by rewrite Hj.
Qed.

Lemma insert_queued_step st P Y q r y queue k log o :
  chain_inv pairs leftover items st P (y :: Y) ((q, r) :: queue) k →
  runs (insert_queued r st) log o →
  ∃ st' n idx,
    o = Ok st'
    ∧ n ≤ length P ∧ n ≤ q + 2 + k ∧ idx ≤ n
    ∧ (∀ x, (x, y) ∈ pairs → x ∉ take n P)
    ∧ (n = length P ∨ ∃ x, P !! n = Some x ∧ (x, y) ∈ pairs)
    ∧ (y ∉ P) ∧ (y ∉ map fst pairs)
    ∧ runs (bin_insert_index (take n P) y) log (Ok (Z.of_nat idx))
    ∧ chain st' = take idx (chain st) ++ length (heap st) :: drop idx (chain st)
    ∧ chain_inv pairs leftover items st'
        (take idx P ++ y :: drop idx P) Y queue (S k).
Proof using Hitems_nodup Hpairs_nodup Hleftover.
  intros Hinv Hruns.
  pose proof Hinv as [Hheads Hnd Hqueue Hqnd Hsingle Hitems].
  apply Forall2_cons_1 in Hqueue as [Hq _].
  pose proof (Forall2_length _ _ _ Hheads) as Hclen.
  assert (NoDup (P ++ y :: Y)) as HndPY by (by rewrite Hitems).
  apply NoDup_app in HndPY as (HndP & HPY & _).
  assert (y ∉ P) as HyP.
  { intros Hin. apply (HPY y Hin). by left. }
  unfold insert_queued in Hruns.
  destruct Hq as [(x & i & Hl & Hi & Hik & Hp)|(Hl & Hnot & Hk & Hlo)];
    cbn [fst snd] in *; rewrite Hl in Hruns; cbn [lift_opt bind] in Hruns.
  - (* the smaller item of a pair *)
    change (py_len [x; y] =? 1)%Z with false in Hruns.
    change (py_len [x; y] =? 2)%Z with true in Hruns.
    cbn [py_assert bind] in Hruns.
    rewrite (ident_find_lookup _ _ i Hnd Hi) in Hruns.
    cbn [bind last removelast lift_opt] in Hruns.
    set (h1 := <[r := [x]]> (heap st)) in *.
    assert (i < length P) as HiP.
    { rewrite <-Hclen. by eapply lookup_lt_Some. }
    destruct (Forall2_lookup_l _ _ _ _ _ Hheads Hi) as (x' & HPi & Hx').
    assert (x' = x) as ->.
    { unfold slot_head in Hx'. rewrite Hl in Hx'. by injection Hx'. }
    rewrite py_slice_nat in Hruns by lia.
    rewrite Nat2Z.id in Hruns. change (Z.to_nat 0) with 0 in Hruns.
    rewrite Nat.sub_0_r, drop_0 in Hruns.
    assert (Hpre : Forall2 (λ r x, slot_head h1 r = Some x)
                     (take i (chain st)) (take i P)).
    { apply Forall2_take. eapply Forall2_impl_strong; [exact Hheads|].
      intros r' z Hr' _ Hz. unfold slot_head, h1.
      destruct (decide (r' = r)) as [->|Hne].
      - rewrite list_lookup_insert_eq by (by eapply lookup_lt_Some).
        unfold slot_head in Hz. by rewrite Hl in Hz.
      - by rewrite list_lookup_insert_ne. }
    rewrite (firsts_heads _ _ _ Hpre) in Hruns. cbn [bind] in Hruns.
    assert (y ∉ take i P) as Hyt.
    { intros Hin. apply HyP. by eapply elem_of_take_1. }
    apply runs_bind_inv in Hruns
      as [(idxz & l1 & l2 & Hbin & Hret & ->)|(e & Hbin & ->)].
    2:{ by apply bin_insert_index_runs in Hbin as (? & ? & _). }
    pose proof Hbin as Hbin'.
    apply bin_insert_index_runs in Hbin' as (idx & [= ->] & Hidx & _); [|done].
    rewrite length_take, Nat.min_l in Hidx by lia.
    runs_inv Hret. rewrite app_nil_r.
    unfold h1 at 2. rewrite length_insert.
    rewrite py_insert_nat by lia.
    eexists _, i, idx. split; [done|]. split; [lia|]. split; [lia|].
    split; [done|]. split.
    { intros x' Hx'p. rewrite (pairs_partner _ _ _ Hx'p Hp).
      intros Hin. apply list_elem_of_lookup in Hin as (j & Hj).
      apply lookup_take_Some in Hj as [Hj Hji].
      pose proof (NoDup_lookup _ _ _ _ HndP Hj HPi). lia. }
    split; [right; by exists x|]. split; [done|]. split.
    { intros Hin. pose proof Hpairs_nodup as Hn.
      apply NoDup_app in Hn as (_ & Hkv & _).
      apply (Hkv y Hin). apply list_elem_of_fmap. by exists (x, y). }
    split; [done|]. split; [done|].
    apply (chain_inv_insert st h1 P Y q r y queue k idx);
      [done|by unfold h1; rewrite length_insert| | |lia].
    + intros r' Hne. unfold h1. by rewrite list_lookup_insert_ne.
    + intros _. exists x. unfold h1. split.
      * rewrite list_lookup_insert_eq; [done|]. by eapply lookup_lt_Some.
      * unfold slot_head. by rewrite Hl.
  - (* the leftover item *)
    change (py_len [y] =? 1)%Z with true in Hruns.
    rewrite py_index_nonneg in Hruns by lia. cbn [lookup] in Hruns.
    change ([y] !! Z.to_nat 0) with (Some y) in Hruns.
    cbn [lift_opt bind] in Hruns.
    rewrite (firsts_heads _ _ _ Hheads) in Hruns. cbn [bind] in Hruns.
    apply runs_bind_inv in Hruns
      as [(idxz & l1 & l2 & Hbin & Hret & ->)|(e & Hbin & ->)].
    2:{ by apply bin_insert_index_runs in Hbin as (? & ? & _). }
    pose proof Hbin as Hbin'.
    apply bin_insert_index_runs in Hbin' as (idx & [= ->] & Hidx & _); [|done].
    runs_inv Hret. rewrite app_nil_r.
    rewrite py_insert_nat by lia.
    destruct (Hleftover y Hlo) as [Hyk Hyv].
    eexists _, (length P), idx. split; [done|]. split; [lia|]. split; [lia|].
    split; [done|]. split.
    { intros x Hx. exfalso. apply Hyv. apply list_elem_of_fmap. by exists (x, y). }
    split; [by left|]. split; [done|]. split; [done|].
    rewrite firstn_all. split; [done|]. split; [done|].
    apply (chain_inv_insert st (heap st) P Y q r y queue k idx);
      [done|done|done| |lia].
    intros Hin. done.
Qed.

End InsertStep.

(** ** The comparisons of one insertion *)

Section StepLog.

Context {T : Type} `{EqDecision T}.
Implicit Types (x y item : T) (P Y : list T) (log : list (@query T)).

Lemma both_app log1 log2 : both (log1 ++ log2) = both log1 ++ both log2.
Proof. unfold both. by rewrite flat_map_app. Qed.

Lemma elem_of_both log (a b : T) :
  (a, b) ∈ both log ↔ ∃ r, (a, b, r) ∈ log ∨ (b, a, r) ∈ log.
Proof.
  unfold both. rewrite list_elem_of_In, in_flat_map. split.
  - intros ([[x y] r] & Hin & Hab). apply list_elem_of_In in Hin.
    cbn in Hab. destruct Hab as [[= <- <-]|[[= <- <-]|[]]]; exists r; eauto.
  - intros (r & [Hin|Hin]); apply list_elem_of_In in Hin.
    + exists (a, b, r). split; [done|]. cbn. by left.
    + exists (b, a, r). split; [done|]. cbn. by right; left.
Qed.

Lemma both_sym log (a b : T) : (a, b) ∈ both log → (b, a) ∈ both log.
Proof. rewrite !elem_of_both. intros (r & [?|?]); exists r; eauto. Qed.

(** The comparisons of a search for [y] among distinct targets. *)
Lemma both_search_NoDup y log :
  Forall (λ q : query, q.1.1 = y) log →
  NoDup (map (λ q : query, q.1.2) log) →
  y ∉ map (λ q : query, q.1.2) log →
  NoDup (both log).
Proof.
  induction log as [|[[a c] r] log IH]; intros Hall Hnd Hy; [constructor|].
  apply Forall_cons in Hall as [Ha Hall]. cbn in Ha. subst a.
  cbn [map fst snd] in Hnd, Hy. apply NoDup_cons in Hnd as [Hc Hnd].
  apply not_elem_of_cons in Hy as [Hyc Hy].
  assert (Hin : ∀ a b, (a, b) ∈ both log →
            ∃ c', c' ∈ map (λ q : query, q.1.2) log
                  ∧ ((a = y ∧ b = c') ∨ (a = c' ∧ b = y))).
  { intros a b Hab. apply elem_of_both in Hab as (r' & [Hab|Hab]);
      rewrite Forall_forall in Hall; pose proof (Hall _ Hab) as Hq; cbn in Hq.
    - exists b. split; [|by left]. apply list_elem_of_fmap. by exists (a, b, r').
    - exists a. split; [|by right]. apply list_elem_of_fmap. by exists (b, a, r'). }
  change (both ((y, c, r) :: log)) with ((y, c) :: (c, y) :: both log).
  constructor; [|constructor; [|by apply IH]].
  - intros Hin'. apply elem_of_cons in Hin' as [[= ?]|Hin']; [done|].
    apply Hin in Hin' as (c' & Hc' & [[_ ->]|[-> _]]); done.
  - intros Hin'. apply Hin in Hin' as (c' & Hc' & [[-> _]|[-> _]]); done.
Qed.

End StepLog.

(** ** The insertion loop *)

Section InsertLoop.

Context {T : Type} `{EqDecision T}.
Implicit Types (x y item : T) (P Y : list T) (log IL : list (@query T))
  (st : @main_chain T) (queue : list (nat * nat)).

Variables (pairs : list (T * T)) (leftover : option T) (items : list T).
(** The pairs compared before the insertions start. *)
Variable E : list (T * T).

Hypothesis Hitems_nodup : NoDup items.
Hypothesis Hpairs_nodup : NoDup (map fst pairs ++ map snd pairs).
Hypothesis Hleftover :
  ∀ z, leftover = Some z → (z ∉ map fst pairs) ∧ (z ∉ map snd pairs).
Hypothesis Hearlier :
  ∀ a b, (a, b) ∈ E →
    (a ∈ map fst pairs ∧ b ∈ map fst pairs) ∨ (a, b) ∈ pairs ∨ (b, a) ∈ pairs.

Lemma log_inv_step P IL n idx y log :
  NoDup P → y ∉ P → y ∉ map fst pairs →
  (∀ x, (x, y) ∈ pairs → x ∉ take n P) →
  runs (bin_insert_index (take n P) y) log (Ok (Z.of_nat idx)) →
  log_inv E P IL →
  log_inv E (take idx P ++ y :: drop idx P) (IL ++ log).
Proof using Hearlier.
  intros HndP HyP Hyk Hpartner Hbin [Hnd Hmem].
  assert (y ∉ take n P) as Hyt by (intros ?; apply HyP; by eapply elem_of_take_1).
  apply bin_insert_index_runs in Hbin
    as (idx' & _ & _ & _ & _ & Hq & Hndq & _); [|done].
  specialize (Hndq ltac:(rewrite <-(take_drop n P) in HndP;
                         by apply NoDup_app in HndP as [? _])).
  assert (Hnew : ∀ a b, (a, b) ∈ both log →
            (a = y ∧ b ∈ take n P) ∨ (b = y ∧ a ∈ take n P)).
  { intros a b Hab. rewrite Forall_forall in Hq.
    apply elem_of_both in Hab as (r & [Hab|Hab]);
      destruct (Hq _ Hab) as [Hy Ht]; cbn in Hy, Ht; [by left|by right]. }
  assert (Hin' : ∀ a, a ∈ P → a ∈ take idx P ++ y :: drop idx P).
  { intros a Ha. rewrite insert_middle_perm. by right. }
  assert (Hy' : y ∈ take idx P ++ y :: drop idx P).
  { rewrite insert_middle_perm. by left. }
  split.
  - rewrite both_app, (assoc_L (++)). apply NoDup_app. split; [done|]. split.
    + intros [a b] Hold Hab. apply Hnew in Hab.
      apply elem_of_app in Hold as [HE|Hold].
      * apply Hearlier in HE as [[Ha Hb]|[Hp|Hp]];
          destruct Hab as [[-> Ht]|[-> Ht]]; try done.
        -- destruct Hyk. apply list_elem_of_fmap. by exists (y, b).
        -- by apply (Hpartner a).
        -- by apply (Hpartner b).
        -- destruct Hyk. apply list_elem_of_fmap. by exists (y, a).
      * apply Hmem in Hold as [Ha Hb]. by destruct Hab as [[-> _]|[-> _]].
    + apply (both_search_NoDup y).
      * eapply Forall_impl; [exact Hq|]. by intros q [? _].
      * done.
      * intros Hin. apply Hyt. apply list_elem_of_fmap in Hin as (q & -> & Hin).
        rewrite Forall_forall in Hq. by destruct (Hq _ Hin).
  - intros a b. rewrite both_app, elem_of_app. intros [Hab|Hab].
    + apply Hmem in Hab as [? ?]. auto.
    + apply Hnew in Hab as [[-> Ht]|[-> Ht]]; split; try done;
        apply Hin'; by eapply elem_of_take_1.
Qed.

Lemma sorted_step comp D P n idx y log :
  consistent comp D → P ⊆ D → y ∈ D → y ∉ P →
  (∀ x, (x, y) ∈ pairs → below comp D y x) →
  (n = length P ∨ ∃ x, P !! n = Some x ∧ (x, y) ∈ pairs) →
  idx ≤ n → n ≤ length P →
  runs (bin_insert_index (take n P) y) log (Ok (Z.of_nat idx)) →
  answers comp log →
  StronglySorted (below comp D) P →
  StronglySorted (below comp D) (take idx P ++ y :: drop idx P).
Proof.
  intros Hcons HPD HyD HyP Hbelow Hn Hidx HnP Hbin Hans Hs.
  assert (y ∉ take n P) as Hyt by (intros ?; apply HyP; by eapply elem_of_take_1).
  assert (StronglySorted (below comp D) (take n P)) as Hst.
  { rewrite <-(take_drop n P) in Hs. by apply StronglySorted_app_1_l in Hs. }
  destruct (bin_insert_index_sorted comp D (take n P) y log
              (Ok (Z.of_nat idx)) Hcons)
    as (idx' & Heq & _ & Hbefore & Hafter); try done.
  { intros x Hx. apply HPD. by eapply elem_of_take_1. }
  injection Heq as Heq. apply Nat2Z.inj in Heq. subst idx'.
  rewrite take_take, Nat.min_l in Hbefore by done.
  apply StronglySorted_insert; [done|done|].
  replace (drop idx P) with (drop idx (take n P) ++ drop n P).
  2:{ rewrite <-(take_drop n P) at 3. rewrite drop_app_le; [done|].
      rewrite length_take. lia. }
  apply Forall_app. split; [done|].
  destruct Hn as [->|(x & Hx & Hp)]; [by rewrite drop_all|].
  pose proof (Hbelow x Hp) as Hyx.
  apply Forall_forall. intros z Hz. apply list_elem_of_lookup in Hz as (j & Hj).
  rewrite lookup_drop in Hj. destruct j as [|j].
  { rewrite Nat.add_0_r in Hj. congruence. }
  eapply below_trans; [done|exact Hyx|].
  eapply (StronglySorted_lookup _ P n (n + S j)); [done..|lia].
Qed.

Lemma insert_all_runs q1 q2 Y1 Y2 st P k log o :
  length q1 = length Y1 →
  chain_inv pairs leftover items st P (Y1 ++ Y2) (q1 ++ q2) k →
  runs (insert_all q1 st) log o →
  ∃ st' P', o = Ok st'
    ∧ chain_inv pairs leftover items st' P' Y2 q2 (k + length q1)
    ∧ (Z.of_nat (length log) <= queue_cost k q1)%Z
    ∧ (∀ IL, log_inv E P IL → log_inv E P' (IL ++ log))
    ∧ (∀ comp D, consistent comp D → items ⊆ D →
         (∀ x y, (x, y) ∈ pairs → below comp D y x) →
         answers comp log →
         StronglySorted (below comp D) P → StronglySorted (below comp D) P').
Proof using Hitems_nodup Hpairs_nodup Hleftover Hearlier.
  revert Y1 st P k log.
  induction q1 as [|[q r] q1 IH]; intros Y1 st P k log Hlen Hinv Hruns.
  - destruct Y1; [|done]. cbn in Hruns. runs_inv Hruns.
    exists st, P. cbn [length app] in *. rewrite Nat.add_0_r.
    split; [done|]. split; [done|]. split; [done|]. split; [|done].
    intros IL. by rewrite app_nil_r.
  - destruct Y1 as [|y Y1]; [done|]. cbn [length] in Hlen.
    cbn [insert_all] in Hruns. cbn [app] in Hinv.
    apply runs_bind_inv in Hruns
      as [(st1 & l1 & l2 & Hstep & Hrest & ->)|(e & Hstep & ->)].
    2:{ by destruct (insert_queued_step pairs leftover items Hitems_nodup
                       Hpairs_nodup Hleftover _ _ _ _ _ _ _ _ _ _ Hinv Hstep)
          as (? & ? & ? & ? & _). }
    pose proof Hinv as [_ _ _ _ _ HitemsP].
    destruct (insert_queued_step pairs leftover items Hitems_nodup
                Hpairs_nodup Hleftover _ _ _ _ _ _ _ _ _ _ Hinv Hstep)
      as (st1' & n & idx & [= <-] & HnP & Hnk & Hidx & Hpartner & Hn & HyP & Hyk
          & Hbin & _ & Hinv1).
    apply (IH Y1 st1 (take idx P ++ y :: drop idx P) (S k)) in Hrest
      as (st' & P' & -> & Hinv' & Hcost & Hlog & Hsorted); [|lia|done].
    exists st', P'. split; [done|]. split.
    { cbn [length]. by replace (k + S (length q1)) with (S k + length q1) by lia. }
    assert (NoDup P) as HndP.
    { assert (NoDup (P ++ y :: Y1 ++ Y2)) as Hnd by (by rewrite HitemsP).
      by apply NoDup_app in Hnd as [? _]. }
    split.
    { rewrite length_app, Nat2Z.inj_add. cbn [queue_cost].
      pose proof Hbin as Hbin'.
      apply bin_insert_index_runs in Hbin' as (_ & _ & _ & Hc & _).
      2:{ intros ?. apply HyP. by eapply elem_of_take_1. }
      unfold py_len in Hc. rewrite length_take, Nat.min_l in Hc by done.
      assert (Z.log2_up (Z.of_nat n + 1) <= Z.log2_up (Z.of_nat q + Z.of_nat k + 3))%Z.
      { apply Z.log2_up_le_mono. lia. }
      lia. }
    split.
    { intros IL HIL. rewrite (assoc_L (++)). apply Hlog.
      by apply (log_inv_step P IL n). }
    intros comp D Hcons HD Hbelow Hans Hs.
    apply answers_app in Hans as [Hans1 Hans2].
    apply (Hsorted comp D); try done.
    apply (sorted_step comp D P n idx y l1); try done.
    + intros x Hx. apply HD. rewrite <-HitemsP. apply elem_of_app. by left.
    + apply HD. rewrite <-HitemsP. apply elem_of_app. right. by left.
    + intros x Hx. by apply Hbelow.
Qed.

End InsertLoop.

(** ** The construction of the main chain and of the insertion queue *)

Section Construction.

Context {T : Type} `{EqDecision T}.
Implicit Types (x y item : T) (P Y : list T) (log : list (@query T))
  (st : @main_chain T) (queue : list (nat * nat)) (pairs : list (T * T)).

Lemma dict_keys_elem_of pairs k :
  k ∈ dict_keys pairs → ∃ v, (k, v) ∈ pairs.
Proof.
  unfold dict_keys. intros Hk. apply list_elem_of_fmap in Hk as ([k' v] & -> & Hin).
  by exists v.
Qed.

Lemma paired_slots_ret pairs (l : list T) :
  NoDup (dict_keys pairs) → (∀ la, la ∈ l → la ∈ dict_keys pairs) →
  ∃ vs, paired_slots pairs l = Ret (zip_with (λ la v, [la; v]) l vs)
        ∧ Forall2 (λ la v, (la, v) ∈ pairs) l vs.
Proof.
  intros Hnd. induction l as [|la l IH]; intros Hin.
  - exists []. split; [done|constructor].
  - destruct IH as (vs & Heq & Hall); [intros ??; apply Hin; by right|].
    destruct (dict_keys_elem_of pairs la) as (v & Hv); [apply Hin; by left|].
    exists (v :: vs). split; [|by constructor].
    cbn [paired_slots]. rewrite (dict_get_Some _ _ _ Hnd Hv).
    cbn [lift_opt bind]. rewrite Heq. done.
Qed.

(** The values of the dictionary, read through a list of its keys. *)
Lemma dict_values_perm pairs (l vs : list T) :
  NoDup (dict_keys pairs) → l ≡ₚ dict_keys pairs →
  Forall2 (λ k v, (k, v) ∈ pairs) l vs →
  vs ≡ₚ map snd pairs.
Proof.
  intros Hnd Hperm Hall.
  assert (Hvs : vs = omap (dict_get pairs) l).
  { clear Hperm. induction Hall as [|k v l vs Hkv _ IH]; [done|].
    cbn. rewrite (dict_get_Some _ _ _ Hnd Hkv). by f_equal. }
  rewrite Hvs. clear Hvs Hall.
  assert (Hom : omap (dict_get pairs) (dict_keys pairs) = map snd pairs).
  { unfold dict_keys.
    assert (∀ d, (∀ kv, kv ∈ d → kv ∈ pairs) →
              omap (dict_get pairs) (map fst d) = map snd d) as Hgen.
    { induction d as [|[k v] d IH]; intros Hsub; [done|].
      cbn. rewrite (dict_get_Some _ k v Hnd) by (apply Hsub; by left).
      f_equal. apply IH. intros ??. apply Hsub. by right. }
    by apply Hgen. }
  rewrite <-Hom. by apply omap_Permutation.
Qed.

End Construction.

(** ** What the pairing loop leaves behind *)

Section PairingFacts.

Context {T : Type} `{EqDecision T}.
Implicit Types (x y : T) (log PL : list (@query T)) (pairs : list (T * T)).

Lemma paired_length pairs PL : paired pairs PL → length pairs = length PL.
Proof. apply Forall2_length. Qed.

Lemma submitted_length PL : length (submitted PL) = 2 * length PL.
Proof.
  induction PL as [|q PL IH]; [done|].
  change (submitted (q :: PL)) with (q.1.1 :: q.1.2 :: submitted PL).
  cbn [length]. lia.
Qed.

Lemma paired_items pairs PL :
  paired pairs PL → map fst pairs ++ map snd pairs ≡ₚ submitted PL.
Proof.
  induction 1 as [|[k v] q pairs PL Hq _ IH]; [done|].
  cbn [map fst snd submitted flat_map app]. fold (submitted PL).
  rewrite <-Permutation_middle, IH.
  destruct Hq as [-> | ->]; cbn [fst snd]; [apply perm_swap|done].
Qed.

Lemma paired_both pairs PL (a b : T) :
  paired pairs PL →
  (a, b) ∈ both PL ↔ (a, b) ∈ pairs ∨ (b, a) ∈ pairs.
Proof.
  induction 1 as [|[k v] q pairs PL Hq _ IH].
  { cbn. rewrite !elem_of_nil. tauto. }
  change (both (q :: PL)) with ((q.1.1, q.1.2) :: (q.1.2, q.1.1) :: both PL).
  rewrite !elem_of_cons, IH.
  assert (Hswap : ∀ u w : T, (a, b) = (u, w) ↔ (b, a) = (w, u)).
  { intros u w. split; by intros [= -> ->]. }
  destruct Hq as [-> | ->]; cbn [fst snd].
  - rewrite (Hswap v k). tauto.
  - rewrite (Hswap v k). tauto.
Qed.

Lemma submitted_both_NoDup PL : NoDup (submitted PL) → NoDup (both PL).
Proof.
  induction PL as [|[[a b] r] PL IH]; intros Hnd; [constructor|].
  cbn [submitted flat_map fst snd app] in Hnd. fold (submitted PL) in Hnd.
  apply NoDup_cons in Hnd as [Ha Hnd]. apply NoDup_cons in Hnd as [Hb Hnd].
  apply not_elem_of_cons in Ha as [Hab Ha].
  assert (Hin : ∀ u v, (u, v) ∈ both PL → u ∈ submitted PL ∧ v ∈ submitted PL).
  { intros u v Huv. apply elem_of_both in Huv as (r' & [Hq|Hq]);
      unfold submitted; rewrite !list_elem_of_In, !in_flat_map;
      apply list_elem_of_In in Hq;
      split; eexists; (split; [exact Hq|]); cbn; auto. }
  change (both ((a, b, r) :: PL)) with ((a, b) :: (b, a) :: both PL).
  constructor; [|constructor; [|by apply IH]].
  - intros Hx. apply elem_of_cons in Hx as [[= ?]|Hx]; [done|].
    by apply Hin in Hx as [? _].
  - intros Hx. by apply Hin in Hx as [? _].
Qed.

Lemma paired_below comp D pairs PL :
  consistent comp D → submitted PL ⊆ D → NoDup (submitted PL) →
  paired pairs PL → answers comp PL →
  ∀ x y, (x, y) ∈ pairs → below comp D y x.
Proof.
  intros Hcons HD Hnd Hp. revert HD Hnd.
  induction Hp as [|[k v] q pairs PL Hq _ IH]; intros HD Hnd Hans x y Hxy.
  { by apply elem_of_nil in Hxy. }
  apply Forall_cons in Hans as [Hr Hans].
  cbn [submitted flat_map app] in HD, Hnd. fold (submitted PL) in HD, Hnd.
  assert (q.1.1 ∈ D ∧ q.1.2 ∈ D) as [H1 H2].
  { split; apply HD; [by left|by right; left]. }
  assert (q.1.1 ≠ q.1.2) as Hne.
  { apply NoDup_cons in Hnd as [Hn _]. intros Heq. apply Hn. rewrite Heq. by left. }
  apply elem_of_cons in Hxy as [[= -> ->]|Hxy].
  - destruct Hq as [-> | ->]; cbn [fst snd] in *.
    + by apply below_of_true.
    + apply (below_of_false comp D Hcons); auto.
  - apply IH; [| |done..].
    + intros z Hz. apply HD. by do 2 right.
    + apply NoDup_cons in Hnd as [_ Hnd]. by apply NoDup_cons in Hnd as [_ Hnd].
Qed.

End PairingFacts.

(** ** The state before the first insertion *)

Section InitialState.

Context {T : Type} `{EqDecision T}.
Implicit Types (x y item : T) (P Y : list T) (log : list (@query T))
  (st : @main_chain T) (queue : list (nat * nat)) (pairs : list (T * T)).

Lemma enumerate_snd {A} (l : list A) : map snd (enumerate l) = l.
Proof.
  apply list_eq. intros i. unfold enumerate.
  rewrite list_lookup_fmap, list_lookup_imap. by destruct (l !! i).
Qed.

Lemma lookup_cons2 {A} (a b : A) (l : list A) i :
  (a :: b :: l) !! S (S i) = l !! i.
Proof. reflexivity. Qed.

Lemma initial_chain_inv pairs sm0 la0 (rest vs lo_list : list T) queue items :
  (la0, sm0) ∈ pairs →
  Forall2 (λ la v, (la, v) ∈ pairs) rest vs →
  length lo_list ≤ 1 →
  make_groups (seq 2 (length (vs ++ lo_list))) = Some queue →
  sm0 :: la0 :: rest ++ vs ++ lo_list ≡ₚ items →
  ∃ Y0, length queue = length Y0
    ∧ chain_inv pairs (head lo_list) items
        (MainChain ([sm0] :: [la0] :: zip_with (λ la v, [la; v]) rest vs
                    ++ map (λ z, [z]) lo_list)
                   (seq 0 (2 + length rest)))
        (sm0 :: la0 :: rest) Y0 queue 0.
Proof.
  intros Hp0 Hrest Hlo Hqueue Hitems.
  pose proof (Forall2_length _ _ _ Hrest) as Hlen.
  set (YY := vs ++ lo_list) in *. set (p := length YY) in *.
  set (f := λ e : nat * nat, nth e.1 YY sm0).
  destruct (make_groups_spec (seq 2 p)) as (queue' & Hq' & Hperm & _).
  rewrite Hqueue in Hq'. injection Hq' as <-.
  assert (Hentry : ∀ q r, (q, r) ∈ queue → r = 2 + q ∧ q < p).
  { intros q r Hin. apply list_elem_of_lookup in Hin as (i & Hi).
    destruct (make_groups_lookup _ _ _ _ _ Hqueue Hi) as [Hl _].
    apply lookup_seq in Hl. lia. }
  assert (Hzlen : length (zip_with (λ la v, [la; v]) rest vs) = length vs).
  { rewrite length_zip_with. lia. }
  assert (HY : f <$> queue ≡ₚ YY).
  { rewrite Hperm. replace (f <$> enumerate (seq 2 p)) with YY; [done|].
    apply list_eq. intros i. symmetry.
    unfold enumerate. rewrite list_lookup_fmap, list_lookup_imap.
    destruct (decide (i < p)) as [Hi|Hi].
    - rewrite lookup_seq_lt by done. cbn. unfold f. cbn [fst].
      destruct (lookup_lt_is_Some_2 YY i Hi) as [y Hy].
      rewrite Hy. f_equal. by apply nth_lookup_Some.
    - rewrite lookup_seq_ge by lia. cbn. symmetry. apply lookup_ge_None. lia. }
  exists (f <$> queue). split; [by rewrite length_fmap|].
  split; cbn [heap chain].
  - apply Forall2_same_length_lookup_2; [rewrite length_seq; cbn; lia|].
    intros i r x Hr Hx. apply lookup_seq in Hr as [-> _]. cbn [Nat.add].
    unfold slot_head. destruct i as [|[|i]]; [cbn in Hx |- *; congruence..|].
    rewrite lookup_cons2 in Hx. rewrite lookup_cons2.
    destruct (lookup_lt_is_Some_2 vs i) as [v Hv].
    { apply lookup_lt_Some in Hx. lia. }
    rewrite lookup_app_l by (rewrite Hzlen; by eapply lookup_lt_Some).
    rewrite lookup_zip_with, Hx, Hv. done.
  - apply NoDup_seq.
  - apply Forall2_fmap_r, Forall_Forall2_diag, Forall_forall.
    intros [q r] Hin. destruct (Hentry q r Hin) as [-> Hq].
    unfold queued, f. cbn [fst snd heap chain compose].
    destruct (decide (q < length vs)) as [Hqv|Hqv].
    + left. destruct (lookup_lt_is_Some_2 vs q Hqv) as [v Hv].
      destruct (lookup_lt_is_Some_2 rest q) as [la Hla]; [lia|].
      assert (nth q YY sm0 = v) as ->.
      { apply nth_lookup_Some. unfold YY. by rewrite lookup_app_l. }
      exists la, (q + 2). split.
      { change (2 + q) with (S (S q)). rewrite lookup_cons2.
        rewrite lookup_app_l by lia.
        by rewrite lookup_zip_with, Hla, Hv. }
      split; [rewrite lookup_seq_lt by lia; f_equal; lia|].
      split; [lia|]. exact (Forall2_lookup_lr _ _ _ _ _ _ Hrest Hla Hv).
    + right. unfold p, YY in Hq. rewrite length_app in Hq.
      destruct lo_list as [|lo [|??]]; cbn in Hq, Hlo; try lia.
      assert (q = length vs) as -> by lia.
      assert (nth (length vs) YY sm0 = lo) as ->.
      { apply nth_lookup_Some. unfold YY. rewrite lookup_app_r by lia.
        by rewrite Nat.sub_diag. }
      split.
      { change (2 + length vs) with (S (S (length vs))). rewrite lookup_cons2.
        rewrite lookup_app_r by lia.
        by rewrite Hzlen, Nat.sub_diag. }
      split.
      { intros Hin'. apply list_elem_of_lookup in Hin' as (i & Hi).
        apply lookup_seq in Hi. lia. }
      split; [rewrite length_seq; lia|done].
  - rewrite Hperm, enumerate_snd. apply NoDup_seq.
  - intros r Hr Hnq. apply list_elem_of_lookup in Hr as (i & Hi).
    apply lookup_seq in Hi as [-> Hi]. cbn [Nat.add] in *.
    destruct i as [|[|i]]; [by exists sm0|by exists la0|].
    exfalso. apply Hnq. rewrite Hperm, enumerate_snd.
    apply list_elem_of_lookup. exists i. apply lookup_seq.
    split; [lia|]. unfold p, YY. rewrite length_app. lia.
  - rewrite HY. rewrite <-Hitems. cbn [app]. do 2 f_equal.
Qed.

End InitialState.

(** ** The merge phase of the driver *)

(** Halving a natural number. *)
Ltac halve n :=
  pose proof (Nat.div_mod_eq n 2);
  pose proof (Nat.mod_upper_bound n 2 ltac:(lia)).

Section MergePhase.

Context {T : Type} `{EqDecision T}.
Implicit Types (x y item : T) (P Y : list T) (log : list (@query T))
  (st : @main_chain T) (queue : list (nat * nat)).

Lemma all_len_true (h : list (list T)) (n : Z) (refs : list nat) :
  (∀ r, r ∈ refs → ∃ slot, h !! r = Some slot ∧ py_len slot = n) →
  all_len h n refs = true.
Proof.
  intros Hall. unfold all_len. apply forallb_forall. intros r Hr.
  apply list_elem_of_In in Hr. destruct (Hall r Hr) as (slot & -> & <-).
  apply Z.eqb_refl.
Qed.

Lemma chain_pending m :
  py_slice (seq 0 (2 + m)) 2 (py_len (seq 0 (2 + m))) = seq 2 m.
Proof.
  rewrite py_slice_nat; unfold py_len; rewrite length_seq; [|lia].
  rewrite Nat2Z.id. change (Z.to_nat 2) with 2.
  replace (2 + m - 2) with m by lia.
  change (drop 2 (seq 0 (2 + m))) with (seq 2 m).
  apply take_ge. rewrite length_seq. lia.
Qed.

Lemma StronglySorted_pair_nil {A} (R : relation A) a : StronglySorted R [a].
Proof. apply SSorted_cons; [apply SSorted_nil|apply Forall_nil_2]. Qed.

Lemma seq_snoc j n : seq j n ++ [j + n] = seq j (S n).
Proof. by rewrite seq_S. Qed.

Variables (array : list T) (pairs : list (T * T)).
Variables (PL : list (@query T)) (E : list (T * T)).

Hypothesis Harr : NoDup array.
Hypothesis Hlen : 3 ≤ length array.
Hypothesis Hpaired : paired pairs PL.
Hypothesis Hsub : submitted PL = take (2 * (length array / 2)) array.
Hypothesis HE_nodup : NoDup E.
Hypothesis Hearlier :
  ∀ a b, (a, b) ∈ E →
    (a ∈ map fst pairs ∧ b ∈ map fst pairs) ∨ (a, b) ∈ pairs ∨ (b, a) ∈ pairs.

(** The state and the queue with which the insertion loop starts. *)
Lemma merge_setup (larger : list T) :
  larger ≡ₚ dict_keys pairs →
  ∃ sm0 lo_list st0 queue st1 Y0,
    (∀ z, head lo_list = Some z → (z ∉ map fst pairs) ∧ (z ∉ map snd pairs))
    ∧ NoDup (map fst pairs ++ map snd pairs)
    ∧ (∀ la0, head larger = Some la0 → (la0, sm0) ∈ pairs)
    ∧ build_main_chain pairs larger = Ret st0
    ∧ all_len (heap st0) 2 (py_slice (chain st0) 2 (py_len (chain st0))) = true
    ∧ firsts (heap st0) (chain st0) = Ret (sm0 :: larger)
    ∧ insertion_queue array st0 = Ret (queue, st1)
    ∧ chain st1 = chain st0
    ∧ length queue = length Y0
    ∧ length queue = (length array + 1) / 2 - 1
    ∧ (∀ i q r, queue !! i = Some (q, r) →
         (Z.log2_up (Z.of_nat q + Z.of_nat i + 3)
          <= step_cost (2 * Z.of_nat i + 3))%Z)
    ∧ chain_inv pairs (head lo_list) array st1 (sm0 :: larger) Y0 queue 0.
Proof using Harr Hlen Hpaired Hsub.
  intros Hlarger.
  pose proof Hsub as Hsub'.
  remember (length array / 2) as h eqn:Hh.
  assert (1 ≤ h ∧ 2 * h ≤ length array ∧ length array ≤ 2 * h + 1) as (Hh1 & Hh2 & Hh3).
  { halve (length array). lia. }
  (* the items of the pairs and the leftover item *)
  pose proof (paired_items _ _ Hpaired) as Hkv. rewrite Hsub' in Hkv.
  assert (NoDup (take (2 * h) array)) as Hndt.
  { pose proof Harr as Harr'. rewrite <-(take_drop (2 * h) array) in Harr'.
    by apply NoDup_app in Harr' as [? _]. }
  assert (NoDup (map fst pairs ++ map snd pairs)) as Hndkv by (by rewrite Hkv).
  pose proof Hndkv as Hndk. apply NoDup_app in Hndk as (Hndk & _ & _).
  assert (length pairs = h) as Hplen.
  { rewrite (paired_length _ _ Hpaired).
    pose proof (submitted_length PL) as Hs. rewrite Hsub', length_take in Hs. lia. }
  assert (length larger = h) as Hllen.
  { rewrite Hlarger. unfold dict_keys. by rewrite length_map. }
  set (lo_list := drop (2 * h) array).
  assert (length lo_list ≤ 1) as Hlolen.
  { unfold lo_list. rewrite length_drop. lia. }
  assert (array = take (2 * h) array ++ lo_list) as Harr_split.
  { unfold lo_list. by rewrite take_drop. }
  assert (Hleftover : ∀ z, head lo_list = Some z →
            (z ∉ map fst pairs) ∧ (z ∉ map snd pairs)).
  { intros z Hz.
    assert (z ∈ lo_list) as Hzin by (destruct lo_list; [done|]; injection Hz as ->; by left).
    assert (z ∉ take (2 * h) array) as Hzt.
    { intros Hin. pose proof Harr as Harr'. rewrite Harr_split in Harr'.
      apply NoDup_app in Harr' as (_ & Hd & _). by apply (Hd z). }
    rewrite <-Hkv in Hzt. rewrite elem_of_app in Hzt. tauto. }
  (* the construction of the chain *)
  destruct larger as [|la0 rest]; [cbn in Hllen; lia|].
  assert (∀ la, la ∈ la0 :: rest → la ∈ dict_keys pairs) as Hkeys.
  { intros la. by rewrite Hlarger. }
  destruct (dict_keys_elem_of pairs la0) as (sm0 & Hsm0); [apply Hkeys; by left|].
  destruct (paired_slots_ret pairs rest) as (vs & Hslots & Hvs);
    [done|intros ??; apply Hkeys; by right|].
  pose proof (Forall2_length _ _ _ Hvs) as Hvlen.
  set (slots := zip_with (λ la v : T, [la; v]) rest vs) in *.
  assert (length slots = length rest) as Hslen.
  { unfold slots. rewrite length_zip_with. lia. }
  assert (Hbuild : build_main_chain pairs (la0 :: rest)
                   = Ret (MainChain ([sm0] :: [la0] :: slots)
                                    (seq 0 (2 + length rest)))).
  { unfold build_main_chain.
    rewrite py_index_nonneg by lia. change (Z.to_nat 0) with 0.
    cbn [lookup list_lookup lift_opt bind].
    rewrite (dict_get_Some _ _ _ Hndk Hsm0). cbn [lift_opt bind].
    assert (0 <= 1 <= py_len (la0 :: rest))%Z as Hside.
    { unfold py_len. cbn [length]. lia. }
    rewrite (py_slice_nat _ _ _ Hside). clear Hside.
    unfold py_len. rewrite Nat2Z.id.
    change (Z.to_nat 1) with 1. cbn [drop].
    rewrite drop_0. rewrite take_ge by (cbn [length]; lia).
    rewrite Hslots. cbn [bind length]. by rewrite Hslen. }
  (* the insertion queue *)
  destruct (make_groups_spec (seq 2 (length (vs ++ lo_list))))
    as (queue & Hqueue & Hqperm & _).
  assert (Hqlen : length queue = (length array + 1) / 2 - 1).
  { rewrite Hqperm, enumerate_length, length_seq, length_app.
    unfold lo_list. rewrite length_drop. cbn [length] in Hllen.
    halve (length array + 1). halve (length array). lia. }
  assert (Hitems : sm0 :: la0 :: rest ++ vs ++ lo_list ≡ₚ array).
  { rewrite Harr_split at 1. rewrite <-Hkv.
    assert (sm0 :: vs ≡ₚ map snd pairs) as Hvals.
    { apply (dict_values_perm pairs (la0 :: rest)); [done|done|by constructor]. }
    rewrite <-Hvals. change (map fst pairs) with (dict_keys pairs).
    rewrite <-Hlarger, <-(assoc_L (++)).
    apply (Permutation_middle (la0 :: rest) (vs ++ lo_list) sm0). }
  destruct (initial_chain_inv pairs sm0 la0 rest vs lo_list queue array)
    as (Y0 & HYlen & Hinv0); [done..|].
  fold slots in Hinv0.
  assert (Hq_run :
            insertion_queue array
              (MainChain ([sm0] :: [la0] :: slots) (seq 0 (2 + length rest)))
            = Ret (queue,
                   MainChain ([sm0] :: [la0] :: slots ++ map (λ z, [z]) lo_list)
                             (seq 0 (2 + length rest)))).
  { unfold insertion_queue. cbn [heap chain].
    rewrite chain_pending.
    pose proof Hqueue as Hqueue'. rewrite length_app in Hqueue'.
    destruct (Z.eqb_spec (py_len array mod 2) 0) as [Heven|Hodd].
    - assert (lo_list = []) as Hnil.
      { apply length_zero_iff_nil. unfold lo_list. rewrite length_drop.
        unfold py_len in Heven. zlia. }
      rewrite Hnil in *. cbn [length] in Hqueue'. rewrite Nat.add_0_r in Hqueue'.
      rewrite <-Hvlen in Hqueue'. rewrite Hqueue'. cbn [lift_opt bind map].
      by rewrite app_nil_r.
    - assert (length lo_list = 1) as Hone.
      { unfold lo_list. rewrite length_drop. unfold py_len in Hodd. zlia. }
      destruct lo_list as [|lo [|??]] eqn:Hlo; try done.
      assert (py_index array (-1) = Some lo) as ->.
      { unfold py_index, py_len. cbn [Z.ltb Z.compare].
        destruct (Z.ltb_spec (-1 + Z.of_nat (length array)) 0); [lia|].
        assert (lo_list !! 0 = Some lo) as Hl0 by (by rewrite Hlo).
        unfold lo_list in Hl0. rewrite lookup_drop in Hl0. rewrite <-Hl0.
        f_equal. cbn [length] in Hone.
        unfold lo_list in Hlo. apply (f_equal length) in Hlo.
        rewrite length_drop in Hlo. cbn in Hlo. lia. }
      cbn [lift_opt bind length]. rewrite Hslen.
      change (S (S (length rest))) with (2 + length rest).
      rewrite seq_snoc. cbn [length] in Hqueue'.
      rewrite <-Hvlen in Hqueue'.
      replace (length rest + 1) with (S (length rest)) in Hqueue' by lia.
      rewrite Hqueue'. cbn [lift_opt bind map]. done. }
  eexists sm0, lo_list, _, queue, _, Y0.
  split; [exact Hleftover|]. split; [exact Hndkv|]. split.
  { intros la [= <-]. exact Hsm0. }
  split; [exact Hbuild|]. split.
  { cbn [heap chain]. rewrite chain_pending. apply all_len_true.
    intros r Hr. apply list_elem_of_lookup in Hr as (i & Hi).
    apply lookup_seq in Hi as [-> Hi].
    destruct (lookup_lt_is_Some_2 slots i) as [slot Hslot]; [lia|].
    exists slot. change (2 + i) with (S (S i)). rewrite lookup_cons2.
    split; [done|]. unfold slots in Hslot.
    apply lookup_zip_with_Some in Hslot as (? & ? & -> & _). done. }
  split.
  { destruct (make_groups_spec (seq 2 (length (vs ++ [])))) as (queue0 & Hqueue0 & _).
    destruct (initial_chain_inv pairs sm0 la0 rest vs [] queue0
                (sm0 :: la0 :: rest ++ vs ++ []))
      as (Y00 & _ & [Hheads0 _ _ _ _ _]); [done|done|cbn; lia|done|done|].
    cbn [map heap chain] in Hheads0. rewrite app_nil_r in Hheads0.
    by apply firsts_heads. }
  split; [exact Hq_run|]. split; [done|]. split; [exact HYlen|].
  split; [exact Hqlen|]. split; [|exact Hinv0].
  intros i q r Hi.
  destruct (make_groups_lookup _ _ _ _ _ Hqueue Hi) as (_ & j & Hj & Hqj).
  by apply (queue_position_cost i q j).
Qed.

Lemma queue_cost_bound k (suffix : list (nat * nat)) :
  (∀ i q r, suffix !! i = Some (q, r) →
     (Z.log2_up (Z.of_nat q + Z.of_nat (k + i) + 3)
      <= step_cost (2 * Z.of_nat (k + i) + 3))%Z) →
  (queue_cost k suffix <= queue_bound (k + length suffix) - queue_bound k)%Z.
Proof.
  revert k. induction suffix as [|[q r] suffix IH]; intros k Hpt.
  - cbn. rewrite Nat.add_0_r. lia.
  - cbn [queue_cost length].
    pose proof (Hpt 0 q r eq_refl) as H0. rewrite Nat.add_0_r in H0.
    specialize (IH (S k)).
    replace (k + S (length suffix)) with (S k + length suffix) by lia.
    rewrite (queue_bound_S k) in IH.
    assert (queue_cost (S k) suffix
            <= queue_bound (S k + length suffix)
               - (queue_bound k + step_cost (2 * Z.of_nat k + 3)))%Z; [|lia].
    apply IH. intros i q' r' Hi.
    replace (S k + i) with (k + S i) by lia. by apply (Hpt (S i) q' r').
Qed.

Lemma merge_phase_runs (larger : list T) log o :
  larger ≡ₚ dict_keys pairs →
  runs (merge_phase array pairs larger) log o →
  ∃ out, o = Ok out ∧ out ≡ₚ array
    ∧ (Z.of_nat (length log) <= queue_bound ((length array + 1) / 2 - 1))%Z
    ∧ NoDup (E ++ both log)
    ∧ (∀ a b, (a, b) ∈ both log → a ∈ array ∧ b ∈ array)
    ∧ (∀ comp D, consistent comp D → array ⊆ D →
         (∀ x y, (x, y) ∈ pairs → below comp D y x) →
         answers comp log →
         StronglySorted (below comp D) larger →
         StronglySorted (below comp D) out).
Proof using All.
  intros Hlarger Hruns.
  destruct (merge_setup larger Hlarger)
    as (sm0 & lo_list & st0 & queue & st1 & Y0 & Hleftover & Hndkv & Hsm0
        & Hbuild & Hassert & _ & Hq_run & _ & HYlen & Hqlen & Hpos & Hinv0).
  unfold merge_phase in Hruns. rewrite Hbuild in Hruns. cbn [bind] in Hruns.
  rewrite Hassert in Hruns. cbn [py_assert bind] in Hruns.
  rewrite Hq_run in Hruns. cbn [bind] in Hruns.
  assert (Hinv0' : chain_inv pairs (head lo_list) array st1
            (sm0 :: larger) (Y0 ++ []) (queue ++ []) 0).
  { by rewrite !app_nil_r. }
  (* the insertion loop *)
  apply runs_bind_inv in Hruns
    as [(st' & l1 & l2 & Hloop & Hfin & ->)|(e & Hloop & ->)].
  2:{ by destruct (insert_all_runs pairs (head lo_list) array E Harr Hndkv
                     Hleftover Hearlier queue [] Y0 [] _ _ _ _ _ HYlen Hinv0' Hloop)
        as (? & ? & ? & _). }
  destruct (insert_all_runs pairs (head lo_list) array E Harr Hndkv
              Hleftover Hearlier queue [] Y0 [] _ _ _ _ _ HYlen Hinv0' Hloop)
    as (st'' & P' & [= <-] & Hinv' & Hcost & Hlog & Hsorted).
  destruct Hinv' as [Hheads' Hnd' _ _ Hsingle' Hitems'].
  rewrite app_nil_r in Hitems'.
  rewrite all_len_true in Hfin.
  2:{ intros r Hr. destruct (Hsingle' r Hr) as (x & Hx).
      { cbn. apply not_elem_of_nil. }
      by exists [x]. }
  cbn [py_assert bind] in Hfin. rewrite (firsts_heads _ _ _ Hheads') in Hfin.
  runs_inv Hfin. rewrite app_nil_r.
  exists P'. split; [done|]. split; [done|]. split.
  { rewrite <-Hqlen.
    pose proof (queue_cost_bound 0 queue) as Hgen.
    cbn [Nat.add queue_bound] in Hgen.
    assert (queue_cost 0 queue <= queue_bound (length queue) - 0)%Z; [|lia].
    apply Hgen. intros i q r Hi. by apply (Hpos i q r). }
  destruct (Hlog []) as [Hnd Hmem].
  { split; [by rewrite app_nil_r|]. intros a b Hab. by apply elem_of_nil in Hab. }
  cbn [app] in Hnd, Hmem. split; [done|]. split.
  { intros a b Hab. rewrite <-Hitems'. by apply Hmem. }
  intros comp D Hcons HD Hbelow Hans Hs.
  apply (Hsorted comp D); try done.
  destruct larger as [|la0 rest]; [by apply StronglySorted_pair_nil|].
  apply StronglySorted_cons. split; [|done].
  apply StronglySorted_cons in Hs as [Hla0 _].
  pose proof (Hbelow _ _ (Hsm0 la0 eq_refl)) as Hb0.
  constructor; [done|].
  eapply Forall_impl; [exact Hla0|]. intros z Hz. by eapply below_trans.
Qed.

End MergePhase.

(** ** The driver *)

Section Driver.

Context {T : Type} `{EqDecision T}.
Implicit Types (x y item : T) (array : list T) (log : list (@query T)).

Lemma NoDup_len_check array :
  NoDup array → negb (py_len array =? py_len (remove_dups array))%Z = false.
Proof.
  intros Hnd. apply remove_dups_length_NoDup in Hnd.
  unfold py_len. rewrite Hnd. by rewrite Z.eqb_refl.
Qed.

Lemma dup_len_check array :
  ¬ NoDup array → negb (py_len array =? py_len (remove_dups array))%Z = true.
Proof.
  intros Hnd. unfold py_len.
  destruct (Z.eqb_spec (Z.of_nat (length array))
              (Z.of_nat (length (remove_dups array)))) as [Heq|]; [|done].
  exfalso. apply Hnd. apply remove_dups_length_NoDup. lia.
Qed.

Lemma StronglySorted_pair {A} (R : relation A) a b :
  R a b → StronglySorted R [a; b].
Proof.
  intros Hab. apply SSorted_cons.
  - apply SSorted_cons; [apply SSorted_nil|apply Forall_nil_2].
  - by apply Forall_cons_2; [|apply Forall_nil_2].
Qed.

Lemma short_result array :
  length array ≤ 1 →
  ∃ out, Ok array = Ok out ∧ out ≡ₚ array
    ∧ (Z.of_nat (length (@nil (@query T))) <= sum_cost (length array))%Z
    ∧ NoDup (both (@nil (@query T)))
    ∧ (∀ a b, (a, b) ∈ both (@nil (@query T)) → a ∈ array ∧ b ∈ array)
    ∧ (∀ comp D, consistent comp D → array ⊆ D → answers comp [] →
         StronglySorted (below comp D) out).
Proof.
  intros Hlen. exists array. split; [done|]. split; [done|].
  split; [apply sum_cost_nonneg|]. split; [constructor|]. split.
  - intros a b Hab. by apply elem_of_nil in Hab.
  - intros comp D _ _ _. destruct array as [|a [|??]]; [constructor| |cbn in Hlen; lia].
    repeat constructor.
Qed.

Theorem sort_rec_runs fuel array log o :
  NoDup array → length array ≤ fuel →
  runs (sort_rec fuel array) log o →
  ∃ out, o = Ok out ∧ out ≡ₚ array
    ∧ (Z.of_nat (length log) <= sum_cost (length array))%Z
    ∧ NoDup (both log)
    ∧ (∀ a b, (a, b) ∈ both log → a ∈ array ∧ b ∈ array)
    ∧ (∀ comp D, consistent comp D → array ⊆ D → answers comp log →
         StronglySorted (below comp D) out).
Proof.
  revert array log o.
  induction fuel as [|fuel IH]; intros array log o Hnd Hfuel Hruns.
  { destruct array; [|cbn in Hfuel; lia]. cbn in Hruns. runs_inv Hruns.
    apply short_result; cbn [length]; lia. }
  cbn [sort_rec] in Hruns. unfold py_len in Hruns at 1 2.
  destruct (Z.ltb_spec (Z.of_nat (length array)) 1) as [Hlt|Hge].
  { destruct array; [|cbn in Hlt; lia]. runs_inv Hruns.
    apply short_result; cbn [length]; lia. }
  destruct (Z.eqb_spec (Z.of_nat (length array)) 1) as [Hone|Hne1].
  { destruct array as [|a [|??]]; cbn in Hone; try lia. runs_inv Hruns.
    apply short_result; cbn [length]; lia. }
  rewrite (NoDup_len_check array Hnd) in Hruns.
  unfold py_len in Hruns at 1.
  destruct (Z.eqb_spec (Z.of_nat (length array)) 2) as [Htwo|Hne2].
  { destruct array as [|a [|b [|??]]]; cbn in Htwo; try lia.
    cbn in Hruns. apply runs_await_inv in Hruns as (r & log' & -> & Hruns).
    assert (a ≠ b) as Hab.
    { apply NoDup_cons in Hnd as [Hn _]. intros ->. apply Hn. by left. }
    assert (Hboth : ∀ r', both [(a, b, r')] = [(a, b); (b, a)]) by done.
    assert (Hnd2 : NoDup [(a, b); (b, a)]).
    { repeat constructor.
      - intros Hin. apply list_elem_of_singleton in Hin. by injection Hin.
      - apply not_elem_of_nil. }
    assert (Hmem : ∀ a' b', (a', b') ∈ [(a, b); (b, a)] → a' ∈ [a; b] ∧ b' ∈ [a; b]).
    { intros a' b' Hin. apply elem_of_cons in Hin as [[= -> ->]|Hin].
      - split; [by left|by right; left].
      - apply list_elem_of_singleton in Hin as [= -> ->].
        split; [by right; left|by left]. }
    assert (Hcost2 : (Z.of_nat (length [(a, b, true)]) <= sum_cost (length [a; b]))%Z).
    { by vm_compute. }
    destruct r; runs_inv Hruns.
    - exists [a; b]. rewrite Hboth. split; [done|]. split; [done|].
      split; [exact Hcost2|]. split; [done|]. split; [exact Hmem|].
      intros comp D Hcons HD Hans. apply Forall_cons in Hans as [Hr _].
      cbn in Hr. apply StronglySorted_pair.
      apply below_of_true; [apply HD; by left|apply HD; by right; left|done..].
    - exists [b; a]. rewrite Hboth. split; [done|]. split; [apply perm_swap|].
      split; [exact Hcost2|]. split; [done|]. split; [exact Hmem|].
      intros comp D Hcons HD Hans. apply Forall_cons in Hans as [Hr _].
      cbn in Hr. apply StronglySorted_pair.
      apply (below_of_false comp D Hcons);
        [apply HD; by left|apply HD; by right; left|done..]. }
  assert (3 ≤ length array) as Hlen by lia.
  (* pairing *)
  apply runs_bind_inv in Hruns
    as [(pairs & PL & l' & Hpair & Hruns & ->)|(e & Hpair & ->)].
  2:{ by apply pair_up_runs in Hpair as (? & ? & _). }
  apply pair_up_runs in Hpair as (pairs' & [= <-] & Hpaired & Hsub); [|done].
  set (h := length array / 2) in *.
  assert (1 ≤ h ∧ 2 * h ≤ length array ∧ length array ≤ 2 * h + 1) as (Hh1 & Hh2 & Hh3).
  { unfold h. halve (length array). lia. }
  pose proof (paired_items _ _ Hpaired) as Hkv. rewrite Hsub in Hkv.
  assert (NoDup (take (2 * h) array)) as Hndt.
  { rewrite <-(take_drop (2 * h) array) in Hnd. by apply NoDup_app in Hnd as [? _]. }
  assert (NoDup (map fst pairs ++ map snd pairs)) as Hndkv by (by rewrite Hkv).
  pose proof Hndkv as Hndk. apply NoDup_app in Hndk as (Hndk & Hdisj & _).
  assert (length (dict_keys pairs) = h) as Hklen.
  { unfold dict_keys. rewrite length_map, (paired_length _ _ Hpaired).
    pose proof (submitted_length PL) as Hs. rewrite Hsub, length_take in Hs. lia. }
  assert (Hsubset : ∀ z, z ∈ map fst pairs ++ map snd pairs → z ∈ array).
  { intros z. rewrite Hkv. apply elem_of_take_1. }
  (* the recursive call *)
  assert (length (dict_keys pairs) ≤ fuel) as Hkfuel by lia.
  apply runs_bind_inv in Hruns
    as [(larger & RL & ML & Hrec & Hruns & ->)|(e & Hrec & ->)].
  2:{ by destruct (IH _ _ _ Hndk Hkfuel Hrec) as (? & ? & _). }
  destruct (IH _ _ _ Hndk Hkfuel Hrec)
    as (larger' & [= <-] & Hlarger & Hrcost & Hrnd & Hrmem & Hrsorted).
  (* the merge phase *)
  assert (HE_nodup : NoDup (both (PL ++ RL))).
  { rewrite both_app. apply NoDup_app. split; [|split; [|done]].
    - apply submitted_both_NoDup. by rewrite Hsub.
    - intros [a b] HP HR. apply Hrmem in HR as [Ha Hb].
      apply (paired_both pairs PL a b Hpaired) in HP as [HP|HP].
      + apply (Hdisj b Hb). apply list_elem_of_fmap. by exists (a, b).
      + apply (Hdisj a Ha). apply list_elem_of_fmap. by exists (b, a). }
  assert (Hearlier : ∀ a b, (a, b) ∈ both (PL ++ RL) →
            (a ∈ map fst pairs ∧ b ∈ map fst pairs)
            ∨ (a, b) ∈ pairs ∨ (b, a) ∈ pairs).
  { intros a b. rewrite both_app, elem_of_app. intros [HP|HR].
    - right. by apply (paired_both pairs PL a b Hpaired).
    - left. by apply Hrmem. }
  destruct (merge_phase_runs array pairs PL (both (PL ++ RL)) Hnd Hlen Hpaired Hsub
              HE_nodup Hearlier larger ML o Hlarger Hruns)
    as (out & -> & Hperm & Hmcost & Hmnd & Hmmem & Hmsorted).
  exists out. split; [done|]. split; [done|]. split.
  { rewrite !length_app, !Nat2Z.inj_add.
    rewrite (sum_cost_recurrence (length array)) by lia. fold h.
    change (map fst pairs) with (dict_keys pairs) in Hrcost. rewrite Hklen in Hrcost.
    assert (length PL = h) as ->.
    { pose proof (submitted_length PL) as Hs. rewrite Hsub, length_take in Hs. lia. }
    lia. }
  split.
  { rewrite (assoc_L (++)), both_app. done. }
  split.
  { intros a b. rewrite (assoc_L (++)), both_app, elem_of_app. intros [Hab|Hab].
    - apply Hearlier in Hab as [[Ha Hb]|[Hp|Hp]].
      + split; apply Hsubset, elem_of_app; by left.
      + split; apply Hsubset, elem_of_app; [left|right];
          apply list_elem_of_fmap; by exists (a, b).
      + split; apply Hsubset, elem_of_app; [right|left];
          apply list_elem_of_fmap; by exists (b, a).
    - by apply Hmmem. }
  intros comp D Hcons HD Hans.
  apply answers_app in Hans as [HansP Hans]. apply answers_app in Hans as [HansR HansM].
  assert (submitted PL ⊆ D) as HsubD.
  { rewrite Hsub. intros z Hz. apply HD. by eapply elem_of_take_1. }
  apply (Hmsorted comp D); try done.
  - apply (paired_below comp D pairs PL); try done. by rewrite Hsub.
  - apply Hrsorted; [done| |done].
    intros z Hz. apply HD, Hsubset, elem_of_app. by left.
Qed.

End Driver.

Section NoRepeat.

Context {T : Type} `{EqDecision T}.
Implicit Types (log : list (@query T)).

Lemma both_NoDup_no_repeat log : NoDup (both log) → no_repeat log.
Proof.
  unfold no_repeat. induction log as [|[[a b] r] log IH]; intros Hnd; [constructor|].
  change (both ((a, b, r) :: log)) with ((a, b) :: (b, a) :: both log) in Hnd.
  apply NoDup_cons in Hnd as [Hab Hnd]. apply NoDup_cons in Hnd as [Hba Hnd].
  apply not_elem_of_cons in Hab as [_ Hab].
  constructor; [|by apply IH].
  apply Forall_forall. intros [[c d] r'] Hin [[Hc Hd]|[Hc Hd]]; cbn in Hc, Hd; subst.
  - apply Hab. apply elem_of_both. exists r'. by left.
  - apply Hab. apply elem_of_both. exists r'. by right.
Qed.

Lemma merge_insertion_sort_runs (array : list T) log o :
  NoDup array →
  runs (merge_insertion_sort array) log o →
  ∃ out, o = Ok out ∧ out ≡ₚ array
    ∧ (Z.of_nat (length log) <= sum_cost (length array))%Z
    ∧ NoDup (both log)
    ∧ (∀ a b, (a, b) ∈ both log → a ∈ array ∧ b ∈ array)
    ∧ (∀ comp D, consistent comp D → array ⊆ D → answers comp log →
         StronglySorted (below comp D) out).
Proof. intros Hnd. by apply sort_rec_runs. Qed.

Lemma merge_insertion_sort_dup (array : list T) :
  ¬ NoDup array → merge_insertion_sort array = Raise DuplicateItems.
Proof.
  intros Hdup. unfold merge_insertion_sort.
  destruct array as [|a [|b array]].
  - destruct Hdup. constructor.
  - destruct Hdup. apply NoDup_singleton.
  - cbn [length sort_rec]. unfold py_len at 1 2. cbn [length].
    destruct (Z.ltb_spec (Z.of_nat (S (S (length array)))) 1); [lia|].
    destruct (Z.eqb_spec (Z.of_nat (S (S (length array)))) 1); [lia|].
    by rewrite (dup_len_check _ Hdup).
Qed.

End NoRepeat.

(** ** Runs against a comparator function *)

Section RunFacts.

Context {T : Type} `{EqDecision T}.
Implicit Types (log : list (@query T)) (comp : T → T → bool).

Lemma run_bind {A B} comp (m : prog (T:=T) A) (f : A → prog B) :
  run comp (bind m f)
  = match run comp m with
    | (Ok a, l1) => let '(o, l2) := run comp (f a) in (o, l1 ++ l2)
    | (Err e, l1) => (Err e, l1)
    end.
Proof.
  induction m as [a|e|x y k IH]; cbn [bind run].
  - by destruct (run comp (f a)).
  - done.
  - rewrite IH. destruct (run comp (k (comp x y))) as [[a|e] l1]; [|done].
    by destruct (run comp (f a)).
Qed.

Lemma run_spec {A} comp (m : prog (T:=T) A) o log :
  run comp m = (o, log) ↔ runs m log o ∧ answers comp log.
Proof.
  split.
  - intros Hrun. pose proof (run_runs comp m) as Hr.
    pose proof (run_answers comp m) as Ha. by rewrite Hrun in Hr, Ha.
  - intros [Hr Ha]. by apply runs_answers_run.
Qed.

Lemma runs_bind_err {A B} (m : prog (T:=T) A) (f : A → prog B) log e :
  runs m log (Err e) → runs (bind m f) log (Err e).
Proof.
  revert log. induction m as [a|e'|x y k IH]; intros log Hr; cbn [bind].
  - by apply runs_ret_inv in Hr as [_ ?].
  - by apply runs_raise_inv in Hr as [-> [= ->]]; constructor.
  - apply runs_await_inv in Hr as (r & log' & -> & Hr). constructor. by apply IH.
Qed.

Lemma sort_rec_unfold fuel (array : list T) :
  NoDup array → 3 ≤ length array →
  sort_rec (S fuel) array
  = bind (pair_up array) (λ pairs,
      bind (sort_rec fuel (dict_keys pairs)) (λ larger,
        merge_phase array pairs larger)).
Proof.
  intros Hnd Hlen. cbn [sort_rec]. unfold py_len at 1 2.
  destruct (Z.ltb_spec (Z.of_nat (length array)) 1); [lia|].
  destruct (Z.eqb_spec (Z.of_nat (length array)) 1); [lia|].
  rewrite (NoDup_len_check array Hnd). unfold py_len at 1.
  destruct (Z.eqb_spec (Z.of_nat (length array)) 2); [lia|]. done.
Qed.

Lemma sort_rec_short fuel (array : list T) :
  NoDup array → length array ≤ 2 → sort_rec fuel array = sort_rec 0 array.
Proof.
  intros Hnd Hlen. destruct fuel as [|fuel]; [done|].
  destruct array as [|a [|b [|c ?]]]; [done|done| |cbn in Hlen; lia].
  cbn [sort_rec]. rewrite !(NoDup_len_check [a; b] Hnd). done.
Qed.

Lemma sort_rec_fuel fuel fuel' (array : list T) log o :
  NoDup array → length array ≤ fuel → length array ≤ fuel' →
  runs (sort_rec fuel array) log o → runs (sort_rec fuel' array) log o.
Proof.
  revert fuel' array log o.
  induction fuel as [|fuel IH]; intros fuel' array log o Hnd Hf Hf' Hruns.
  { rewrite sort_rec_short by (done || lia). done. }
  destruct (decide (length array ≤ 2)) as [Hshort|Hlong].
  { rewrite sort_rec_short in Hruns by done. by rewrite sort_rec_short. }
  destruct fuel' as [|fuel']; [lia|].
  rewrite sort_rec_unfold in Hruns |- * by (done || lia).
  apply runs_bind_inv in Hruns
    as [(pairs & PL & l' & Hpair & Hruns & ->)|(e & Hpair & ->)].
  2:{ by apply pair_up_runs in Hpair as (? & ? & _). }
  pose proof Hpair as Hpair'.
  apply pair_up_runs in Hpair' as (pairs' & [= <-] & Hpaired & Hsub); [|done].
  pose proof (paired_items _ _ Hpaired) as Hkv. rewrite Hsub in Hkv.
  assert (NoDup (dict_keys pairs)) as Hndk.
  { assert (NoDup (map fst pairs ++ map snd pairs)) as Hn.
    { rewrite Hkv. rewrite <-(take_drop (2 * (length array / 2)) array) in Hnd.
      by apply NoDup_app in Hnd as [? _]. }
    by apply NoDup_app in Hn as [? _]. }
  assert (length (dict_keys pairs) ≤ fuel ∧ length (dict_keys pairs) ≤ fuel')
    as [Hk Hk'].
  { unfold dict_keys. rewrite length_map, (paired_length _ _ Hpaired).
    pose proof (submitted_length PL) as Hs. rewrite Hsub, length_take in Hs.
    halve (length array). lia. }
  apply (runs_bind _ _ pairs); [done|].
  apply runs_bind_inv in Hruns
    as [(larger & RL & ML & Hrec & Hruns & ->)|(e & Hrec & ->)].
  - apply (runs_bind _ _ larger); [|done]. by apply (IH fuel').
  - apply runs_bind_err. by apply (IH fuel').
Qed.

Lemma run_sort_rec_fuel comp fuel (array : list T) :
  NoDup array → length array ≤ fuel →
  run comp (sort_rec fuel array) = run comp (merge_insertion_sort array).
Proof.
  intros Hnd Hf. destruct (run comp (merge_insertion_sort array)) as [o log] eqn:Hrun.
  apply run_spec in Hrun as [Hr Ha]. apply run_spec. split; [|done].
  by apply (sort_rec_fuel (length array)).
Qed.

End RunFacts.

(** ** The states of the main chain during the insertions *)

Section ChainStates.

Context {T : Type} `{EqDecision T}.
Implicit Types (x y item : T) (P Y : list T) (log : list (@query T))
  (st : @main_chain T) (queue : list (nat * nat)).

Variables (pairs : list (T * T)) (leftover : option T) (items : list T).
Variables (comp : T → T → bool) (D : list T).

Hypothesis Hitems_nodup : NoDup items.
Hypothesis Hpairs_nodup : NoDup (map fst pairs ++ map snd pairs).
Hypothesis Hleftover :
  ∀ z, leftover = Some z → (z ∉ map fst pairs) ∧ (z ∉ map snd pairs).
Hypothesis Hcons : consistent comp D.
Hypothesis HD : items ⊆ D.
Hypothesis Hbelow : ∀ x y, (x, y) ∈ pairs → below comp D y x.

Lemma insert_trace q1 q2 Y1 Y2 st P k :
  length q1 = length Y1 →
  chain_inv pairs leftover items st P (Y1 ++ Y2) (q1 ++ q2) k →
  StronglySorted (below comp D) P →
  ∃ states stn Pn l,
    length states = length q1
    ∧ (∀ i q r sti, q1 !! i = Some (q, r) → (st :: states) !! i = Some sti →
         ∃ st' l', run comp (insert_queued r sti) = (Ok st', l')
                   ∧ (st :: states) !! S i = Some st')
    ∧ Forall (λ s, ∃ P', firsts (heap s) (chain s) = Ret P'
                         ∧ StronglySorted (below comp D) P') (st :: states)
    ∧ last (st :: states) = Some stn
    ∧ run comp (insert_all q1 st) = (Ok stn, l)
    ∧ chain_inv pairs leftover items stn Pn Y2 q2 (k + length q1).
Proof using All.
  revert Y1 st P k. induction q1 as [|[q r] q1 IH]; intros Y1 st P k Hlen Hinv Hs.
  - destruct Y1; [|done]. cbn [app length] in *. rewrite Nat.add_0_r.
    exists [], st, P, []. split; [done|]. split; [intros ???? Hq; done|].
    split; [|done]. constructor; [|constructor].
    exists P. split; [|done]. apply firsts_heads. by destruct Hinv.
  - destruct Y1 as [|y Y1]; [done|]. cbn [length app] in *.
    destruct (run comp (insert_queued r st)) as [o1 l1] eqn:Hrun1.
    pose proof Hrun1 as Hrun1'. apply run_spec in Hrun1' as [Hr1 Ha1].
    pose proof Hinv as [Hheads _ _ _ _ HitemsP].
    destruct (insert_queued_step pairs leftover items Hitems_nodup Hpairs_nodup
                Hleftover _ _ _ _ _ _ _ _ _ _ Hinv Hr1)
      as (st1 & n & idx & -> & HnP & Hnk & Hidx & Hpartner & Hn & HyP & Hyk
          & Hbin & _ & Hinv1).
    assert (StronglySorted (below comp D) (take idx P ++ y :: drop idx P)) as Hs1.
    { apply (sorted_step pairs comp D P n idx y l1); try done.
      - intros x Hx. apply HD. rewrite <-HitemsP. apply elem_of_app. by left.
      - apply HD. rewrite <-HitemsP. apply elem_of_app. right. by left.
      - intros x Hx. by apply Hbelow. }
    destruct (IH Y1 st1 _ (S k) ltac:(lia) Hinv1 Hs1)
      as (states & stn & Pn & l & Hslen & Hsteps & Hall & Hlast & Hrun & Hinvn).
    exists (st1 :: states), stn, Pn, (l1 ++ l). split; [cbn; lia|]. split.
    { intros i q' r' sti Hq Hsti. destruct i as [|i].
      - injection Hq as <- <-. injection Hsti as <-.
        exists st1, l1. by split.
      - cbn in Hq, Hsti. by apply (Hsteps i q' r' sti). }
    split.
    { constructor; [|done]. exists P. split; [|done]. by apply firsts_heads. }
    split; [done|]. split.
    { cbn [insert_all]. rewrite run_bind, Hrun1, Hrun. done. }
    by replace (k + S (length q1)) with (S k + length q1) by lia.
Qed.

End ChainStates.

(** * The claims of the specification *)

(** ** The group-size generator *)

(** C7: the generator emits a(1), a(2), a(3), ... where a(0) = 0 and
    a(n) = 2^n - a(n-1); the first two values are 2, every emitted value is
    positive, and the first ten values are 2, 2, 6, 10, 22, 42, 86, 170,
    342, 682. *)
Theorem group_sizes_sequence :
  A014113 0 = 0%Z
  ∧ (∀ n, A014113 (S n) = (2 ^ Z.of_nat (S n) - A014113 n)%Z)
  ∧ (∀ m, islice group_sizes m = map A014113 (seq 1 m))
  ∧ (∀ k, emitted (S k) = A014113 (S k) ∧ (0 < emitted (S k))%Z)
  ∧ emitted 1 = 2%Z ∧ emitted 2 = 2%Z
  ∧ islice group_sizes 10 = [2; 2; 6; 10; 22; 42; 86; 170; 342; 682]%Z.
Proof.
  split; [reflexivity|]. split; [reflexivity|].
  split; [exact islice_group_sizes|]. split.
  - intros k. rewrite emitted_A014113 by lia. split; [done|apply A014113_pos].
  - repeat split; reflexivity.
Qed.

(** C8, as stated, fails: the third and fourth emitted values are 6 and 10,
    whose sum is 16 and not 2^(2+1) = 8. *)
Lemma adjacent_sum_counterexample :
  ¬ (∀ k, 1 ≤ k →
       (emitted (2 * k - 1) + emitted (2 * k) = 2 ^ (Z.of_nat k + 1))%Z).
Proof. intros Hc. specialize (Hc 2). vm_compute in Hc. by specialize (Hc (le_S _ _ (le_n _))). Qed.

(** C8, amended: every two adjacent emitted values sum to a power of two,
    g(k) + g(k+1) = 2^(k+1) for every k >= 1; in particular
    g(2k-1) + g(2k) = 2^(2k). *)
Theorem adjacent_sum_power_of_two k :
  1 ≤ k →
  (emitted k + emitted (k + 1) = 2 ^ (Z.of_nat k + 1))%Z
  ∧ (emitted (2 * k - 1) + emitted (2 * k) = 2 ^ (2 * Z.of_nat k))%Z.
Proof.
  intros Hk. rewrite !emitted_A014113 by lia. split.
  - replace (k + 1) with (S k) by lia. rewrite A014113_adjacent. f_equal. lia.
  - replace (2 * k) with (S (2 * k - 1)) at 2 by lia.
    rewrite A014113_adjacent. f_equal. lia.
Qed.

Lemma adjacent_sum_power_of_two_witness :
  (emitted 2 + emitted (2 + 1) = 2 ^ (Z.of_nat 2 + 1))%Z
  ∧ (emitted (2 * 2 - 1) + emitted (2 * 2) = 2 ^ (2 * Z.of_nat 2))%Z.
Proof. apply (adjacent_sum_power_of_two 2). lia. Defined.

(** ** The group partitioner *)

(** C4: the output of [_make_groups] holds every (index-tagged) input element
    exactly once, its length is the input length, and each group of the
    output - the slice between two consecutive sums of group sizes - is the
    reversed group of the input; the loop halts by itself after the first
    short group, whatever fuel is left; the empty input gives the empty
    output, and y3,...,y12,y21,y22 is reordered as in the specification. *)
Theorem make_groups_partition :
  (∀ A (array : list A), ∃ out,
      make_groups array = Some out
      ∧ (∀ fuel, length array < fuel →
           make_groups_loop fuel (enumerate array) group_sizes 0%Z [] = Some out)
      ∧ out ≡ₚ enumerate array
      ∧ length out = length array
      ∧ ∀ j, group_of j out = reverse (group_of j (enumerate array)))
  ∧ (∀ A, make_groups (@nil A) = Some [])
  ∧ map snd <$> make_groups
      ["y3"; "y4"; "y5"; "y6"; "y7"; "y8"; "y9"; "y10"; "y11"; "y12"; "y21"; "y22"]%string
    = Some ["y4"; "y3"; "y6"; "y5"; "y12"; "y11"; "y10"; "y9"; "y8"; "y7"; "y22"; "y21"]%string.
Proof.
  split; [|split; reflexivity].
  intros A array. destruct (make_groups_spec array) as (out & Hout & Hperm & Hgrp).
  exists out. split; [exact Hout|]. split.
  { intros fuel Hfuel. apply (make_groups_loop_mono (S (length array))); [lia|].
    exact Hout. }
  split; [exact Hperm|]. split; [|exact Hgrp].
  by rewrite Hperm, enumerate_length.
Qed.

(** ** The maximum-comparisons bound *)

(** C5: [merge_insertion_max_comparisons] raises for every negative argument,
    returns 0 for 0, and returns 0, 1, 3, 5, 7, 10, 13, 16, 19, 22 for n from
    1 to 10. *)
Theorem max_comparisons_values :
  (∀ n, (n < 0)%Z → merge_insertion_max_comparisons n = Err NegativeArgument)
  ∧ merge_insertion_max_comparisons 0 = Ok 0%Z
  ∧ map merge_insertion_max_comparisons [1; 2; 3; 4; 5; 6; 7; 8; 9; 10]%Z
    = map Ok [0; 1; 3; 5; 7; 10; 13; 16; 19; 22]%Z.
Proof.
  split; [|split; reflexivity].
  intros n Hn. unfold merge_insertion_max_comparisons.
  by destruct (Z.ltb_spec n 0); [|lia].
Qed.

Lemma max_comparisons_values_witness :
  merge_insertion_max_comparisons (-1) = Err NegativeArgument.
Proof. apply max_comparisons_values. lia. Defined.

(** ** Binary insertion search *)

(** C3: for a strictly ascending sequence and an item that is not in it,
    [_bin_insert_index] returns the one index at which inserting the item
    keeps the sequence ascending; for the empty sequence it returns 0 without
    awaiting the comparator, and for a single-element sequence it awaits the
    comparator once, on (item, element), and returns 0 or 1 by its answer. *)
Theorem bin_insert_index_correct {T} `{EqDecision T}
    (comp : T → T → bool) (S : list T) (item : T) :
  consistent comp (item :: S) → ascending comp S → item ∉ S →
  (∃ i log,
      run comp (bin_insert_index S item) = (Ok i, log)
      ∧ (0 <= i <= py_len S)%Z
      ∧ ascending comp (py_insert S i item)
      ∧ ∀ j, (0 <= j <= py_len S)%Z → ascending comp (py_insert S j item) → j = i)
  ∧ (S = [] → bin_insert_index S item = Ret 0%Z)
  ∧ (∀ s, S = [s] →
       bin_insert_index S item = Await item s (λ r, Ret (if r then 0 else 1)%Z)).
Proof.
  intros Hcons Hasc Hnotin. split; [|split].
  - pose proof (run_runs comp (bin_insert_index S item)) as Hruns.
    pose proof (run_answers comp (bin_insert_index S item)) as Hans.
    destruct (run comp (bin_insert_index S item)) as [o log]. cbn [fst snd] in *.
    assert (S ⊆ item :: S) as Hsub by (intros ??; by right).
    assert (item ∈ item :: S) as HiD by (by left).
    pose proof (ascending_below comp _ S Hsub Hasc) as Hs.
    destruct (bin_insert_index_sorted comp (item :: S) S item log o)
      as (i & -> & Hi & Hbefore & Hafter); try done.
    exists (Z.of_nat i), log. split; [done|]. unfold py_len. split; [lia|]. split.
    + rewrite py_insert_nat by done. eapply below_ascending.
      by apply StronglySorted_insert.
    + intros j Hj Hascj. replace j with (Z.of_nat (Z.to_nat j)) in * by lia.
      set (j' := Z.to_nat j) in *. f_equal.
      rewrite py_insert_nat in Hascj by lia.
      apply StronglySorted_insert_inv in Hascj as [Hjb Hja].
      rewrite Forall_forall in Hbefore, Hafter, Hjb, Hja.
      destruct (Nat.lt_trichotomy j' i) as [Hlt|[?|Hgt]]; [|done|].
      * destruct (lookup_lt_is_Some_2 S j') as [u Hu]; [lia|].
        assert (below comp (item :: S) u item) as Hb.
        { apply Hbefore, list_elem_of_lookup. exists j'. by rewrite lookup_take_lt. }
        destruct (Hja u) as [_ Hc].
        { apply list_elem_of_lookup. exists 0. by rewrite lookup_drop, Nat.add_0_r. }
        destruct Hb as (Hu1 & Hu2 & Hne & Hc').
        rewrite (consistent_asym _ _ Hcons u item) in Hc' by done.
        by rewrite Hc in Hc'.
      * destruct (lookup_lt_is_Some_2 S i) as [u Hu]; [lia|].
        assert (below comp (item :: S) item u) as Hb.
        { apply Hafter, list_elem_of_lookup. exists 0. by rewrite lookup_drop, Nat.add_0_r. }
        destruct (Hjb u) as [_ Hc].
        { apply list_elem_of_lookup. exists i. by rewrite lookup_take_lt. }
        destruct Hb as (Hu1 & Hu2 & Hne & Hc').
        rewrite (consistent_asym _ _ Hcons item u) in Hc' by done.
        by rewrite Hc in Hc'.
  - by intros ->.
  - intros s ->. unfold bin_insert_index.
    destruct (decide (item ∈ [s])) as [?|_]; [done|]. reflexivity.
Qed.

Lemma nat_lt_consistent (D : list nat) : consistent Nat.ltb D.
Proof.
  split.
  - intros x y _ _ Hne. destruct (Nat.ltb_spec x y), (Nat.ltb_spec y x); cbn; lia.
  - intros x y z _ _ _ _ _ Hxy Hyz.
    apply Nat.ltb_lt in Hxy, Hyz. apply Nat.ltb_lt. lia.
Qed.

Lemma bin_insert_index_correct_witness :
  ∃ i log,
    run Nat.ltb (bin_insert_index example_targets 7) = (Ok i, log)
    ∧ (0 <= i <= py_len example_targets)%Z
    ∧ ascending Nat.ltb (py_insert example_targets i 7)
    ∧ ∀ j, (0 <= j <= py_len example_targets)%Z →
           ascending Nat.ltb (py_insert example_targets j 7) → j = i.
Proof.
  apply (bin_insert_index_correct Nat.ltb example_targets 7).
  - apply nat_lt_consistent.
  - unfold ascending, example_targets. repeat constructor; lia.
  - intros Hin. by repeat (apply elem_of_cons in Hin as [?|Hin]; [done|]); inversion Hin.
Defined.

(** C10: whatever the comparator answers, a call of [_bin_insert_index] on a
    sequence of m >= 1 items that does not hold the item awaits the
    comparator at most floor(log2 m) + 1 times, and exactly once for m = 1. *)
Theorem bin_insert_index_comparisons {T} `{EqDecision T}
    (S : list T) (item : T) (log : list (@query T)) (o : outcome Z) :
  1 ≤ length S → item ∉ S →
  runs (bin_insert_index S item) log o →
  (Z.of_nat (length log) <= Z.log2 (py_len S) + 1)%Z
  ∧ (length S = 1 → length log = 1).
Proof.
  intros Hm Hnotin Hruns.
  apply bin_insert_index_runs in Hruns as (i & _ & _ & Hcost & Hone & _); [|done].
  split; [|done]. unfold py_len in *.
  rewrite Z.log2_up_eqn in Hcost by lia.
  replace (Z.pred (Z.of_nat (length S) + 1)) with (Z.of_nat (length S)) in Hcost; lia.
Qed.

Lemma bin_insert_index_comparisons_witness :
  (Z.of_nat (length example_log) <= Z.log2 (py_len example_targets) + 1)%Z
  ∧ (length example_targets = 1 → length example_log = 1).
Proof.
  apply (bin_insert_index_comparisons example_targets 7 example_log (Ok 3%Z)).
  - cbn. lia.
  - intros Hin. by repeat (apply elem_of_cons in Hin as [?|Hin]; [done|]); inversion Hin.
  - pose proof (run_runs Nat.ltb (bin_insert_index example_targets 7)) as Hr.
    vm_compute in Hr. exact Hr.
Defined.

(** ** The driver *)

(** C1: on an input without duplicate values, under a comparator consistent
    with a strict total order on its items, [merge_insertion_sort] returns a
    permutation of the input that is ascending under the comparator, and the
    comparator is called at most [merge_insertion_max_comparisons(n)] times. *)
Theorem merge_insertion_sort_correct {T} `{EqDecision T}
    (comp : T → T → bool) (array : list T) :
  NoDup array → consistent comp array →
  ∃ out log bound,
    run comp (merge_insertion_sort array) = (Ok out, log)
    ∧ out ≡ₚ array
    ∧ ascending comp out
    ∧ merge_insertion_max_comparisons (py_len array) = Ok bound
    ∧ (Z.of_nat (length log) <= bound)%Z.
Proof.
  intros Hnd Hcons.
  pose proof (run_runs comp (merge_insertion_sort array)) as Hruns.
  pose proof (run_answers comp (merge_insertion_sort array)) as Hans.
  destruct (run comp (merge_insertion_sort array)) as [o log]. cbn [fst snd] in *.
  apply merge_insertion_sort_runs in Hruns
    as (out & -> & Hperm & Hcost & _ & _ & Hsorted); [|done].
  exists out, log, (sum_cost (length array)). split; [done|]. split; [done|].
  split; [|split; [apply max_comparisons_sum|done]].
  eapply below_ascending. by apply (Hsorted comp array).
Qed.

Lemma merge_insertion_sort_correct_witness :
  ∃ out log bound,
    run Nat.ltb (merge_insertion_sort example_array) = (Ok out, log)
    ∧ out ≡ₚ example_array
    ∧ ascending Nat.ltb out
    ∧ merge_insertion_max_comparisons (py_len example_array) = Ok bound
    ∧ (Z.of_nat (length log) <= bound)%Z.
Proof.
  apply (merge_insertion_sort_correct Nat.ltb example_array).
  - exact (bool_decide_unpack (NoDup example_array) I).
  - apply nat_lt_consistent.
Defined.

(** C2: on an input without duplicate values, whatever the comparator
    answers, no unordered pair of items is submitted to the comparator twice
    in one invocation of [merge_insertion_sort], recursive calls included. *)
Theorem no_pair_compared_twice {T} `{EqDecision T}
    (array : list T) (log : list (@query T)) (o : outcome (list T)) :
  NoDup array →
  runs (merge_insertion_sort array) log o →
  no_repeat log.
Proof.
  intros Hnd Hruns.
  apply merge_insertion_sort_runs in Hruns as (out & _ & _ & _ & Hboth & _); [|done].
  by apply both_NoDup_no_repeat.
Qed.

Lemma no_pair_compared_twice_witness :
  no_repeat (run Nat.ltb (merge_insertion_sort example_array)).2.
Proof.
  apply (no_pair_compared_twice example_array _
           (run Nat.ltb (merge_insertion_sort example_array)).1).
  - exact (bool_decide_unpack (NoDup example_array) I).
  - apply run_runs.
Defined.

(** C6: [merge_insertion_sort] raises the duplicate-items error exactly when
    the input holds two equal items, and then it raises before the
    comparator is ever awaited. *)
Theorem duplicate_items_error {T} `{EqDecision T} (array : list T) :
  ((∃ log, runs (merge_insertion_sort array) log (Err DuplicateItems))
   ↔ ¬ NoDup array)
  ∧ (¬ NoDup array → merge_insertion_sort array = Raise DuplicateItems).
Proof.
  split; [split|].
  - intros (log & Hruns) Hnd.
    by apply merge_insertion_sort_runs in Hruns as (out & ? & _).
  - intros Hdup. exists []. rewrite merge_insertion_sort_dup by done. constructor.
  - apply merge_insertion_sort_dup.
Qed.

Lemma duplicate_items_error_witness :
  merge_insertion_sort [1; 2; 2] = Raise DuplicateItems.
Proof.
  apply (duplicate_items_error [1; 2; 2]).
  intros Hnd. apply NoDup_cons in Hnd as [_ Hnd].
  apply NoDup_cons in Hnd as [Hin _]. apply Hin. by left.
Defined.

(** ** The main chain *)

(** C9: in an invocation of [merge_insertion_sort] on an input of at least
    three distinct items, under a comparator consistent with a strict total
    order, the placed (first) items of the slots of the main chain are
    ascending when the chain is built from the recursively sorted larger
    items, and after every insertion of a queued item; the placed items of
    the last state are the result of the invocation. *)
Theorem main_chain_sorted {T} `{EqDecision T}
    (comp : T → T → bool) (array : list T) :
  NoDup array → consistent comp array → 3 ≤ length array →
  ∃ pairs larger st0 queue st1 states out l1 l2 l3,
    run comp (pair_up array) = (Ok pairs, l1)
    ∧ run comp (merge_insertion_sort (dict_keys pairs)) = (Ok larger, l2)
    ∧ build_main_chain pairs larger = Ret st0
    ∧ (∃ P0, firsts (heap st0) (chain st0) = Ret P0 ∧ ascending comp P0)
    ∧ insertion_queue array st0 = Ret (queue, st1)
    ∧ chain st1 = chain st0
    ∧ length states = S (length queue)
    ∧ states !! 0 = Some st1
    ∧ (∀ i q r st, queue !! i = Some (q, r) → states !! i = Some st →
         ∃ st' l, run comp (insert_queued r st) = (Ok st', l)
                  ∧ states !! S i = Some st')
    ∧ Forall (λ st, ∃ P, firsts (heap st) (chain st) = Ret P ∧ ascending comp P)
             states
    ∧ (∃ stn, last states = Some stn ∧ firsts (heap stn) (chain stn) = Ret out)
    ∧ run comp (merge_insertion_sort array) = (Ok out, l1 ++ l2 ++ l3).
Proof.
  intros Hnd Hcons Hlen.
  (* pairing *)
  destruct (run comp (pair_up array)) as [o1 l1] eqn:Hrun1.
  pose proof Hrun1 as Hrun1'. apply run_spec in Hrun1' as [Hr1 Ha1].
  apply pair_up_runs in Hr1 as (pairs & -> & Hpaired & Hsub); [|done].
  pose proof (paired_items _ _ Hpaired) as Hkv. rewrite Hsub in Hkv.
  assert (NoDup (submitted l1)) as Hnds.
  { rewrite Hsub. rewrite <-(take_drop (2 * (length array / 2)) array) in Hnd.
    by apply NoDup_app in Hnd as [? _]. }
  assert (submitted l1 ⊆ array) as Hsa.
  { rewrite Hsub. intros z. apply elem_of_take_1. }
  assert (NoDup (dict_keys pairs)) as Hndk.
  { assert (NoDup (map fst pairs ++ map snd pairs)) as Hn by (by rewrite Hkv, <-Hsub).
    by apply NoDup_app in Hn as [? _]. }
  assert (dict_keys pairs ⊆ array) as Hka.
  { intros z Hz. apply Hsa. rewrite Hsub, <-Hkv. apply elem_of_app. by left. }
  pose proof (paired_below comp array pairs l1 Hcons Hsa Hnds Hpaired Ha1) as Hbelow.
  (* the recursive call *)
  destruct (run comp (merge_insertion_sort (dict_keys pairs))) as [o2 l2] eqn:Hrun2.
  pose proof Hrun2 as Hrun2'. apply run_spec in Hrun2' as [Hr2 Ha2].
  apply merge_insertion_sort_runs in Hr2
    as (larger & -> & Hlarger & _ & _ & _ & Hsorted); [|done].
  specialize (Hsorted comp array Hcons Hka Ha2).
  (* the chain and the queue *)
  destruct (merge_setup array pairs l1 Hnd Hlen Hpaired Hsub larger Hlarger)
    as (sm0 & lo_list & st0 & queue & st1 & Y0 & Hleftover & Hndkv & Hsm0
        & Hbuild & Hassert & Hfirsts0 & Hq_run & Hchain & HYlen & Hqlen & _ & Hinv0).
  assert (StronglySorted (below comp array) (sm0 :: larger)) as Hs0.
  { destruct larger as [|la0 rest]; [by apply StronglySorted_pair_nil|].
    apply StronglySorted_cons. split; [|done].
    apply StronglySorted_cons in Hsorted as [Hla0 _].
    pose proof (Hbelow _ _ (Hsm0 la0 eq_refl)) as Hb0.
    constructor; [done|].
    eapply Forall_impl; [exact Hla0|]. intros z Hz. by eapply below_trans. }
  (* the insertions *)
  assert (Hinv0' : chain_inv pairs (head lo_list) array st1
            (sm0 :: larger) (Y0 ++ []) (queue ++ []) 0).
  { by rewrite !app_nil_r. }
  destruct (insert_trace pairs (head lo_list) array comp array Hnd Hndkv Hleftover
              Hcons ltac:(done) Hbelow queue [] Y0 [] st1 _ 0 HYlen Hinv0' Hs0)
    as (states & stn & Pn & l3 & Hslen & Hsteps & Hall & Hlast & Hrun3 & Hinvn).
  destruct Hinvn as [Hheadsn _ _ _ Hsinglen Hitemsn].
  exists pairs, larger, st0, queue, st1, (st1 :: states), Pn, l1, l2, l3.
  split; [done|]. split; [done|]. split; [done|]. split.
  { exists (sm0 :: larger). split; [done|]. by eapply below_ascending. }
  split; [done|]. split; [done|]. split; [cbn; lia|]. split; [done|].
  split; [exact Hsteps|]. split.
  { eapply Forall_impl; [exact Hall|]. intros s (P' & HP' & Hs').
    exists P'. split; [done|]. by eapply below_ascending. }
  split.
  { exists stn. split; [done|]. by apply firsts_heads. }
  (* the whole run *)
  unfold merge_insertion_sort.
  destruct (length array) as [|fuel] eqn:Hfuel; [lia|].
  rewrite sort_rec_unfold by (done || lia).
  rewrite run_bind, Hrun1, run_bind.
  rewrite run_sort_rec_fuel, Hrun2.
  2:{ done. }
  2:{ unfold dict_keys. rewrite length_map, (paired_length _ _ Hpaired).
      pose proof (submitted_length l1) as Hs. rewrite Hsub, length_take in Hs.
      halve (length array). lia. }
  unfold merge_phase. rewrite Hbuild. cbn [bind]. rewrite Hassert.
  cbn [py_assert bind]. rewrite Hq_run. cbn [bind].
  rewrite run_bind, Hrun3.
  rewrite all_len_true.
  2:{ intros r Hr. destruct (Hsinglen r Hr) as (x & Hx).
      { cbn. apply not_elem_of_nil. }
      by exists [x]. }
  cbn [py_assert bind]. rewrite (firsts_heads _ _ _ Hheadsn). cbn [run].
  by rewrite app_nil_r.
Qed.

Lemma main_chain_sorted_witness :
  ∃ pairs larger st0 queue st1 states out l1 l2 l3,
    run Nat.ltb (pair_up example_array) = (Ok pairs, l1)
    ∧ run Nat.ltb (merge_insertion_sort (dict_keys pairs)) = (Ok larger, l2)
    ∧ build_main_chain pairs larger = Ret st0
    ∧ (∃ P0, firsts (heap st0) (chain st0) = Ret P0 ∧ ascending Nat.ltb P0)
    ∧ insertion_queue example_array st0 = Ret (queue, st1)
    ∧ chain st1 = chain st0
    ∧ length states = S (length queue)
    ∧ states !! 0 = Some st1
    ∧ (∀ i q r st, queue !! i = Some (q, r) → states !! i = Some st →
         ∃ st' l, run Nat.ltb (insert_queued r st) = (Ok st', l)
                  ∧ states !! S i = Some st')
    ∧ Forall (λ st, ∃ P, firsts (heap st) (chain st) = Ret P
                         ∧ ascending Nat.ltb P) states
    ∧ (∃ stn, last states = Some stn ∧ firsts (heap stn) (chain stn) = Ret out)
    ∧ run Nat.ltb (merge_insertion_sort example_array) = (Ok out, l1 ++ l2 ++ l3).
Proof.
  apply (main_chain_sorted Nat.ltb example_array).
  - exact (bool_decide_unpack (NoDup example_array) I).
  - apply nat_lt_consistent.
  - cbn. lia.
Defined.

(** * Further properties of the code *)

(** ** Binary insertion search under arbitrary answers *)

Section BinarySearchAnswers.

Context {T : Type} `{EqDecision T}.
Implicit Types (x y item : T) (array : list T) (log : list (@query T)).

(** Every answer the loop received agrees with the index it returns: an
    element reported above the item lies at or after the index, an element
    reported below it lies before the index. *)
Lemma bin_search_loop_answers fuel array item left right log i :
  (0 <= left)%Z → (left <= right + 1)%Z → (right < py_len array)%Z →
  (right - left + 1 <= Z.of_nat fuel)%Z →
  runs (bin_search_loop fuel array item left right) log (Ok i) →
  Forall (λ q : query,
            ∃ k, (left <= k <= right)%Z ∧ array !! Z.to_nat k = Some q.1.2
                 ∧ if q.2 then (i <= k)%Z else (k < i)%Z) log.
Proof.
  revert left right log.
  induction fuel as [|fuel IH]; intros left right log Hl Hlr Hr Hfuel Hruns.
  - cbn [bin_search_loop] in Hruns.
    destruct (Z.leb_spec left right) as [?|Hgt]; [lia|].
    runs_inv Hruns. constructor.
  - cbn [bin_search_loop] in Hruns.
    destruct (Z.leb_spec left right) as [Hle|Hgt].
    2:{ runs_inv Hruns. constructor. }
    set (mid := (left + (right - left) / 2)%Z) in *.
    assert (left <= mid <= right)%Z as Hmid.
    { unfold mid. pose proof (Z.div_pos (right - left) 2 ltac:(lia) ltac:(lia)).
      pose proof (Z.mul_div_le (right - left) 2 ltac:(lia)). lia. }
    rewrite py_index_nonneg in Hruns by lia.
    destruct (array !! Z.to_nat mid) as [x|] eqn:Hx.
    2:{ apply lookup_ge_None in Hx. unfold py_len in Hr. lia. }
    cbn [lift_opt bind] in Hruns.
    apply runs_await_inv in Hruns as (r & log' & -> & Hruns).
    destruct r.
    + pose proof Hruns as Hres.
      apply bin_search_loop_runs in Hres as (i' & Hi' & Hrange & _); [|lia..].
      injection Hi' as ->.
      apply IH in Hruns; [|lia..].
      constructor.
      { exists mid. cbn. split; [lia|]. split; [done|lia]. }
      eapply Forall_impl; [exact Hruns|]. intros q (k & ? & ? & ?).
      exists k. split; [lia|]. done.
    + pose proof Hruns as Hres.
      apply bin_search_loop_runs in Hres as (i' & Hi' & Hrange & _); [|lia..].
      injection Hi' as ->.
      apply IH in Hruns; [|lia..].
      constructor.
      { exists mid. cbn. split; [lia|]. split; [done|lia]. }
      eapply Forall_impl; [exact Hruns|]. intros q (k & ? & ? & ?).
      exists k. split; [lia|]. done.
Qed.

End BinarySearchAnswers.

(** X1: [_ident_find] returns the position of the first reference that is
    the wanted object, whatever the objects hold, and raises its error
    exactly when no reference of the sequence is that object. *)
Theorem ident_find_first {T} (array : list nat) (item : nat) :
  (∀ i, ident_find (T:=T) array item = Ret i
        ↔ array !! i = Some item ∧ ∀ j, j < i → array !! j ≠ Some item)
  ∧ (ident_find (T:=T) array item = Raise IdentNotFound ↔ item ∉ array).
Proof.
  unfold ident_find.
  destruct (list_find (λ e, e = item) array) as [[i' r']|] eqn:Hf.
  - apply list_find_Some in Hf as (Hi' & -> & Hfirst). split.
    + intros i. split.
      * intros [= <-]. split; [done|]. intros j Hj Hlook. by eapply Hfirst.
      * intros [Hi Hbefore]. f_equal.
        destruct (Nat.lt_trichotomy i i') as [Hlt|[->|Hgt]]; [|done|].
        -- exfalso. by eapply Hfirst.
        -- exfalso. by eapply Hbefore.
    + split; [done|]. intros Hnot. exfalso. apply Hnot.
      by eapply list_elem_of_lookup_2.
  - apply list_find_None in Hf. rewrite Forall_forall in Hf. split.
    + intros i. split; [done|]. intros [Hi _]. exfalso.
      eapply Hf; [|done]. by eapply list_elem_of_lookup_2.
    + split; [|done]. intros _ Hin. by eapply Hf.
Qed.

(** X2: [_bin_insert_index] raises its error exactly when the item is
    already in the (then non-empty) sequence, and it does so before the
    comparator is awaited; otherwise every run returns an index. *)
Theorem bin_insert_index_item_present {T} `{EqDecision T}
    (array : list T) (item : T) :
  (item ∈ array → bin_insert_index array item = Raise ItemInTarget)
  ∧ (∀ log o, runs (bin_insert_index array item) log o →
       (o = Err ItemInTarget ↔ item ∈ array)
       ∧ (item ∉ array → ∃ i, o = Ok i)).
Proof.
  split.
  - intros Hin. unfold bin_insert_index.
    destruct array as [|a array]; [by apply elem_of_nil in Hin|].
    by destruct (decide (item ∈ a :: array)).
  - intros log o Hruns. destruct (decide (item ∈ array)) as [Hin|Hnot].
    + unfold bin_insert_index in Hruns.
      destruct array as [|a array]; [by apply elem_of_nil in Hin|].
      destruct (decide (item ∈ a :: array)); [|done].
      runs_inv Hruns. done.
    + apply bin_insert_index_runs in Hruns as (i & -> & _); [|done].
      split; [done|]. intros _. by eexists.
Qed.

(** X3: whatever the comparator answers, for an item that is not in the
    sequence [_bin_insert_index] returns an index between 0 and the length;
    it compares the item with elements of the sequence only, with none of
    them twice, and every answer it received agrees with the returned index:
    an element answered to rank above the item is at or after the index, an
    element answered to rank below it is before the index. *)
Theorem bin_insert_index_any_answers {T} `{EqDecision T}
    (array : list T) (item : T) (log : list (@query T)) (o : outcome Z) :
  item ∉ array →
  runs (bin_insert_index array item) log o →
  ∃ i : nat, o = Ok (Z.of_nat i) ∧ i ≤ length array
    ∧ Forall (λ q : query,
                q.1.1 = item
                ∧ ∃ k, array !! k = Some q.1.2
                       ∧ if q.2 then i ≤ k else k < i) log
    ∧ (NoDup array → NoDup (map (λ q : query, q.1.2) log)).
Proof.
  intros Hnot Hruns. pose proof Hruns as Hres.
  apply bin_insert_index_runs in Hres as (i & -> & Hi & _ & _ & Hq & Hnd & _); [|done].
  exists i. split; [done|]. split; [done|]. split; [|done].
  unfold bin_insert_index in Hruns.
  destruct array as [|a array].
  { apply runs_ret_inv in Hruns as [-> _]. constructor. }
  destruct (decide (item ∈ a :: array)); [done|].
  destruct (Z.eqb_spec (py_len (a :: array)) 1) as [Hone|Hmore].
  - destruct array; [|unfold py_len in Hone; cbn in Hone; lia].
    cbn in Hruns. apply runs_await_inv in Hruns as (r & log' & -> & Hruns).
    destruct r; apply runs_ret_inv in Hruns as [-> Hi0]; injection Hi0 as Hi0;
      (constructor; [|constructor]); cbn; (split; [done|]); exists 0;
      (split; [done|]).
    + assert (i = 0) as -> by lia. done.
    + assert (i = 1) as -> by lia. lia.
  - apply bin_search_loop_answers in Hruns; [|unfold py_len in *; cbn [length] in *; lia..].
    rewrite Forall_forall in Hq, Hruns. apply Forall_forall. intros q Hin.
    destruct (Hq q Hin) as [Hitem _]. split; [done|].
    destruct (Hruns q Hin) as (k & Hk & Hlook & Hans).
    exists (Z.to_nat k). split; [done|]. destruct (q.2); lia.
Qed.

Lemma bin_insert_index_any_answers_witness :
  ∃ i : nat, Ok 3%Z = Ok (Z.of_nat i) ∧ i ≤ length example_targets
    ∧ Forall (λ q : query,
                q.1.1 = 7
                ∧ ∃ k, example_targets !! k = Some q.1.2
                       ∧ if q.2 then i ≤ k else k < i) example_log
    ∧ (NoDup example_targets → NoDup (map (λ q : query, q.1.2) example_log)).
Proof.
  apply (bin_insert_index_any_answers example_targets 7 example_log (Ok 3%Z)).
  - intros Hin. by repeat (apply elem_of_cons in Hin as [?|Hin]; [done|]); inversion Hin.
  - pose proof (run_runs Nat.ltb (bin_insert_index example_targets 7)) as Hr.
    vm_compute in Hr. exact Hr.
Defined.

(** ** The group sizes and the insertion order *)

(** X5: the emitted group sizes follow the linear recurrence
    g(k+2) = g(k+1) + 2 g(k), have the closed form
    3 g(k) = 2^(k+1) + 2 for odd k and 2^(k+1) - 2 for even k, are even,
    and never decrease. *)
Theorem group_sizes_closed_form (k : nat) :
  1 ≤ k →
  (emitted (k + 2) = emitted (k + 1) + 2 * emitted k)%Z
  ∧ (3 * emitted k = 2 ^ (Z.of_nat k + 1) + (if Nat.even k then -2 else 2))%Z
  ∧ (emitted k mod 2 = 0)%Z
  ∧ (emitted k <= emitted (k + 1))%Z.
Proof.
  intros Hk. rewrite !emitted_A014113 by lia.
  pose proof (A014113_adjacent k) as H1.
  pose proof (A014113_adjacent (S k)) as H2.
  replace (k + 1) with (S k) by lia. replace (k + 2) with (S (S k)) by lia.
  rewrite !Nat2Z.inj_succ in *. rewrite !Z.pow_succ_r in * by lia.
  destruct (group_closed_form k) as (e & He & Hform & _).
  destruct (group_closed_form (S k)) as (e' & He' & Hform' & _).
  rewrite !Nat2Z.inj_succ in *.
  replace (Z.succ (Z.of_nat k) + 1)%Z with (Z.succ (Z.succ (Z.of_nat k))) in * by lia.
  replace (Z.of_nat k + 1)%Z with (Z.succ (Z.of_nat k)) in * by lia.
  rewrite !Z.pow_succ_r in * by lia.
  assert (0 < 2 ^ Z.of_nat k)%Z as Hpos by (apply Z.pow_pos_nonneg; lia).
  split; [lia|]. split.
  { destruct (Nat.even k) eqn:Hev.
    - apply Nat.even_spec in Hev as [h ->].
      destruct He as [[-> _]|[_ Hodd]]; [lia|]. exfalso. zlia.
    - assert (Nat.odd k = true) as Hodd by (by rewrite <-Nat.negb_even, Hev).
      apply Nat.odd_spec in Hodd as [h ->].
      destruct He as [[_ Heven]|[-> _]]; [|lia]. exfalso. zlia. }
  split.
  { destruct He as [[-> _]|[-> _]]; zlia. }
  destruct He as [[-> _]|[-> _]], He' as [[-> _]|[-> _]]; lia.
Qed.

Lemma group_sizes_closed_form_witness :
  (emitted (3 + 2) = emitted (3 + 1) + 2 * emitted 3)%Z
  ∧ (3 * emitted 3 = 2 ^ (Z.of_nat 3 + 1) + (if Nat.even 3 then -2 else 2))%Z
  ∧ (emitted 3 mod 2 = 0)%Z
  ∧ (emitted 3 <= emitted (3 + 1))%Z.
Proof. apply (group_sizes_closed_form 3). lia. Defined.



(** ** The bound as a sum *)



(** ** The driver under arbitrary answers *)

Section DriverFacts.

Context {T : Type} `{EqDecision T}.
Implicit Types (array : list T) (log : list (@query T)).

Lemma both_distinct log (q : @query T) :
  NoDup (both log) → q ∈ log → q.1.1 ≠ q.1.2.
Proof.
  intros Hnd Hin Heq.
  apply list_elem_of_split in Hin as (l1 & l2 & ->).
  rewrite both_app in Hnd. apply NoDup_app in Hnd as (_ & _ & Hnd).
  change (q :: l2) with ([q] ++ l2) in Hnd. rewrite both_app in Hnd.
  apply NoDup_app in Hnd as (Hnd & _ & _). cbn in Hnd. rewrite Heq in Hnd.
  apply NoDup_cons in Hnd as [Hnot _]. apply Hnot. by left.
Qed.

Lemma StronglySorted_reverse {A} (R : relation A) (l : list A) :
  StronglySorted R l → StronglySorted (flip R) (reverse l).
Proof.
  induction 1 as [|x l _ IH Hx]; [constructor|].
  rewrite reverse_cons. apply StronglySorted_app_2; [|done|repeat constructor].
  intros x1 x2 H1 H2. apply list_elem_of_singleton in H2 as ->.
  rewrite Forall_forall in Hx. apply Hx. by apply elem_of_reverse.
Qed.

Lemma StronglySorted_weaken {A} (R R' : relation A) (l : list A) :
  (∀ x y, R x y → R' x y) → StronglySorted R l → StronglySorted R' l.
Proof.
  intros Himpl. induction 1 as [|x l _ IH Hx]; constructor; [done|].
  eapply Forall_impl; [exact Hx|]. intros y. apply Himpl.
Qed.

Lemma consistent_flip (comp : T → T → bool) D :
  consistent comp D → consistent (λ x y, comp y x) D.
Proof.
  intros [Hasym Htrans]. split.
  - intros x y Hx Hy Hne. by apply Hasym.
  - intros x y z Hx Hy Hz Hxy Hyz H1 H2. by apply (Htrans z y x).
Qed.

Lemma sorted_perm_eq (comp : T → T → bool) D (l1 l2 : list T) :
  consistent comp D →
  StronglySorted (below comp D) l1 → StronglySorted (below comp D) l2 →
  l1 ≡ₚ l2 → l1 = l2.
Proof.
  intros Hcons H1 H2 Hperm.
  apply (StronglySorted_unique_strong (below comp D)); [|done..].
  intros x1 x2 _ _ Hb1 Hb2. exfalso. by eapply below_asym.
Qed.

End DriverFacts.

(** X7: on an input without duplicates, whatever the comparator answers,
    every tuple that [merge_insertion_sort] submits to the comparator holds
    two different items of the input. *)
Theorem comparator_arguments {T} `{EqDecision T}
    (array : list T) (log : list (@query T)) (o : outcome (list T)) :
  NoDup array →
  runs (merge_insertion_sort array) log o →
  Forall (λ q : query, q.1.1 ∈ array ∧ q.1.2 ∈ array ∧ q.1.1 ≠ q.1.2) log.
Proof.
  intros Hnd Hruns.
  apply merge_insertion_sort_runs in Hruns
    as (out & _ & _ & _ & Hboth & Hmem & _); [|done].
  apply Forall_forall. intros [[a b] r] Hin. cbn.
  destruct (Hmem a b) as [Ha Hb].
  { apply elem_of_both. exists r. by left. }
  split; [done|]. split; [done|].
  exact (both_distinct log (a, b, r) Hboth Hin).
Qed.

Lemma comparator_arguments_witness :
  Forall (λ q : query, q.1.1 ∈ example_array ∧ q.1.2 ∈ example_array
                       ∧ q.1.1 ≠ q.1.2)
         (run Nat.ltb (merge_insertion_sort example_array)).2.
Proof.
  apply (comparator_arguments example_array _
           (run Nat.ltb (merge_insertion_sort example_array)).1).
  - exact (bool_decide_unpack (NoDup example_array) I).
  - apply run_runs.
Defined.

(** X8: on an input without duplicates, whatever the comparator answers -
    consistently or not - every run of [merge_insertion_sort] ends without
    an exception, returns a list that holds every input item exactly once,
    and has called the comparator at most
    [merge_insertion_max_comparisons(n)] times. *)
Theorem merge_insertion_sort_any_answers {T} `{EqDecision T}
    (array : list T) (log : list (@query T)) (o : outcome (list T)) :
  NoDup array →
  runs (merge_insertion_sort array) log o →
  ∃ out bound,
    o = Ok out ∧ out ≡ₚ array ∧ NoDup out
    ∧ merge_insertion_max_comparisons (py_len array) = Ok bound
    ∧ (Z.of_nat (length log) <= bound)%Z.
Proof.
  intros Hnd Hruns.
  apply merge_insertion_sort_runs in Hruns
    as (out & -> & Hperm & Hcost & _); [|done].
  exists out, (sum_cost (length array)). split; [done|]. split; [done|].
  split; [by rewrite Hperm|]. split; [apply max_comparisons_sum|done].
Qed.

Lemma merge_insertion_sort_any_answers_witness :
  ∃ out bound,
    (run (λ _ _, true) (merge_insertion_sort example_array)).1 = Ok out
    ∧ out ≡ₚ example_array ∧ NoDup out
    ∧ merge_insertion_max_comparisons (py_len example_array) = Ok bound
    ∧ (Z.of_nat (length (run (λ _ _, true)
                           (merge_insertion_sort example_array)).2) <= bound)%Z.
Proof.
  apply (merge_insertion_sort_any_answers example_array).
  - exact (bool_decide_unpack (NoDup example_array) I).
  - apply run_runs.
Defined.

(** X9: an input of at most one item is returned as it is, without any
    comparison; an input of two different items costs the one comparison of
    the first with the second and is returned in the given order if the
    comparator answers 1, swapped otherwise; an input of two equal items
    raises the duplicate error. *)
Theorem short_inputs {T} `{EqDecision T} (array : list T) :
  (length array ≤ 1 → merge_insertion_sort array = Ret array)
  ∧ (∀ a b, array = [a; b] → a ≠ b →
       merge_insertion_sort array
       = Await a b (λ r, Ret (if r then [a; b] else [b; a])))
  ∧ (∀ a, array = [a; a] → merge_insertion_sort array = Raise DuplicateItems).
Proof.
  split; [|split].
  - intros Hlen. destruct array as [|a [|b array]]; [done|done|cbn in Hlen; lia].
  - intros a b -> Hne. unfold merge_insertion_sort. cbn [length sort_rec].
    change (py_len [a; b] <? 1)%Z with false.
    change (py_len [a; b] =? 1)%Z with false.
    rewrite NoDup_len_check.
    2:{ apply NoDup_cons. split; [by intros ->%list_elem_of_singleton|].
        apply NoDup_singleton. }
    done.
  - intros a ->. apply merge_insertion_sort_dup.
    intros Hnd. apply NoDup_cons in Hnd as [Hnot _]. apply Hnot. by left.
Qed.

(** X10: on an input of at least two items without duplicates, whatever the
    comparator answers, the first floor(n/2) comparisons of
    [merge_insertion_sort] are those of the adjacent input items
    (array[0], array[1]), (array[2], array[3]), ..., in this order. *)
Theorem pairing_comparisons {T} `{EqDecision T}
    (array : list T) (log : list (@query T)) (o : outcome (list T)) :
  NoDup array → 2 ≤ length array →
  runs (merge_insertion_sort array) log o →
  ∃ PL rest,
    log = PL ++ rest
    ∧ length PL = length array / 2
    ∧ submitted PL = take (2 * (length array / 2)) array.
Proof.
  intros Hnd Hlen Hruns.
  destruct (decide (length array = 2)) as [Htwo|Hmore].
  - destruct array as [|a [|b [|c array]]]; try (cbn in Htwo; lia).
    unfold merge_insertion_sort in Hruns. cbn [length sort_rec] in Hruns.
    change (py_len [a; b] <? 1)%Z with false in Hruns.
    change (py_len [a; b] =? 1)%Z with false in Hruns.
    rewrite NoDup_len_check in Hruns by done.
    cbn in Hruns. apply runs_await_inv in Hruns as (r & log' & -> & Hruns).
    exists [(a, b, r)], log'. done.
  - unfold merge_insertion_sort in Hruns.
    destruct (length array) as [|fuel] eqn:Hfuel; [lia|].
    rewrite sort_rec_unfold in Hruns by (done || lia).
    apply runs_bind_inv in Hruns
      as [(pairs & l1 & l2 & Hpair & _ & ->)|(e & Hpair & _)].
    + apply pair_up_runs in Hpair as (pairs' & _ & Hpaired & Hsub); [|done].
      exists l1, l2. split; [done|]. rewrite Hfuel in Hsub. split; [|done].
      pose proof (submitted_length l1) as Hs. rewrite Hsub, length_take in Hs.
      rewrite Hfuel in Hs.
      pose proof (Nat.Div0.mul_div_le (S fuel) 2). lia.
    + apply pair_up_runs in Hpair as (pairs' & Hpairs & _); done.
Qed.

Lemma pairing_comparisons_witness :
  ∃ PL rest,
    (run Nat.ltb (merge_insertion_sort example_array)).2 = PL ++ rest
    ∧ length PL = length example_array / 2
    ∧ submitted PL = take (2 * (length example_array / 2)) example_array.
Proof.
  apply (pairing_comparisons example_array _
           (run Nat.ltb (merge_insertion_sort example_array)).1).
  - exact (bool_decide_unpack (NoDup example_array) I).
  - cbn. lia.
  - apply run_runs.
Defined.

(** X11: under a comparator consistent with a strict total order, the result
    of [merge_insertion_sort] does not depend on the order of the input: all
    arrangements of the same distinct items give the same list; an input
    that is already ascending is returned unchanged; with the comparator's
    arguments exchanged the result is the reversed list. *)
Theorem result_independent_of_input_order {T} `{EqDecision T}
    (comp : T → T → bool) (array array' : list T) :
  NoDup array → consistent comp array → array' ≡ₚ array →
  ∃ out,
    (run comp (merge_insertion_sort array)).1 = Ok out
    ∧ (run comp (merge_insertion_sort array')).1 = Ok out
    ∧ (ascending comp array → out = array)
    ∧ (run (λ x y, comp y x) (merge_insertion_sort array)).1 = Ok (reverse out).
Proof.
  intros Hnd Hcons Hperm.
  assert (∀ (c : T → T → bool) (l : list T), l ≡ₚ array → consistent c array →
            ∃ out, (run c (merge_insertion_sort l)).1 = Ok out ∧ out ≡ₚ array
                   ∧ StronglySorted (below c array) out) as Hsort.
  { intros c l Hl Hc.
    pose proof (run_runs c (merge_insertion_sort l)) as Hruns.
    pose proof (run_answers c (merge_insertion_sort l)) as Hans.
    apply merge_insertion_sort_runs in Hruns
      as (out & Hout & Hp & _ & _ & _ & Hsorted); [|by rewrite Hl].
    exists out. split; [done|]. split; [by rewrite Hp|].
    apply Hsorted; [done| |done]. intros z Hz. by rewrite <-Hl. }
  destruct (Hsort comp array (reflexivity _) Hcons) as (out & Hout & Hp & Hs).
  destruct (Hsort comp array' Hperm Hcons) as (out' & Hout' & Hp' & Hs').
  destruct (Hsort (λ x y, comp y x) array (reflexivity _) (consistent_flip _ _ Hcons))
    as (out'' & Hout'' & Hp'' & Hs'').
  exists out. split; [done|]. split; [|split].
  - rewrite Hout'. f_equal.
    apply (sorted_perm_eq comp array); [done..|by rewrite Hp, Hp'].
  - intros Hasc. apply (sorted_perm_eq comp array); [done|done| |done].
    by apply ascending_below.
  - rewrite Hout''. f_equal.
    apply (sorted_perm_eq (λ x y, comp y x) array);
      [by apply consistent_flip|done| |by rewrite reverse_Permutation, Hp, Hp''].
    apply StronglySorted_reverse in Hs.
    eapply StronglySorted_weaken; [|exact Hs].
    intros x y (Hy & Hx & Hne & Hc). split; [done|]. split; [done|].
    split; [by intros ->|]. exact Hc.
Qed.

Lemma result_independent_of_input_order_witness :
  ∃ out,
    (run Nat.ltb (merge_insertion_sort example_array)).1 = Ok out
    ∧ (run Nat.ltb (merge_insertion_sort (reverse example_array))).1 = Ok out
    ∧ (ascending Nat.ltb example_array → out = example_array)
    ∧ (run (λ x y, Nat.ltb y x) (merge_insertion_sort example_array)).1
      = Ok (reverse out).
Proof.
  apply (result_independent_of_input_order Nat.ltb example_array
           (reverse example_array)).
  - exact (bool_decide_unpack (NoDup example_array) I).
  - apply nat_lt_consistent.
  - apply reverse_Permutation.
Defined.

(** ** The checking comparator of the tests *)

Section TestCompFacts.

Context {T : Type} `{EqDecision T}.
Implicit Types (pm : list (T * list T)) (log L : list (@query T))
  (st : @checker T).

Lemma pair_map_has_add pm a b c d :
  pair_map_has (pair_map_add pm a b) c d = true
  ↔ (c = a ∧ d = b) ∨ pair_map_has pm c d = true.
Proof.
  induction pm as [|[k s] pm IH]; cbn [pair_map_add pair_map_has].
  - destruct (decide (a = c)) as [->|Hne].
    + rewrite bool_decide_eq_true, list_elem_of_singleton. split.
      * intros ->. by left.
      * by intros [[_ ->]|?].
    + split; [done|]. intros [[-> _]|?]; done.
  - destruct (decide (k = a)) as [->|Hka]; cbn [pair_map_has].
    + destruct (decide (a = c)) as [->|Hac].
      * rewrite !bool_decide_eq_true.
        destruct (bool_decide (b ∈ s)) eqn:Hb.
        -- apply bool_decide_eq_true in Hb. split; [by right|].
           by intros [[_ ->]|?].
        -- rewrite elem_of_app, list_elem_of_singleton. split.
           ++ intros [?| ->]; [by right|by left].
           ++ intros [[_ ->]|?]; [by right|by left].
      * split; [by right|]. intros [[-> _]|?]; done.
    + destruct (decide (k = c)) as [->|Hkc]; [|exact IH].
      split; [by right|]. intros [[-> _]|?]; done.
Qed.

Lemma both_snoc_NoDup L (x y : T) r :
  NoDup (both (L ++ [(x, y, r)]))
  ↔ NoDup (both L) ∧ x ≠ y
    ∧ (∀ r', (x, y, r') ∉ L) ∧ (∀ r', (y, x, r') ∉ L).
Proof.
  rewrite both_app. cbn [both flat_map app]. cbn [fst snd].
  rewrite NoDup_app. split.
  - intros (HL & Hdisj & Hq). split; [done|].
    apply NoDup_cons in Hq as [Hxy _]. split.
    { intros ->. apply Hxy. by left. }
    split; intros r' Hin.
    + apply (Hdisj (x, y)); [|by left]. apply elem_of_both. exists r'. by left.
    + apply (Hdisj (x, y)); [|by left]. apply elem_of_both. exists r'. by right.
  - intros (HL & Hne & H1 & H2). split; [done|]. split.
    + intros [a b] Hin Hq. apply elem_of_both in Hin as [r' Hin].
      apply elem_of_cons in Hq as [[= -> ->]|Hq].
      { destruct Hin as [Hin|Hin]; [by eapply H1|by eapply H2]. }
      apply list_elem_of_singleton in Hq as [= -> ->].
      destruct Hin as [Hin|Hin]; [by eapply H2|by eapply H1].
    + apply NoDup_cons. split; [|apply NoDup_singleton].
      intros Hin. apply list_elem_of_singleton in Hin as [= Hxy _]. done.
Qed.

Lemma both_prefix_NoDup L log :
  NoDup (both (L ++ log)) → NoDup (both L).
Proof. rewrite both_app. by intros [? _]%NoDup_app. Qed.

(** A checked run is the run against the comparator as long as the checks
    pass, and the checks pass exactly on the calls that keep the submitted
    pairs free of repetitions and their number within [max_calls]. *)
Lemma run_checked_spec {A} (comp : T → T → bool) (max_calls : Z)
    (m : prog (T:=T) A) st L :
  records st L →
  match run_checked (test_comp comp max_calls) m st with
  | (st', inr o) =>
      o = (run comp m).1
      ∧ (NoDup (both L) → NoDup (both (L ++ (run comp m).2)))
      ∧ ((run comp m).2 = []
         ∨ (Z.of_nat (length (L ++ (run comp m).2)) <= max_calls)%Z)
      ∧ records st' (L ++ (run comp m).2)
      ∧ comp_log st'
        = (λ l, l ++ map fst (run comp m).2) <$> comp_log st
  | (st', inl f) =>
      (run comp m).2 ≠ []
      ∧ ¬ (NoDup (both (L ++ (run comp m).2))
         ∧ (Z.of_nat (length (L ++ (run comp m).2)) <= max_calls)%Z)
  end.
Proof.
  revert st L. induction m as [a|e|x y k IH]; intros st L Hrec.
  - cbn. rewrite app_nil_r. split; [done|]. split; [done|]. split; [by left|].
    split; [done|]. destruct (comp_log st); cbn; [|done]. by rewrite app_nil_r.
  - cbn. rewrite app_nil_r. split; [done|]. split; [done|]. split; [by left|].
    split; [done|]. destruct (comp_log st); cbn; [|done]. by rewrite app_nil_r.
  - cbn [run_checked run].
    destruct (run comp (k (comp x y))) as [o l] eqn:Hrun. cbn [fst snd].
    destruct Hrec as [Hmap Hcount].
    assert (Hsplit : L ++ (x, y, comp x y) :: l = (L ++ [(x, y, comp x y)]) ++ l)
      by (by rewrite <-app_assoc).
    destruct (test_comp comp max_calls st x y) as [s1 [f|r]] eqn:Hstep;
      unfold test_comp in Hstep;
      (destruct (decide (x = y)) as [->|Hne];
       [injection Hstep as <- Hf|]);
      try discriminate Hf.
    { split; [done|]. intros [Hnd _]. rewrite Hsplit in Hnd.
      apply both_prefix_NoDup, both_snoc_NoDup in Hnd as (_ & Hxx & _). done. }
    { destruct (pair_map_has (pair_map st) x y || pair_map_has (pair_map st) y x)
        eqn:Hseen.
      - split; [done|]. intros [Hnd _]. rewrite Hsplit in Hnd.
        apply both_prefix_NoDup, both_snoc_NoDup in Hnd as (_ & _ & H1 & H2).
        apply orb_true_iff in Hseen as [Hs|Hs]; apply Hmap in Hs as [r' Hin].
        + by eapply H1.
        + by eapply H2.
      - cbn zeta in Hstep.
        destruct (Z.leb_spec (call_count st + 1) max_calls) as [Hle|Hgt];
          [discriminate Hstep|].
        split; [done|]. intros [_ Hlen]. rewrite length_app in Hlen. cbn [length] in Hlen. lia. }
    destruct (pair_map_has (pair_map st) x y || pair_map_has (pair_map st) y x)
      eqn:Hseen; [discriminate Hstep|].
    cbn zeta in Hstep.
    destruct (Z.leb_spec (call_count st + 1) max_calls) as [Hle|Hgt];
      [|discriminate Hstep].
    injection Hstep as <- <-.
    apply orb_false_iff in Hseen as [Hs1 Hs2].
    assert (∀ r', (x, y, r') ∉ L) as H1.
    { intros r' Hin. assert (pair_map_has (pair_map st) x y = true) as Ht
        by (apply Hmap; by exists r').
      by rewrite Hs1 in Ht. }
    assert (∀ r', (y, x, r') ∉ L) as H2.
    { intros r' Hin. assert (pair_map_has (pair_map st) y x = true) as Ht
        by (apply Hmap; by exists r').
      by rewrite Hs2 in Ht. }
    set (st1 := Checker (call_count st + 1) (pair_map_add (pair_map st) x y)
                        ((λ l0, l0 ++ [(x, y)]) <$> comp_log st)).
    assert (records st1 (L ++ [(x, y, comp x y)])) as Hrec1.
    { split.
      - intros a b. cbn [pair_map st1]. rewrite pair_map_has_add, Hmap. split.
        + intros [[-> ->]|[r' Hin]].
          * exists (comp x y). apply elem_of_app. right. by left.
          * exists r'. apply elem_of_app. by left.
        + intros [r' Hin]. apply elem_of_app in Hin as [Hin|Hin].
          * right. by exists r'.
          * apply list_elem_of_singleton in Hin as [= -> -> _]. by left.
      - cbn [call_count st1]. rewrite length_app. cbn [length]. lia. }
    specialize (IH (comp x y) st1 _ Hrec1). rewrite Hrun in IH. cbn [fst snd] in IH.
    destruct (run_checked (test_comp comp max_calls) (k (comp x y)) st1)
      as [st' [f|o']].
    + split; [done|]. rewrite Hsplit. apply IH.
    + destruct IH as (-> & Hnd & Hlen & Hrec' & Hlog). rewrite Hsplit.
      split; [done|]. split.
      { intros HndL. apply Hnd. by apply both_snoc_NoDup. }
      split.
      { right. destruct Hlen as [->|Hlen]; [|done].
        rewrite app_nil_r, length_app. cbn [length]. lia. }
      split; [done|]. rewrite Hlog. cbn [comp_log st1].
      destruct (comp_log st); cbn; [|done]. by rewrite <-app_assoc.
Qed.

Lemma NoDup_both_iff log :
  NoDup (both log)
  ↔ Forall (λ q : query, q.1.1 ≠ q.1.2) log ∧ no_repeat log.
Proof.
  split.
  - intros Hnd. split; [|by apply both_NoDup_no_repeat].
    apply Forall_forall. intros q Hin Heq.
    apply list_elem_of_split in Hin as (l1 & l2 & ->).
    rewrite both_app in Hnd. apply NoDup_app in Hnd as (_ & _ & Hnd).
    cbn in Hnd. rewrite Heq in Hnd.
    apply NoDup_cons in Hnd as [Hnot _]. apply Hnot. by left.
  - intros [Hne Hrep]. induction Hrep as [|q log Hq Hrep IH]; [constructor|].
    apply Forall_cons in Hne as [Hq_ne Hne].
    destruct q as [[a b] r]. cbn in Hq_ne. cbn [both flat_map app]. cbn [fst snd].
    change (flat_map _ log) with (both log).
    assert (∀ c d, (c = a ∧ d = b) ∨ (c = b ∧ d = a) → (c, d) ∉ both log) as Hnew.
    { intros c d Hcd Hin. apply elem_of_both in Hin as [r' Hin].
      rewrite Forall_forall in Hq.
      destruct Hcd as [[-> ->]|[-> ->]], Hin as [Hin|Hin];
        apply (Hq _ Hin); unfold same_pair; cbn; by (left + right). }
    apply NoDup_cons. split.
    { intros Hin. apply elem_of_cons in Hin as [[= Hab _]|Hin]; [done|].
      apply (Hnew a b); [by left|done]. }
    apply NoDup_cons. split; [|by apply IH].
    apply Hnew. by right.
Qed.

End TestCompFacts.

(** X12: a program run with the checking comparator of the tests, created
    for a comparator [comp] and a limit [max_calls], finishes without a
    failed check exactly when its run against [comp] never submits two equal
    items, never submits an unordered pair twice and makes no call or at
    most [max_calls] calls; it then ends like the run against [comp], with the
    call counter at the number of calls and the submitted tuples appended,
    in order, to the log. *)
Theorem test_comp_accepts {T} `{EqDecision T} {A}
    (comp : T → T → bool) (max_calls : Z) (m : prog (T:=T) A)
    (log0 : option (list (T * T))) :
  let checked := run_checked (test_comp comp max_calls) m (new_checker log0) in
  let log := (run comp m).2 in
  ((∃ o, checked.2 = inr o)
   ↔ Forall (λ q : query, q.1.1 ≠ q.1.2) log ∧ no_repeat log
     ∧ (log = [] ∨ (Z.of_nat (length log) <= max_calls)%Z))
  ∧ (∀ o, checked.2 = inr o →
       o = (run comp m).1
       ∧ call_count checked.1 = Z.of_nat (length log)
       ∧ comp_log checked.1 = (λ l, l ++ map fst log) <$> log0).
Proof.
  intros checked log.
  assert (records (new_checker log0) (@nil (@query T))) as Hrec.
  { split; [|done]. intros a b. cbn. split; [done|].
    intros [r Hin]. by apply elem_of_nil in Hin. }
  pose proof (run_checked_spec comp max_calls m _ _ Hrec) as Hspec.
  fold checked in Hspec. cbn [app] in Hspec. fold log in Hspec.
  destruct checked as [st' [f|o]]; cbn [fst snd].
  - destruct Hspec as [Hcalled Hspec]. split.
    + split; [by intros [o [=]]|]. intros (Hne & Hrep & [Hnil|Hlen]); [done|].
      exfalso. apply Hspec. split; [|done]. by apply NoDup_both_iff.
    + by intros o [=].
  - destruct Hspec as (-> & Hnd & Hlen & [_ Hcount] & Hlog). split.
    + split; [|by eexists]. intros _.
      assert (NoDup (both log)) as Hb by (apply Hnd; constructor).
      apply NoDup_both_iff in Hb as [Hne Hrep]. done.
    + intros o [= <-]. done.
Qed.

(** X13: for every input without duplicates and every comparator function,
    consistent or not, [merge_insertion_sort] run with the checking
    comparator of the tests limited to
    [merge_insertion_max_comparisons(n)] calls fails no check; it returns a
    list that holds every input item once, which is ascending if the
    comparator is consistent with a strict total order. *)
Theorem merge_insertion_sort_passes_checks {T} `{EqDecision T}
    (comp : T → T → bool) (array : list T) (log0 : option (list (T * T))) :
  NoDup array →
  ∃ bound st' out,
    merge_insertion_max_comparisons (py_len array) = Ok bound
    ∧ run_checked (test_comp comp bound) (merge_insertion_sort array)
                  (new_checker log0) = (st', inr (Ok out))
    ∧ out ≡ₚ array
    ∧ (call_count st' <= bound)%Z
    ∧ (consistent comp array → ascending comp out).
Proof.
  intros Hnd.
  pose proof (run_runs comp (merge_insertion_sort array)) as Hruns.
  pose proof (run_answers comp (merge_insertion_sort array)) as Hans.
  apply merge_insertion_sort_runs in Hruns
    as (out & Hout & Hperm & Hcost & Hboth & _ & Hsorted); [|done].
  set (bound := sum_cost (length array)).
  assert (records (new_checker log0) (@nil (@query T))) as Hrec.
  { split; [|done]. intros a b. cbn. split; [done|].
    intros [r Hin]. by apply elem_of_nil in Hin. }
  pose proof (run_checked_spec comp bound (merge_insertion_sort array) _ _ Hrec)
    as Hspec.
  cbn [app] in Hspec.
  destruct (run_checked (test_comp comp bound) (merge_insertion_sort array)
              (new_checker log0)) as [st' [f|o]] eqn:Hchecked.
  { exfalso. apply Hspec. done. }
  destruct Hspec as (-> & _ & _ & [_ Hcount] & _).
  exists bound, st', out. split; [apply max_comparisons_sum|].
  split; [by rewrite Hchecked, Hout|]. split; [done|]. split; [lia|].
  intros Hcons. eapply below_ascending. by apply (Hsorted comp array).
Qed.

Lemma merge_insertion_sort_passes_checks_witness :
  ∃ bound st' out,
    merge_insertion_max_comparisons (py_len example_array) = Ok bound
    ∧ run_checked (test_comp (λ _ _, false) bound)
                  (merge_insertion_sort example_array)
                  (new_checker None) = (st', inr (Ok out))
    ∧ out ≡ₚ example_array
    ∧ (call_count st' <= bound)%Z
    ∧ (consistent (λ _ _, false) example_array → ascending (λ _ _, false) out).
Proof.
  apply (merge_insertion_sort_passes_checks (λ _ _, false) example_array None).
  exact (bool_decide_unpack (NoDup example_array) I).
Defined.

(** ** The least number of comparisons *)

Section MinimumComparisons.

Context {T : Type} `{EqDecision T}.
Implicit Types (x y item : T) (array P Y : list T) (log : list (@query T))
  (st : @main_chain T) (pairs : list (T * T)).

Lemma bin_insert_index_min array item log o :
  item ∉ array → array ≠ [] →
  runs (bin_insert_index array item) log o → 1 ≤ length log.
Proof.
  intros Hnot Hne Hruns.
  apply bin_insert_index_runs in Hruns as (i & _ & _ & _ & _ & _ & _ & Hlo & Hhi);
    [|done].
  assert (log ≠ []) as Hlog.
  { intros ->. destruct Hlo as [->|(x & _ & Hin)]; [|by apply elem_of_nil in Hin].
    destruct Hhi as [Hlen|(x & _ & Hin)]; [|by apply elem_of_nil in Hin].
    by destruct array. }
  destruct log; [done|]. cbn. lia.
Qed.

(** Every insertion of the loop costs a comparison, since the first placed
    item never has a partner that is still to be inserted. *)
Lemma insert_all_min pairs leftover items q1 q2 Y1 Y2 st P k log o x0 :
  NoDup items → NoDup (map fst pairs ++ map snd pairs) →
  (∀ z, leftover = Some z → (z ∉ map fst pairs) ∧ (z ∉ map snd pairs)) →
  length q1 = length Y1 →
  chain_inv pairs leftover items st P (Y1 ++ Y2) (q1 ++ q2) k →
  head P = Some x0 → (x0 ∉ map fst pairs) →
  runs (insert_all q1 st) log o →
  length q1 ≤ length log.
Proof.
  intros Hitems_nodup Hpairs_nodup Hleftover.
  revert Y1 st P k log x0.
  induction q1 as [|[q r] q1 IH]; intros Y1 st P k log x0 Hlen Hinv Hhead Hx0 Hruns.
  { cbn. lia. }
  destruct Y1 as [|y Y1]; [done|]. cbn [length] in Hlen.
  cbn [insert_all] in Hruns. cbn [app] in Hinv.
  apply runs_bind_inv in Hruns
    as [(st1 & l1 & l2 & Hstep & Hrest & ->)|(e & Hstep & ->)].
  2:{ by destruct (insert_queued_step pairs leftover items Hitems_nodup
                     Hpairs_nodup Hleftover _ _ _ _ _ _ _ _ _ _ Hinv Hstep)
        as (? & ? & ? & ? & _). }
  destruct (insert_queued_step pairs leftover items Hitems_nodup
              Hpairs_nodup Hleftover _ _ _ _ _ _ _ _ _ _ Hinv Hstep)
    as (st1' & n & idx & [= <-] & HnP & Hnk & Hidx & Hpartner & Hn & HyP & Hyk
        & Hbin & _ & Hinv1).
  assert (1 ≤ n) as Hn1.
  { destruct P as [|p P]; [done|]. injection Hhead as ->.
    destruct Hn as [->|(x & Hx & Hp)]; [cbn; lia|].
    destruct n; [|lia]. injection Hx as <-. exfalso. apply Hx0.
    apply list_elem_of_fmap. by exists (x0, y). }
  assert (1 ≤ length l1) as Hl1.
  { apply (bin_insert_index_min (take n P) y l1 (Ok (Z.of_nat idx))); [| |done].
    - intros Hin. apply HyP. by eapply elem_of_take_1.
    - destruct P; [done|]. by destruct n; [lia|]. }
  assert (∃ x1, head (take idx P ++ y :: drop idx P) = Some x1
                ∧ x1 ∉ map fst pairs) as (x1 & Hhead1 & Hx1).
  { destruct idx as [|idx].
    - exists y. by rewrite take_0.
    - exists x0. destruct P; [done|]. by injection Hhead as ->. }
  apply (IH Y1 st1 (take idx P ++ y :: drop idx P) (S k) l2 x1) in Hrest;
    [|lia|done..].
  rewrite length_app. cbn [length]. lia.
Qed.

Lemma sort_rec_min fuel array log o :
  NoDup array → length array ≤ fuel →
  runs (sort_rec fuel array) log o →
  length array - 1 ≤ length log.
Proof.
  revert array log o.
  induction fuel as [|fuel IH]; intros array log o Hnd Hfuel Hruns.
  { destruct array; [cbn; lia|cbn in Hfuel; lia]. }
  destruct (decide (length array ≤ 2)) as [Hshort|Hlong].
  { destruct array as [|a [|b [|c array]]]; [cbn; lia|cbn; lia| |cbn in Hshort; lia].
    cbn [sort_rec] in Hruns.
    change (py_len [a; b] <? 1)%Z with false in Hruns.
    change (py_len [a; b] =? 1)%Z with false in Hruns.
    rewrite NoDup_len_check in Hruns by done.
    cbn in Hruns. apply runs_await_inv in Hruns as (r & log' & -> & _).
    cbn. lia. }
  assert (3 ≤ length array) as Hlen by lia.
  rewrite sort_rec_unfold in Hruns by done.
  apply runs_bind_inv in Hruns
    as [(pairs & PL & l' & Hpair & Hruns & ->)|(e & Hpair & ->)].
  2:{ by apply pair_up_runs in Hpair as (? & ? & _). }
  apply pair_up_runs in Hpair as (pairs' & [= <-] & Hpaired & Hsub); [|done].
  set (h := length array / 2) in *.
  assert (1 ≤ h ∧ 2 * h ≤ length array ∧ length array ≤ 2 * h + 1) as (Hh1 & Hh2 & Hh3).
  { unfold h. halve (length array). lia. }
  assert (length PL = h) as HPL.
  { pose proof (submitted_length PL) as Hs. rewrite Hsub, length_take in Hs. lia. }
  pose proof (paired_items _ _ Hpaired) as Hkv. rewrite Hsub in Hkv.
  assert (NoDup (take (2 * h) array)) as Hndt.
  { rewrite <-(take_drop (2 * h) array) in Hnd. by apply NoDup_app in Hnd as [? _]. }
  assert (NoDup (map fst pairs ++ map snd pairs)) as Hndkv by (by rewrite Hkv).
  pose proof Hndkv as Hndk. apply NoDup_app in Hndk as (Hndk & Hdisj & _).
  assert (length (dict_keys pairs) = h) as Hklen.
  { unfold dict_keys. by rewrite length_map, (paired_length _ _ Hpaired). }
  assert (length (dict_keys pairs) ≤ fuel) as Hkfuel by lia.
  apply runs_bind_inv in Hruns
    as [(larger & RL & ML & Hrec & Hruns & ->)|(e & Hrec & ->)].
  2:{ by destruct (sort_rec_runs _ _ _ _ Hndk Hkfuel Hrec) as (? & ? & _). }
  pose proof (IH _ _ _ Hndk Hkfuel Hrec) as Hrmin.
  destruct (sort_rec_runs _ _ _ _ Hndk Hkfuel Hrec)
    as (larger' & [= <-] & Hlarger & _).
  destruct (merge_setup array pairs PL Hnd Hlen Hpaired Hsub larger Hlarger)
    as (sm0 & lo_list & st0 & queue & st1 & Y0 & Hleftover & _ & Hsm0
        & Hbuild & Hassert & _ & Hq_run & _ & HYlen & Hqlen & _ & Hinv0).
  unfold merge_phase in Hruns. rewrite Hbuild in Hruns. cbn [bind] in Hruns.
  rewrite Hassert in Hruns. cbn [py_assert bind] in Hruns.
  rewrite Hq_run in Hruns. cbn [bind] in Hruns.
  assert (Hinv0' : chain_inv pairs (head lo_list) array st1
            (sm0 :: larger) (Y0 ++ []) (queue ++ []) 0).
  { by rewrite !app_nil_r. }
  assert (sm0 ∉ map fst pairs) as Hsm0k.
  { assert (∃ la0, head larger = Some la0) as [la0 Hla0].
    { assert (length larger = h) as Hllen by (by rewrite Hlarger).
      destruct larger; [|by eexists]. cbn [length] in Hllen. lia. }
    intros Hin. apply (Hdisj sm0 Hin).
    apply list_elem_of_fmap. exists (la0, sm0). split; [done|]. by apply Hsm0. }
  assert (length queue ≤ length ML) as Hmin.
  { apply runs_bind_inv in Hruns
      as [(st' & l1 & l2 & Hloop & _ & ->)|(e & Hloop & _)].
    - rewrite length_app.
      pose proof (insert_all_min pairs (head lo_list) array queue [] Y0 [] st1
                    (sm0 :: larger) 0 l1 (Ok st') sm0 Hnd Hndkv Hleftover HYlen
                    Hinv0' eq_refl Hsm0k Hloop). lia.
    - exact (insert_all_min pairs (head lo_list) array queue [] Y0 [] st1
               (sm0 :: larger) 0 ML (Err e) sm0 Hnd Hndkv Hleftover HYlen
               Hinv0' eq_refl Hsm0k Hloop). }
  rewrite !length_app. unfold dict_keys in Hklen. rewrite Hklen in Hrmin.
  assert ((length array + 1) / 2 = length array - h) as Hhalf.
  { unfold h. halve (length array). halve (length array + 1). lia. }
  lia.
Qed.

End MinimumComparisons.

(** X15: on an input of n items without duplicates, whatever the comparator
    answers, every run of [merge_insertion_sort] calls the comparator at
    least n - 1 times. *)
Theorem merge_insertion_sort_min_comparisons {T} `{EqDecision T}
    (array : list T) (log : list (@query T)) (o : outcome (list T)) :
  NoDup array →
  runs (merge_insertion_sort array) log o →
  length array - 1 ≤ length log.
Proof.
  intros Hnd Hruns. by apply (sort_rec_min (length array) array log o).
Qed.

Lemma merge_insertion_sort_min_comparisons_witness :
  length example_array - 1
  ≤ length (run Nat.ltb (merge_insertion_sort example_array)).2.
Proof.
  apply (merge_insertion_sort_min_comparisons example_array _
           (run Nat.ltb (merge_insertion_sort example_array)).1).
  - exact (bool_decide_unpack (NoDup example_array) I).
  - apply run_runs.
Defined.

(** ** The comparator of the tests *)

Lemma string_ltb_lt (a b : string) :
  String.ltb a b = true ↔ OrderedTypeEx.String_as_OT.lt a b.
Proof.
  rewrite <-OrderedTypeEx.String_as_OT.cmp_lt.
  unfold String.ltb, OrderedTypeEx.String_as_OT.cmp.
  by destruct (String.compare a b).
Qed.

Lemma string_ltb_total (a b : string) :
  a ≠ b → String.ltb a b = negb (String.ltb b a).
Proof.
  intros Hne. unfold String.ltb. rewrite (String.compare_antisym b a).
  destruct (String.compare a b) eqn:Hc; cbn; try done.
  apply String.compare_eq_iff in Hc. congruence.
Qed.

Lemma comp_ltb (a b : string) : a ≠ b → _comp a b = String.ltb a b.
Proof.
  intros Hne. unfold _comp. rewrite (string_ltb_total a b Hne).
  by destruct (String.ltb b a).
Qed.

Lemma comp_consistent (D : list string) : consistent _comp D.
Proof.
  split.
  - intros x y _ _ Hne. rewrite !comp_ltb by done. by apply string_ltb_total.
  - intros x y z _ _ _ Hxy Hyz. rewrite !comp_ltb by done.
    rewrite !string_ltb_lt. intros H1 H2.
    pose proof (OrderedTypeEx.String_as_OT.lt_trans _ _ _ H1 H2) as H3.
    assert (x ≠ z) as Hxz.
    { intros ->. by apply (OrderedTypeEx.String_as_OT.lt_not_eq _ _ H3). }
    rewrite comp_ltb by done. by apply string_ltb_lt.
Qed.

(** X14: the comparator [_comp] of the tests ranks two different strings by
    the lexicographic order of strings, so it is consistent with a strict
    total order, and [merge_insertion_sort] with it returns the strings of a
    duplicate-free input in strictly increasing lexicographic order. *)
Theorem comp_sorts_strings (array : list string) :
  NoDup array →
  consistent _comp array
  ∧ (∀ a b, a ≠ b → _comp a b = String.ltb a b)
  ∧ ∃ out log,
      run _comp (merge_insertion_sort array) = (Ok out, log)
      ∧ out ≡ₚ array
      ∧ StronglySorted (λ a b, String.ltb a b = true) out.
Proof.
  intros Hnd. split; [apply comp_consistent|]. split; [apply comp_ltb|].
  pose proof (run_runs _comp (merge_insertion_sort array)) as Hruns.
  pose proof (run_answers _comp (merge_insertion_sort array)) as Hans.
  destruct (run _comp (merge_insertion_sort array)) as [o log]. cbn [fst snd] in *.
  apply merge_insertion_sort_runs in Hruns
    as (out & -> & Hperm & _ & _ & _ & Hsorted); [|done].
  exists out, log. split; [done|]. split; [done|].
  specialize (Hsorted _comp array (comp_consistent array) ltac:(done) Hans).
  eapply StronglySorted_weaken; [|exact Hsorted].
  intros a b (_ & _ & Hne & Hc). by rewrite <-comp_ltb.
Qed.

Lemma comp_sorts_strings_witness :
  consistent _comp ["D"; "A"; "B"; "E"; "C"]%string
  ∧ (∀ a b, a ≠ b → _comp a b = String.ltb a b)
  ∧ ∃ out log,
      run _comp (merge_insertion_sort ["D"; "A"; "B"; "E"; "C"]%string)
      = (Ok out, log)
      ∧ out ≡ₚ ["D"; "A"; "B"; "E"; "C"]%string
      ∧ StronglySorted (λ a b, String.ltb a b = true) out.
Proof.
  apply (comp_sorts_strings ["D"; "A"; "B"; "E"; "C"]%string).
  exact (bool_decide_unpack (NoDup ["D"; "A"; "B"; "E"; "C"]%string) I).
Defined.

(** ** The dictionary of the pairing round *)

Section PairingDictionary.

Context {T : Type} `{EqDecision T}.
Implicit Types (array : list T) (log : list (@query T)) (pairs : list (T * T)).

Lemma submitted_lookup log i (a b : T) r :
  log !! i = Some (a, b, r) →
  submitted log !! (2 * i) = Some a ∧ submitted log !! (2 * i + 1) = Some b.
Proof.
  revert i. induction log as [|q log IH]; intros i Hi; [done|].
  destruct i as [|i].
  - injection Hi as ->. done.
  - cbn in Hi. apply IH in Hi as [H1 H2].
    replace (2 * S i) with (S (S (2 * i))) by lia. cbn. split; [done|].
    by replace (i + (i + 0) + 1) with (2 * i + 1) by lia.
Qed.

End PairingDictionary.

(** X16: on an input without duplicates, whatever the comparator answers,
    the pairing round of [merge_insertion_sort] makes floor(n/2) comparisons
    and leaves a dictionary of floor(n/2) entries, none overwritten and in
    the order of the pairs: the i-th comparison is that of array[2i] with
    array[2i+1], and the i-th entry has as its key the one of the two that
    the comparator ranked higher and as its value the other one. *)
Theorem pairing_dictionary {T} `{EqDecision T}
    (array : list T) (log : list (@query T)) (o : outcome (list (T * T))) :
  NoDup array →
  runs (pair_up array) log o →
  ∃ pairs,
    o = Ok pairs
    ∧ length pairs = length array / 2
    ∧ length log = length array / 2
    ∧ (∀ z, z ∈ dict_keys pairs → z ∉ map snd pairs)
    ∧ ∀ i, i < length array / 2 →
        ∃ (a b : T) (r : bool),
          array !! (2 * i) = Some a ∧ array !! (2 * i + 1) = Some b
          ∧ log !! i = Some (a, b, r)
          ∧ pairs !! i = Some (if r then (b, a) else (a, b))
          ∧ dict_get pairs (if r then b else a) = Some (if r then a else b).
Proof.
  intros Hnd Hruns.
  apply pair_up_runs in Hruns as (pairs & -> & Hpaired & Hsub); [|done].
  set (h := length array / 2) in *.
  assert (2 * h ≤ length array) as Hh by (unfold h; halve (length array); lia).
  assert (length log = h) as Hlog.
  { pose proof (submitted_length log) as Hs. rewrite Hsub, length_take in Hs. lia. }
  pose proof (paired_length _ _ Hpaired) as Hplen.
  pose proof (paired_items _ _ Hpaired) as Hkv. rewrite Hsub in Hkv.
  assert (NoDup (map fst pairs ++ map snd pairs)) as Hndkv.
  { rewrite Hkv. rewrite <-(take_drop (2 * h) array) in Hnd.
    by apply NoDup_app in Hnd as [? _]. }
  exists pairs. split; [done|]. split; [lia|]. split; [done|]. split.
  { intros z Hk Hv. apply NoDup_app in Hndkv as (_ & Hdisj & _). by apply (Hdisj z). }
  intros i Hi.
  destruct (lookup_lt_is_Some_2 log i) as [[[a b] r] Hq]; [lia|].
  destruct (Forall2_lookup_r _ _ _ _ _ Hpaired Hq) as (kv & Hkvi & Hrel).
  destruct (submitted_lookup log i a b r Hq) as [Ha Hb].
  rewrite Hsub in Ha, Hb.
  rewrite lookup_take_lt in Ha by lia. rewrite lookup_take_lt in Hb by lia.
  exists a, b, r. split; [done|]. split; [done|]. split; [done|].
  assert (kv = if r then (b, a) else (a, b)) as ->.
  { destruct kv as [k v]. cbn in Hrel.
    destruct Hrel as [[= -> -> ->]|[= -> -> ->]]; done. }
  split; [done|].
  apply dict_get_Some.
  - by apply NoDup_app in Hndkv as [? _].
  - destruct r; by eapply list_elem_of_lookup_2.
Qed.

Lemma pairing_dictionary_witness :
  ∃ pairs,
    (run Nat.ltb (pair_up example_array)).1 = Ok pairs
    ∧ length pairs = length example_array / 2
    ∧ length (run Nat.ltb (pair_up example_array)).2 = length example_array / 2
    ∧ (∀ z, z ∈ dict_keys pairs → z ∉ map snd pairs)
    ∧ ∀ i, i < length example_array / 2 →
        ∃ (a b : nat) (r : bool),
          example_array !! (2 * i) = Some a
          ∧ example_array !! (2 * i + 1) = Some b
          ∧ (run Nat.ltb (pair_up example_array)).2 !! i = Some (a, b, r)
          ∧ pairs !! i = Some (if r then (b, a) else (a, b))
          ∧ dict_get pairs (if r then b else a) = Some (if r then a else b).
Proof.
  apply (pairing_dictionary example_array).
  - exact (bool_decide_unpack (NoDup example_array) I).
  - apply run_runs.
Defined.
